(** * An in-memory LRU/TTL cache: the engine of [cache.py] and its specification

    The Python class [ThreadSafeCache] keeps a dictionary from keys to
    [CacheNode] objects and threads those same objects on a doubly linked
    list between two sentinel nodes.  The objects are shared and mutated in
    place, so the embedding keeps an explicit object store: a node is an
    address into [objects], and every attribute assignment of the source is
    one update of the store.

    Every public method runs its whole body under the engine's re-entrant
    lock, so a method call is one atomic step on the state.  A Python
    exception is an outcome of its own that still carries the state reached
    when it was raised.

    Readings of [time.time()] are an argument [now] of the methods that read
    the clock.  Timestamps and durations are integers ([Z]).  The sum
    [time.time() + ttl] of [put] is a sum of floats: the int is converted
    first, and an int too large for a float raises [OverflowError], as it
    does here.  The sum is then rounded to a float; the embedding keeps the
    exact sum, which is the float the code stores whenever the clock
    reading, the duration and their sum are at most [2^53] in magnitude
    ([exact_put]).  Whatever says which expiry a Put stores is stated for
    such Puts.  The quotient [hit_rate] is an exact rational ([Q]).  Keys
    are strings or [None], values are of any type [Any] with its [None], as
    the annotations of the source have them. *)

From stdpp Require Import base option list gmap strings.
From Stdlib Require Import ZArith QArith Lia.

Local Open Scope Z_scope.
Set Warnings "-clear-no-such-hyp".

(** ** Python outcomes *)

Inductive exn := ValueError | KeyError | AttributeError | OverflowError.

Inductive outcome (S A : Type) :=
| Returns (a : A) (s : S)
| Raises (e : exn) (s : S).
Arguments Returns {S A} a s.
Arguments Raises {S A} e s.

Definition state_of {S A} (o : outcome S A) : S :=
  match o with Returns _ s => s | Raises _ s => s end.

Definition returned {S A} (o : outcome S A) : option A :=
  match o with Returns a _ => Some a | Raises _ _ => None end.

Definition raised {S A} (o : outcome S A) : option exn :=
  match o with Returns _ _ => None | Raises e _ => Some e end.

Definition M (S A : Type) := S → outcome S A.

Definition ret {S A} (a : A) : M S A := fun s => Returns a s.
Definition raise {S A} (e : exn) : M S A := fun s => Raises e s.
Definition bind {S A B} (m : M S A) (k : A → M S B) : M S B :=
  fun s => match m s with
           | Returns a s' => k a s'
           | Raises e s' => Raises e s'
           end.
Definition gets {S A} (f : S → A) : M S A := fun s => Returns (f s) s.
Definition modify {S} (f : S → S) : M S unit := fun s => Returns tt (f s).

Declare Scope py_scope.
Delimit Scope py_scope with py.
Notation "'do' x <- m ; k" := (bind m (fun x => k))
  (at level 10, x name, m at level 100, k at level 200) : py_scope.
Notation "m ;; k" := (bind m (fun _ => k))
  (at level 100, k at level 200, right associativity) : py_scope.

(** ** Objects *)

(** An object reference; [None] is Python's [None]. *)
Abbreviation addr := nat.

Module CacheNode.
Record t {Any : Type} := mk {
  key : string;
  value : Any;
  expiry : Z;        (* 0 means no expiration *)
  prev : option addr;
  next : option addr
}.
Arguments t : clear implicits.
Arguments mk {Any} _ _ _ _ _.

(** [CacheNode.__init__(key, value, expiry)] *)
Definition init {Any} (key : string) (value : Any) (expiry : Z) : t Any :=
  mk key value expiry None None.

Definition with_value {Any} (v : Any) (n : t Any) : t Any :=
  mk (key n) v (expiry n) (prev n) (next n).
Definition with_expiry {Any} (e : Z) (n : t Any) : t Any :=
  mk (key n) (value n) e (prev n) (next n).
Definition with_prev {Any} (p : option addr) (n : t Any) : t Any :=
  mk (key n) (value n) (expiry n) p (next n).
Definition with_next {Any} (x : option addr) (n : t Any) : t Any :=
  mk (key n) (value n) (expiry n) (prev n) x.
End CacheNode.

(** The dictionary returned by [get_stats]. *)
Module CacheStats.
Record t := mk {
  hits : Z;
  misses : Z;
  hit_rate : Q;
  total_requests : Z;
  current_size : Z;
  evictions : Z;
  expired_removals : Z
}.
End CacheStats.

Module ThreadSafeCache.

Record t {Any : Type} := mk {
  max_size : Z;
  default_ttl : option Z;
  cache : gmap string addr;
  head : addr;
  tail : addr;
  hits : Z;
  misses : Z;
  evictions : Z;
  expired_removals : Z;
  cleanup_interval : Z;
  running : bool;
  (* every CacheNode object created so far, by address *)
  objects : list (CacheNode.t Any)
}.
Arguments t : clear implicits.
Arguments mk {Any} _ _ _ _ _ _ _ _ _ _ _ _.

Section methods.
Context {Any : Type} (PyNone : Any).

Local Abbreviation node := (CacheNode.t Any).
Local Abbreviation self := (t Any).

Definition with_cache (c : gmap string addr) (s : self) : self :=
  mk (max_size s) (default_ttl s) c (head s) (tail s) (hits s) (misses s)
     (evictions s) (expired_removals s) (cleanup_interval s) (running s)
     (objects s).
Definition with_objects (h : list node) (s : self) : self :=
  mk (max_size s) (default_ttl s) (cache s) (head s) (tail s) (hits s)
     (misses s) (evictions s) (expired_removals s) (cleanup_interval s)
     (running s) h.
Definition with_hits (z : Z) (s : self) : self :=
  mk (max_size s) (default_ttl s) (cache s) (head s) (tail s) z (misses s)
     (evictions s) (expired_removals s) (cleanup_interval s) (running s)
     (objects s).
Definition with_misses (z : Z) (s : self) : self :=
  mk (max_size s) (default_ttl s) (cache s) (head s) (tail s) (hits s) z
     (evictions s) (expired_removals s) (cleanup_interval s) (running s)
     (objects s).
Definition with_evictions (z : Z) (s : self) : self :=
  mk (max_size s) (default_ttl s) (cache s) (head s) (tail s) (hits s)
     (misses s) z (expired_removals s) (cleanup_interval s) (running s)
     (objects s).
Definition with_expired_removals (z : Z) (s : self) : self :=
  mk (max_size s) (default_ttl s) (cache s) (head s) (tail s) (hits s)
     (misses s) (evictions s) z (cleanup_interval s) (running s)
     (objects s).
Definition with_running (b : bool) (s : self) : self :=
  mk (max_size s) (default_ttl s) (cache s) (head s) (tail s) (hits s)
     (misses s) (evictions s) (expired_removals s) (cleanup_interval s) b
     (objects s).

Local Open Scope py_scope.

(** *** Attribute access on node objects *)

(** Reading an attribute of [r]: on [None] Python raises
    [AttributeError]. *)
Definition load (r : option addr) : M self node :=
  fun s => match r with
           | None => Raises AttributeError s
           | Some a => match objects s !! a with
                       | Some n => Returns n s
                       | None => Raises AttributeError s
                       end
           end.

(** Assigning an attribute of [r]: the object is updated in place. *)
Definition setattr (r : option addr) (f : node → node) : M self unit :=
  do n <- load r;
  match r with
  | Some a => modify (fun s => with_objects (<[a := f n]> (objects s)) s)
  | None => raise AttributeError
  end.

(** [CacheNode(key, value, expiry)]: a new object. *)
Definition new_node (k : string) (v : Any) (e : Z) : M self addr :=
  fun s => Returns (length (objects s))
             (with_objects (objects s ++ [CacheNode.init k v e]) s).

(** *** Linked-list helpers *)

Definition _add_to_front (nd : addr) : M self unit :=
  (* node.next = self.head.next *)
  do hd <- gets head;
  do h <- load (Some hd);
  setattr (Some nd) (CacheNode.with_next (CacheNode.next h));;
  (* node.prev = self.head *)
  setattr (Some nd) (CacheNode.with_prev (Some hd));;
  (* self.head.next.prev = node *)
  do h <- load (Some hd);
  setattr (CacheNode.next h) (CacheNode.with_prev (Some nd));;
  (* self.head.next = node *)
  setattr (Some hd) (CacheNode.with_next (Some nd)).

Definition _remove_node (nd : addr) : M self unit :=
  (* node.prev.next = node.next *)
  do n <- load (Some nd);
  setattr (CacheNode.prev n) (CacheNode.with_next (CacheNode.next n));;
  (* node.next.prev = node.prev *)
  do n <- load (Some nd);
  setattr (CacheNode.next n) (CacheNode.with_prev (CacheNode.prev n)).

(** [del self.cache[k]] *)
Definition del_cache (k : string) : M self unit :=
  fun s => match cache s !! k with
           | Some _ => Returns tt (with_cache (delete k (cache s)) s)
           | None => Raises KeyError s
           end.

(** [self.cache[k]] *)
Definition cache_getitem (k : string) : M self addr :=
  fun s => match cache s !! k with
           | Some a => Returns a s
           | None => Raises KeyError s
           end.

Definition _evict_lru : M self unit :=
  do c <- gets cache;
  if decide (size c = 0%nat) then ret tt      (* if not self.cache *)
  else
    do tl <- gets tail;
    do t <- load (Some tl);
    let lru_node := CacheNode.prev t in
    do hd <- gets head;
    if decide (lru_node = Some hd) then ret tt
    else
      match lru_node with
      | None => raise AttributeError
      | Some lru =>
          _remove_node lru;;
          do n <- load (Some lru);
          del_cache (CacheNode.key n);;
          modify (fun s => with_evictions (evictions s + 1) s)
      end.

(** [time.time()] has read [now]. *)
Definition _is_expired (now : Z) (n : node) : bool :=
  bool_decide (CacheNode.expiry n > 0) && bool_decide (now > CacheNode.expiry n).

(** *** Public methods *)

Definition __init__ (max_size : Z) (default_ttl : option Z) : self :=
  (* head is object 0, tail is object 1; each is created with
     prev = next = None and then linked to the other *)
  let hd := CacheNode.init EmptyString PyNone 0 in
  let tl := CacheNode.init EmptyString PyNone 0 in
  mk max_size default_ttl ∅ 0%nat 1%nat 0 0 0 0 60 true
     [CacheNode.with_next (Some 1%nat) hd; CacheNode.with_prev (Some 0%nat) tl].

(** [float + int] converts the int to a float first.  An int of magnitude
    [2^1024 - 2^970] or more rounds beyond the largest double: the
    conversion raises [OverflowError]. *)
Definition float_limit : Z := 2 ^ 1024 - 2 ^ 970.
Definition fits_float (d : Z) : bool := bool_decide (Z.abs d < float_limit).

(** [time.time() + d] for an int [d], when [time.time()] has read [now]:
    the sum is kept exact, as the float sum is under [exact_sum] below. *)
Definition time_plus (now d : Z) : M self Z :=
  if fits_float d then ret (now + d) else raise OverflowError.

Definition put (now : Z) (key : option string) (value : Any) (ttl : option Z)
  : M self unit :=
  match key with
  | None => raise ValueError
  | Some k =>
      if decide (k = EmptyString) then raise ValueError
      else
        (* expiry = 0, or time.time() + ttl, or time.time() + self.default_ttl *)
        do expiry <-
          match ttl with
          | Some t => time_plus now t
          | None =>
              do dttl <- gets default_ttl;
              match dttl with
              | Some d => time_plus now d
              | None => ret 0
              end
          end;
        do c <- gets cache;
        match c !! k with
        | Some nd =>
            setattr (Some nd) (CacheNode.with_value value);;
            setattr (Some nd) (CacheNode.with_expiry expiry);;
            _remove_node nd;;
            _add_to_front nd
        | None =>
            do nd <- new_node k value expiry;
            modify (fun s => with_cache (<[k := nd]> (cache s)) s);;
            _add_to_front nd;;
            do c <- gets cache;
            do m <- gets max_size;
            if decide (Z.of_nat (size c) > m) then _evict_lru else ret tt
        end
  end.

Definition get (now : Z) (k : string) : M self Any :=
  do c <- gets cache;
  match c !! k with
  | Some nd =>
      do n <- load (Some nd);
      if _is_expired now n then
        _remove_node nd;;
        del_cache k;;
        modify (fun s => with_expired_removals (expired_removals s + 1) s);;
        modify (fun s => with_misses (misses s + 1) s);;
        ret PyNone
      else
        _remove_node nd;;
        _add_to_front nd;;
        modify (fun s => with_hits (hits s + 1) s);;
        do n <- load (Some nd);
        ret (CacheNode.value n)
  | None =>
      modify (fun s => with_misses (misses s + 1) s);;
      ret PyNone
  end.

Definition delete (k : string) : M self bool :=
  do c <- gets cache;
  match c !! k with
  | Some nd =>
      _remove_node nd;;
      del_cache k;;
      ret true
  | None => ret false
  end.

Definition clear : M self unit :=
  modify (with_cache ∅);;
  do hd <- gets head;
  do tl <- gets tail;
  setattr (Some hd) (CacheNode.with_next (Some tl));;
  setattr (Some tl) (CacheNode.with_prev (Some hd)).

Definition get_stats : M self CacheStats.t :=
  do h <- gets hits;
  do m <- gets misses;
  let total_requests := h + m in
  let hit_rate :=
    if decide (total_requests > 0)
    then Qdiv (inject_Z h) (inject_Z total_requests)
    else 0%Q in
  do c <- gets cache;
  do ev <- gets evictions;
  do er <- gets expired_removals;
  ret {| CacheStats.hits := h;
         CacheStats.misses := m;
         CacheStats.hit_rate := hit_rate;
         CacheStats.total_requests := total_requests;
         CacheStats.current_size := Z.of_nat (size c);
         CacheStats.evictions := ev;
         CacheStats.expired_removals := er |}.

(** *** The background sweep *)

(** The first loop of [_cleanup_expired]: the keys of the items whose
    node has expired at [current_time]. *)
Fixpoint collect_expired (current_time : Z) (items : list (string * addr))
  : M self (list string) :=
  match items with
  | [] => ret []
  | (k, a) :: rest =>
      do n <- load (Some a);
      do ks <- collect_expired current_time rest;
      ret (if bool_decide (CacheNode.expiry n > 0)
              && bool_decide (current_time > CacheNode.expiry n)
           then k :: ks else ks)
  end.

(** The second loop of [_cleanup_expired]. *)
Fixpoint remove_expired (expired_keys : list string) : M self unit :=
  match expired_keys with
  | [] => ret tt
  | k :: rest =>
      do nd <- cache_getitem k;
      _remove_node nd;;
      del_cache k;;
      modify (fun s => with_expired_removals (expired_removals s + 1) s);;
      remove_expired rest
  end.

(** The dictionary is iterated in the order of [map_to_list]; Python
    iterates in insertion order.  Nothing proved below depends on the
    order. *)
Definition _cleanup_expired (now : Z) : M self unit :=
  do c <- gets cache;
  do expired_keys <- collect_expired now (map_to_list c);
  remove_expired expired_keys.

Definition shutdown : M self unit :=
  modify (with_running false).

End methods.

(** [create_cache(max_size, default_ttl)] *)
Definition create_cache {Any} (PyNone : Any) (max_size : Z) (default_ttl : option Z)
  : t Any :=
  __init__ PyNone max_size default_ttl.

(** The defaults of the keyword arguments of [__init__] and
    [create_cache]: [None] for an argument that the caller leaves out. *)
Definition create_cache_kw {Any} (PyNone : Any)
    (max_size : option Z) (default_ttl : option Z) : t Any :=
  create_cache PyNone (default 1000 max_size) default_ttl.

End ThreadSafeCache.

Import ThreadSafeCache.

(** ** Histories of calls *)

Section histories.
Context {Any : Type} (PyNone : Any).

Local Abbreviation node := (CacheNode.t Any).
Local Abbreviation self := (ThreadSafeCache.t Any).

(** A call on the engine: one of the public methods, or one sweep of the
    background worker, which takes the same lock. *)
Inductive call :=
| Put (key : option string) (value : Any) (ttl : option Z)
| Get (key : string)
| Delete (key : string)
| Clear
| GetStats
| Sweep.

(** The state after a call made when the clock reads [now], whether it
    returned or raised. *)
Definition step (s : self) (c : Z * call) : self :=
  match c.2 with
  | Put k v ttl => state_of (put c.1 k v ttl s)
  | Get k => state_of (get PyNone c.1 k s)
  | Delete k => state_of (delete k s)
  | Clear => state_of (clear s)
  | GetStats => state_of (get_stats s)
  | Sweep => state_of (_cleanup_expired c.1 s)
  end.

(** The exception a call raises, if any. *)
Definition failure (s : self) (c : Z * call) : option exn :=
  match c.2 with
  | Put k v ttl => raised (put c.1 k v ttl s)
  | Get k => raised (get PyNone c.1 k s)
  | Delete k => raised (delete k s)
  | Clear => raised (clear s)
  | GetStats => raised (get_stats s)
  | Sweep => raised (_cleanup_expired c.1 s)
  end.

Definition run (s : self) (cs : list (Z * call)) : self :=
  fold_left step cs s.

(** The number of [Get] calls in a history. *)
Definition is_get (c : Z * call) : bool :=
  match c.2 with Get _ => true | _ => false end.
Definition count_gets (cs : list (Z * call)) : Z :=
  Z.of_nat (length (filter (λ c, is_get c = true) cs)).

(** *** Views of the object store *)

Definition nxt (h : list node) (a : addr) : option addr :=
  h !! a ≫= CacheNode.next.
Definition prv (h : list node) (a : addr) : option addr :=
  h !! a ≫= CacheNode.prev.
Definition payload (h : list node) (a : addr) : option (string * Any * Z) :=
  (λ n, (CacheNode.key n, CacheNode.value n, CacheNode.expiry n)) <$> h !! a.
Definition keyof (h : list node) (a : addr) : option string :=
  CacheNode.key <$> h !! a.

(** Following one pointer field from [r] until [stop]: the nodes passed,
    in order. *)
Fixpoint walk (N : addr → option addr) (fuel : nat) (r : option addr) (stop : addr)
  : option (list addr) :=
  match fuel with
  | O => None
  | S fuel' =>
      match r with
      | None => None
      | Some a =>
          if decide (a = stop) then Some []
          else (a ::.) <$> walk N fuel' (N a) stop
      end
  end.

(** The recency sequence, most recently used first: the nodes met from
    [head.next] along [next] up to the sentinel [tail]. *)
Definition recency (s : self) : option (list addr) :=
  walk (nxt (objects s)) (length (objects s)) (nxt (objects s) (head s)) (tail s).

(** The same sequence read from [tail.prev] along [prev] up to [head]:
    least recently used first. *)
Definition recency_back (s : self) : option (list addr) :=
  walk (prv (objects s)) (length (objects s)) (prv (objects s) (tail s)) (head s).

(** The nodes the lookup index refers to. *)
Definition indexed (s : self) : list addr := (map_to_list (cache s)).*2.

Definition current_size (s : self) : Z := Z.of_nat (size (cache s)).

End histories.

(** ** The vocabulary of the specification *)

(** [chain N a l b]: following the pointer field [N] from [a] passes
    exactly the nodes of [l], in order, and then reaches [b]. *)
Fixpoint chain (N : addr → option addr) (a : addr) (l : list addr) (b : addr) : Prop :=
  match l with
  | [] => N a = Some b
  | x :: l' => N a = Some x ∧ chain N x l' b
  end.

(** The last node of [a :: l]. *)
Fixpoint final (a : addr) (l : list addr) : addr :=
  match l with
  | [] => a
  | x :: l' => final x l'
  end.

(** The first node of [l ++ [b]]. *)
Definition first (l : list addr) (b : addr) : addr :=
  match l with
  | [] => b
  | x :: _ => x
  end.

(** Whether the sum of a Put raises: the [ttl], or without one the engine's
    [default_ttl], is too large for a float. *)
Definition put_overflows (ttl dt : option Z) : bool :=
  match ttl with
  | Some t => negb (fits_float t)
  | None => match dt with
            | Some d => negb (fits_float d)
            | None => false
            end
  end.

(** The expiry of a Put at the clock reading [now], as an exact sum: from
    the [ttl], else from the engine's [default_ttl], else [0]. *)
Definition put_expiry (now : Z) (ttl dt : option Z) : Z :=
  match ttl with
  | Some t => now + t
  | None => match dt with
            | Some d => now + d
            | None => 0
            end
  end.

(** The float sum [now + d] is exact: the clock reading, the duration and
    their sum are integers that a float holds. *)
Definition exact_sum (now d : Z) : Prop :=
  Z.abs now ≤ 2 ^ 53 ∧ Z.abs d ≤ 2 ^ 53 ∧ Z.abs (now + d) ≤ 2 ^ 53.

(** The sum of a Put, if it makes one, is exact. *)
Definition exact_put (now : Z) (ttl dt : option Z) : Prop :=
  match ttl with
  | Some t => exact_sum now t
  | None => match dt with
            | Some d => exact_sum now d
            | None => True
            end
  end.

Section specification.
Context {Any : Type} (PyNone : Any).

Local Abbreviation node := (CacheNode.t Any).
Local Abbreviation self := (ThreadSafeCache.t Any).

Implicit Types (h : list node) (s : self) (l : list addr).

(** [relinked h h' N P]: the store [h'] has the objects of [h] with the
    same key, value and expiry, and its pointer fields read [N] and [P]. *)
Definition relinked h h' (N P : addr → option addr) : Prop :=
  length h' = length h ∧
  (∀ c, payload h' c = payload h c) ∧
  (∀ c, nxt h' c = N c) ∧
  (∀ c, prv h' c = P c).

(** The list between the sentinels [hd] and [tl] is [l]: both pointer
    fields agree on it, and it has no node twice. *)
Record Linked (hd tl : addr) h l : Prop := {
  linked_nodup : NoDup (hd :: l ++ [tl]);
  linked_valid : ∀ a, a ∈ hd :: l ++ [tl] → is_Some (h !! a);
  linked_next : chain (nxt h) hd l tl;
  linked_prev : chain (prv h) tl (rev l) hd
}.

(** The dictionary [c] maps each key to the node of [l] that carries
    it, and to nothing else. *)
Record Indexed (c : gmap string addr) h l : Prop := {
  indexed_iff : ∀ k a, c !! k = Some a ↔ a ∈ l ∧ keyof h a = Some k;
  indexed_size : size c = length l
}.

Definition Inv s l : Prop :=
  Linked (head s) (tail s) (objects s) l ∧ Indexed (cache s) (objects s) l.

Definition same_payload h h' : Prop := ∀ c, payload h' c = payload h c.

(** The fields no method assigns after construction. *)
Definition same_config s s' : Prop :=
  max_size s' = max_size s ∧ default_ttl s' = default_ttl s ∧
  head s' = head s ∧ tail s' = tail s ∧
  cleanup_interval s' = cleanup_interval s ∧ running s' = running s.

(** How one call moves the two request counters. *)
Definition requests_effect (c : @call Any) s s' : Prop :=
  match c with
  | Get _ => (hits s' = hits s + 1 ∧ misses s' = misses s)
             ∨ (hits s' = hits s ∧ misses s' = misses s + 1)
  | _ => hits s' = hits s ∧ misses s' = misses s
  end.

Definition invalid_key (key : option string) : Prop :=
  key = None ∨ key = Some EmptyString.

(** What holds of every state of an engine built with [max_size = ms] and
    [default_ttl = dt]. *)
Record Good (ms : Z) (dt : option Z) s : Prop := {
  good_inv : ∃ l, Inv s l;
  good_max_size : max_size s = ms;
  good_default_ttl : default_ttl s = dt;
  good_cleanup_interval : cleanup_interval s = 60;
  good_bound : 0 ≤ ms → current_size s ≤ ms
}.

Definition consistent s : Prop :=
  ∃ l, recency s = Some l ∧
       recency_back s = Some (rev l) ∧
       NoDup l ∧
       (head s ∉ l) ∧ (tail s ∉ l) ∧
       length l = size (cache s) ∧
       NoDup (indexed s) ∧
       (∀ a, a ∈ l ↔ a ∈ indexed s).

(** The dictionary [get_stats] builds. *)
Definition stats_of s : CacheStats.t :=
  {| CacheStats.hits := hits s;
     CacheStats.misses := misses s;
     CacheStats.hit_rate :=
       if decide (hits s + misses s > 0)
       then Qdiv (inject_Z (hits s)) (inject_Z (hits s + misses s))
       else 0%Q;
     CacheStats.total_requests := hits s + misses s;
     CacheStats.current_size := Z.of_nat (size (cache s));
     CacheStats.evictions := evictions s;
     CacheStats.expired_removals := expired_removals s |}.

(** The Puts of a history make exact sums. *)
Definition exact_call (dt : option Z) (c : Z * @call Any) : Prop :=
  match c.2 with
  | Put _ _ ttl => exact_put c.1 ttl dt
  | _ => True
  end.

(** C6 as the specification has it, for a call [c] made in the state [s]:
    if the call fails, it is a Put with an empty or absent key, and it
    fails with [ValueError]. *)
Definition fails_only_on_invalid_key s (c : Z * @call Any) : Prop :=
  ∀ e, failure PyNone s c = Some e →
       e = ValueError ∧ ∃ key v ttl, c.2 = Put key v ttl ∧ invalid_key key.

(** C5 as the specification has it, for a node [n] at the clock reading
    [now]: expired exactly when an expiry is set (the field is not the
    sentinel [0]) and [now > expiresAt]. *)
Definition expired_when_set_and_past (n : node) (now : Z) : Prop :=
  _is_expired now n = true ↔ CacheNode.expiry n ≠ 0 ∧ now > CacheNode.expiry n.

(** C9 as the specification has it: [cleanup_interval] is an option of
    the construction interface, so any interval [ci] can be asked for. *)
Definition accepts_cleanup_interval (ci : Z) : Prop :=
  ∃ max_size default_ttl,
    cleanup_interval (create_cache_kw PyNone max_size default_ttl) = ci.

End specification.

(** ** The engine seen as a list of entries *)

Section entries.
Context {Any : Type}.

Local Abbreviation node := (CacheNode.t Any).
Local Abbreviation self := (ThreadSafeCache.t Any).
Local Abbreviation entry := (string * Any * Z)%type.

Definition entry_key (e : entry) : string := e.1.1.
Definition entry_value (e : entry) : Any := e.1.2.
Definition entry_expiry (e : entry) : Z := e.2.

(** Key, value and expiry of the nodes of [l], in the order of [l]. *)
Definition entries_of (h : list node) (l : list addr) : list entry :=
  omap (payload h) l.

(** The entries of the engine, most recently used first: what the walk
    from [head.next] to [tail] reads. *)
Definition entries (s : self) : list entry :=
  default [] (entries_of (objects s) <$> recency s).

Definition keys (s : self) : list string := entry_key <$> entries s.

(** The entries other than the one of key [k]. *)
Definition without (k : string) (es : list entry) : list entry :=
  filter (λ e, entry_key e ≠ k) es.

(** The entry of key [k], if there is one. *)
Definition find_entry (k : string) (es : list entry) : option entry :=
  hd_error (filter (λ e, entry_key e = k) es).

(** The test of [_is_expired] and of [_cleanup_expired], on an entry. *)
Definition entry_expired (now : Z) (e : entry) : bool :=
  bool_decide (entry_expiry e > 0) && bool_decide (now > entry_expiry e).

(** The entries a Put leaves: an entry whose key is there replaces the old
    one and comes first; a new entry comes first and, when that makes more
    than [ms] entries, the last one goes. *)
Definition put_entries (ms : Z) (e : entry) (es : list entry) : list entry :=
  if decide (entry_key e ∈ entry_key <$> es) then e :: without (entry_key e) es
  else if decide (Z.of_nat (length es) + 1 > ms) then removelast (e :: es)
  else e :: es.

(** The evictions a Put of [e] makes on the entries [es]. *)
Definition put_evicts (ms : Z) (e : entry) (es : list entry) : Z :=
  if decide (entry_key e ∈ entry_key <$> es) then 0
  else if decide (Z.of_nat (length es) + 1 > ms) then 1
  else 0.

(** One call on the list of entries: what [step] does, told on the list.
    [ms] and [dt] are the engine's [max_size] and [default_ttl].  A Put
    that raises leaves the entries as they are. *)
Definition model_step (ms : Z) (dt : option Z) (es : list entry)
    (c : Z * @call Any) : list entry :=
  match c.2 with
  | Put None _ _ => es
  | Put (Some k) v ttl =>
      if decide (k = EmptyString) then es
      else if put_overflows ttl dt then es
      else put_entries ms (k, v, put_expiry c.1 ttl dt) es
  | Get k =>
      match find_entry k es with
      | None => es
      | Some e => if entry_expired c.1 e then without k es else e :: without k es
      end
  | Delete k => without k es
  | Clear => []
  | GetStats => es
  | Sweep => filter (λ e, entry_expired c.1 e = false) es
  end.

(** A Put given as the clock reading, the key, the value and the [ttl];
    the call it is, and the entry it stores. *)
Definition put_call (p : Z * string * Any * option Z) : Z * @call Any :=
  (p.1.1.1, Put (Some p.1.1.2) p.1.2 p.2).
Definition put_entry (dt : option Z) (p : Z * string * Any * option Z) : entry :=
  (p.1.1.2, p.1.2, put_expiry p.1.1.1 p.2 dt).

(** What holds of the entries and counters of every state of an engine
    built with [max_size = ms]. *)
Record Tidy (ms : Z) (s : self) : Prop := {
  tidy_keys : ∀ k, k ∈ keys s → k ≠ EmptyString;
  tidy_length : (length (entries s) ≤ Z.to_nat ms)%nat;
  tidy_hits : 0 ≤ hits s;
  tidy_misses : 0 ≤ misses s;
  tidy_evictions : 0 ≤ evictions s;
  tidy_expired_removals : 0 ≤ expired_removals s
}.

End entries.

(** ** Concrete engines *)

(** Python values for the examples: [None], strings and integers. *)
Inductive PyValue := PyNoneValue | PyStr (s : string) | PyInt (z : Z).

(** [test_statistics]: one Put, two hits and a miss. *)
Definition statistics_history : list (Z * @call PyValue) :=
  [(100, Put (Some "key1") (PyStr "value1") None);
   (101, Get "key1");
   (102, Get "key1");
   (103, Get "missing")].

(** [test_lru_eviction]: ten keys fill an engine of capacity 10, all are
    read, [key0], [key1], [key2] are read again, and [new_key] is put. *)
Definition test_keys : list string :=
  ["key0"; "key1"; "key2"; "key3"; "key4"; "key5"; "key6"; "key7"; "key8"; "key9"].
Definition lru_eviction_history : list (Z * @call PyValue) :=
  ((λ k, (100, Put (Some k) (PyStr k) None)) <$> test_keys)
  ++ ((λ k, (101, Get k)) <$> test_keys)
  ++ ((λ k, (102, Get k)) <$> ["key0"; "key1"; "key2"])
  ++ [(103, Put (Some "new_key") (PyStr "new_value") None)].

(** An engine of capacity 2 holding ["a"] and ["b"], ["a"] touched last. *)
Definition two_keys_history : list (Z * @call PyValue) :=
  [(100, Put (Some "a") (PyStr "va") None);
   (101, Put (Some "b") (PyStr "vb") (Some 5));
   (102, Get "a")].

(** [test_statistics], the part on evictions: five Puts into an engine of
    capacity 3. *)
Definition eviction_puts : list (Z * string * PyValue * option Z) :=
  [(100, "key0", PyStr "value0", None);
   (101, "key1", PyStr "value1", None);
   (102, "key2", PyStr "value2", None);
   (103, "key3", PyStr "value3", None);
   (104, "key4", PyStr "value4", None)].

(** ** Chains of pointers *)

Section chains.

Lemma final_snoc a l x : final a (l ++ [x]) = x.
Proof. revert a. induction l as [|y l IH]; intros a; simpl; auto. Qed.

Lemma final_in a l : final a l ∈ a :: l.
Proof.
  revert a. induction l as [|x l IH]; intros a; simpl.
  - apply list_elem_of_here.
  - apply list_elem_of_further, IH.
Qed.

Lemma final_rev a l : final a (rev l) = first l a.
Proof.
  destruct l as [|x l]; simpl; [done|]. by rewrite final_snoc.
Qed.

Lemma first_rev a l : first (rev l) a = final a l.
Proof.
  revert a. induction l as [|x l IH]; intros a; simpl; [done|].
  rewrite <- (IH x). by destruct (rev l).
Qed.

Lemma chain_first N a l b : chain N a l b → N a = Some (first l b).
Proof. destruct l; simpl; tauto. Qed.

Lemma chain_app N a l1 x l2 b :
  chain N a (l1 ++ x :: l2) b ↔ chain N a l1 x ∧ chain N x l2 b.
Proof.
  revert a. induction l1 as [|y l1 IH]; intros a; simpl; [done|].
  rewrite IH. tauto.
Qed.

(** A chain only reads the field at its sources [a :: l]. *)
Lemma chain_frame N N' a l b :
  (∀ c, c ∈ a :: l → N' c = N c) → chain N a l b → chain N' a l b.
Proof.
  revert a. induction l as [|x l IH]; intros a HN; simpl.
  - intros <-. apply HN, list_elem_of_here.
  - intros [Ha Hl]. split.
    + rewrite <- Ha. apply HN, list_elem_of_here.
    + apply IH; [|done]. intros c Hc. by apply HN, list_elem_of_further.
Qed.

(** Redirecting the last pointer of a chain. *)
Lemma chain_retarget N N' a l b q :
  NoDup (a :: l) →
  chain N a l b →
  N' (final a l) = Some q →
  (∀ c, c ≠ final a l → N' c = N c) →
  chain N' a l q.
Proof.
  revert a. induction l as [|x l IH]; intros a Hnd; simpl.
  - intros _ Hq _. done.
  - intros [Ha Hl] Hq Hoth.
    apply NoDup_cons in Hnd as [Hal Hnd]. split.
    + rewrite <- Ha. apply Hoth. intros ->. apply Hal, final_in.
    + by apply IH.
Qed.

(** Unlinking [x]: its predecessor now points to its successor. *)
Lemma chain_remove N N' a l1 x l2 b :
  NoDup (a :: l1 ++ x :: l2) →
  chain N a (l1 ++ x :: l2) b →
  N' (final a l1) = Some (first l2 b) →
  (∀ c, c ≠ final a l1 → N' c = N c) →
  chain N' a (l1 ++ l2) b.
Proof.
  intros Hnd Hch Hp Hoth.
  apply chain_app in Hch as [H1 H2].
  assert (NoDup (a :: l1)) as Hnd1.
  { change (a :: l1 ++ x :: l2) with ((a :: l1) ++ x :: l2) in Hnd.
    by apply NoDup_app in Hnd as [? _]. }
  assert (∀ c, c ∈ x :: l2 → c ≠ final a l1) as Hsep.
  { intros c Hc ->.
    change (a :: l1 ++ x :: l2) with ((a :: l1) ++ x :: l2) in Hnd.
    apply NoDup_app in Hnd as (_ & Hd & _).
    by apply (Hd (final a l1)); [apply final_in|]. }
  destruct l2 as [|q l2]; simpl in *.
  - rewrite app_nil_r. by eapply chain_retarget.
  - destruct H2 as [Hx H2]. apply chain_app. split.
    + by eapply chain_retarget.
    + eapply chain_frame; [|done]. intros c Hc. apply Hoth, Hsep.
      by apply list_elem_of_further.
Qed.

(** Linking a node [x] right after [a]. *)
Lemma chain_cons N N' a l b x :
  NoDup (a :: l) →
  x ∉ a :: l →
  chain N a l b →
  N' x = N a →
  N' a = Some x →
  (∀ c, c ≠ x → c ≠ a → N' c = N c) →
  chain N' a (x :: l) b.
Proof.
  intros Hnd Hx Hch Hnx Hna Hoth. simpl. split; [done|].
  destruct l as [|y l]; simpl in *.
  - by rewrite Hnx.
  - destruct Hch as [Ha Hl]. split; [by rewrite Hnx|].
    eapply chain_frame; [|done]. intros c Hc. apply Hoth.
    + intros ->. apply Hx. by apply list_elem_of_further.
    + intros ->. by apply NoDup_cons in Hnd as [? _].
Qed.

(** Linking a node [x] right before [b]. *)
Lemma chain_snoc N N' a l b x :
  NoDup (a :: l) →
  x ∉ a :: l →
  chain N a l b →
  N' x = Some b →
  N' (final a l) = Some x →
  (∀ c, c ≠ x → c ≠ final a l → N' c = N c) →
  chain N' a (l ++ [x]) b.
Proof.
  revert a. induction l as [|y l IH]; intros a Hnd Hx Hch Hnx Hnf Hoth; simpl in *.
  - done.
  - destruct Hch as [Ha Hl]. apply NoDup_cons in Hnd as [Hay Hnd]. split.
    + rewrite <- Ha. apply Hoth.
      * intros ->. apply Hx, list_elem_of_here.
      * intros ->. apply Hay, final_in.
    + apply IH; try done. intros ?. by apply Hx, list_elem_of_further.
Qed.

(** A chain between distinct nodes is what [walk] reads. *)
Lemma walk_chain N a l b fuel :
  chain N a l b → b ∉ l → (length l < fuel)%nat →
  walk N fuel (N a) b = Some l.
Proof.
  revert a fuel. induction l as [|x l IH]; intros a fuel; simpl.
  - intros -> _ Hf. destruct fuel; [lia|]. simpl. by rewrite decide_True.
  - intros [-> Hl] Hb Hf. destruct fuel; [lia|]. simpl.
    rewrite decide_False.
    + rewrite IH; [done|done| |lia].
      intros ?. apply Hb. by apply list_elem_of_further.
    + intros ->. apply Hb, list_elem_of_here.
Qed.

End chains.

Lemma elem_of_rev {A} (a : A) (l : list A) : a ∈ rev l ↔ a ∈ l.
Proof. rewrite !list_elem_of_In. symmetry. apply in_rev. Qed.

(** Goals about lists without repetition, by unfolding [NoDup] over [::]
    and [++]. *)
Ltac nodup :=
  rewrite <- ?Permutation_rev in *;
  repeat (progress rewrite ?NoDup_cons, ?NoDup_app, ?NoDup_nil, ?elem_of_rev in * );
  set_unfold; naive_solver.

(** ** Attribute writes on the object store *)

Section store.
Context {Any : Type}.

Local Abbreviation node := (CacheNode.t Any).
Local Abbreviation self := (ThreadSafeCache.t Any).

Implicit Types (h : list node) (s : self) (a c : addr).

Lemma nxt_with_next h a n v c :
  h !! a = Some n →
  nxt (<[a := CacheNode.with_next v n]> h) c = if decide (c = a) then v else nxt h c.
Proof.
  intros Ha. unfold nxt. case_decide as E.
  - subst c. rewrite list_lookup_insert_eq; [done|]. by eapply lookup_lt_Some.
  - by rewrite list_lookup_insert_ne.
Qed.

Lemma prv_with_prev h a n v c :
  h !! a = Some n →
  prv (<[a := CacheNode.with_prev v n]> h) c = if decide (c = a) then v else prv h c.
Proof.
  intros Ha. unfold prv. case_decide as E.
  - subst c. rewrite list_lookup_insert_eq; [done|]. by eapply lookup_lt_Some.
  - by rewrite list_lookup_insert_ne.
Qed.

(** A write that keeps a projection of the written node keeps that
    projection of the whole store. *)
Lemma view_insert {B} (g : node → B) h a n n' c :
  h !! a = Some n → g n' = g n →
  g <$> (<[a := n']> h) !! c = g <$> h !! c.
Proof.
  intros Ha Hg. destruct (decide (c = a)) as [->|E].
  - rewrite list_lookup_insert_eq; [|by eapply lookup_lt_Some].
    rewrite Ha. simpl. by rewrite Hg.
  - by rewrite list_lookup_insert_ne.
Qed.

Lemma view_insert_bind {B} (g : node → option B) h a n n' c :
  h !! a = Some n → g n' = g n →
  (<[a := n']> h) !! c ≫= g = h !! c ≫= g.
Proof.
  intros Ha Hg. destruct (decide (c = a)) as [->|E].
  - rewrite list_lookup_insert_eq; [|by eapply lookup_lt_Some].
    rewrite Ha. simpl. by rewrite Hg.
  - by rewrite list_lookup_insert_ne.
Qed.

Lemma prv_with_next h a n v c :
  h !! a = Some n → prv (<[a := CacheNode.with_next v n]> h) c = prv h c.
Proof. intros. by eapply view_insert_bind. Qed.

Lemma nxt_with_prev h a n v c :
  h !! a = Some n → nxt (<[a := CacheNode.with_prev v n]> h) c = nxt h c.
Proof. intros. by eapply view_insert_bind. Qed.

Lemma payload_with_next h a n v c :
  h !! a = Some n → payload (<[a := CacheNode.with_next v n]> h) c = payload h c.
Proof. intros. by eapply view_insert. Qed.

Lemma payload_with_prev h a n v c :
  h !! a = Some n → payload (<[a := CacheNode.with_prev v n]> h) c = payload h c.
Proof. intros. by eapply view_insert. Qed.

Lemma keyof_payload h a : keyof h a = (λ p, p.1.1) <$> payload h a.
Proof. unfold keyof, payload. by destruct (h !! a). Qed.

Lemma bind_returns {S A B} (m : M S A) (k : A → M S B) (s : S) (a : A) (s' : S) :
  m s = Returns a s' → bind m k s = k a s'.
Proof. unfold bind. by intros ->. Qed.

Lemma load_returns s a n :
  objects s !! a = Some n → load (Some a) s = Returns n s.
Proof. unfold load. by intros ->. Qed.

Lemma setattr_returns s a n f :
  objects s !! a = Some n →
  setattr (Some a) f s = Returns tt (with_objects (<[a := f n]> (objects s)) s).
Proof. intros Ha. unfold setattr, bind, load. by rewrite Ha. Qed.

Lemma _remove_node_returns s x p q :
  nxt (objects s) x = Some q →
  prv (objects s) x = Some p →
  is_Some (objects s !! p) →
  is_Some (objects s !! q) →
  ∃ h', _remove_node x s = Returns tt (with_objects h' s) ∧
        relinked (objects s) h'
          (λ c, if decide (c = p) then Some q else nxt (objects s) c)
          (λ c, if decide (c = q) then Some p else prv (objects s) c).
Proof.
  intros Hq Hp [np Hnp] [nq Hnq].
  destruct (objects s !! x) as [n|] eqn:Hx; [|by unfold nxt in Hq; rewrite Hx in Hq].
  assert (CacheNode.next n = Some q) as Hnq'
    by (unfold nxt in Hq; by rewrite Hx in Hq).
  assert (CacheNode.prev n = Some p) as Hnp'
    by (unfold prv in Hp; by rewrite Hx in Hp).
  set (h1 := <[p := CacheNode.with_next (Some q) np]> (objects s)).
  assert (∃ n1, h1 !! x = Some n1 ∧ CacheNode.next n1 = Some q
                ∧ CacheNode.prev n1 = Some p) as (n1 & Hx1 & Hn1q & Hn1p).
  { unfold h1. destruct (decide (x = p)) as [->|E].
    - rewrite list_lookup_insert_eq; [|by eapply lookup_lt_Some].
      eexists; split; [done|]. simpl. rewrite Hx in Hnp. by simplify_eq.
    - rewrite list_lookup_insert_ne by done. eauto. }
  assert (∃ nq1, h1 !! q = Some nq1) as [nq1 Hq1].
  { apply lookup_lt_is_Some. unfold h1. rewrite length_insert.
    by eapply lookup_lt_Some. }
  exists (<[q := CacheNode.with_prev (Some p) nq1]> h1). split.
  - unfold _remove_node.
    erewrite bind_returns; [|by apply load_returns].
    rewrite Hnp', Hnq'.
    erewrite bind_returns; [|by apply setattr_returns].
    erewrite bind_returns; [|by apply load_returns].
    rewrite Hn1q, Hn1p.
    by erewrite setattr_returns.
  - split; [|split; [|split]].
    + unfold h1. by rewrite !length_insert.
    + intros c. rewrite payload_with_prev by done. by apply payload_with_next.
    + intros c. rewrite nxt_with_prev by done. by apply nxt_with_next.
    + intros c. rewrite prv_with_prev by done. case_decide; [done|].
      by apply prv_with_next.
Qed.

Lemma nxt_lookup h a q :
  nxt h a = Some q → ∃ n, h !! a = Some n ∧ CacheNode.next n = Some q.
Proof. unfold nxt. destruct (h !! a) as [n|]; [|done]. eauto. Qed.

Lemma prv_lookup h a p :
  prv h a = Some p → ∃ n, h !! a = Some n ∧ CacheNode.prev n = Some p.
Proof. unfold prv. destruct (h !! a) as [n|]; [|done]. eauto. Qed.

Lemma set_next_returns s a v :
  is_Some (objects s !! a) →
  ∃ h', setattr (Some a) (CacheNode.with_next v) s = Returns tt (with_objects h' s) ∧
        relinked (objects s) h'
          (λ c, if decide (c = a) then v else nxt (objects s) c)
          (prv (objects s)).
Proof.
  intros [n Hn]. eexists. split; [by apply setattr_returns|].
  split; [|split; [|split]]; intros.
  - by rewrite length_insert.
  - by apply payload_with_next.
  - by apply nxt_with_next.
  - by apply prv_with_next.
Qed.

Lemma set_prev_returns s a v :
  is_Some (objects s !! a) →
  ∃ h', setattr (Some a) (CacheNode.with_prev v) s = Returns tt (with_objects h' s) ∧
        relinked (objects s) h'
          (nxt (objects s))
          (λ c, if decide (c = a) then v else prv (objects s) c).
Proof.
  intros [n Hn]. eexists. split; [by apply setattr_returns|].
  split; [|split; [|split]]; intros.
  - by rewrite length_insert.
  - by apply payload_with_prev.
  - by apply nxt_with_prev.
  - by apply prv_with_prev.
Qed.

Lemma relinked_is_Some h h' N P a :
  relinked h h' N P → is_Some (h !! a) → is_Some (h' !! a).
Proof.
  intros (Hlen & _) Ha. apply lookup_lt_is_Some. rewrite Hlen.
  by apply lookup_lt_is_Some.
Qed.

Lemma _add_to_front_returns s nd q :
  nxt (objects s) (head s) = Some q →
  is_Some (objects s !! q) →
  is_Some (objects s !! nd) →
  ∃ h', _add_to_front nd s = Returns tt (with_objects h' s) ∧
        relinked (objects s) h'
          (λ c, if decide (c = head s) then Some nd
                else if decide (c = nd) then Some q
                else nxt (objects s) c)
          (λ c, if decide (c = q) then Some nd
                else if decide (c = nd) then Some (head s)
                else prv (objects s) c).
Proof.
  intros Hq Hvq Hvn.
  destruct (nxt_lookup _ _ _ Hq) as (n0 & Hhd & Hn0).
  destruct (set_next_returns s nd (Some q) Hvn) as (h1 & E1 & R1).
  destruct (set_prev_returns (with_objects h1 s) nd (Some (head s)))
    as (h2 & E2 & R2); [by eapply relinked_is_Some|].
  simpl in E2, R2.
  assert (nxt h2 (head s) = Some q) as Hq2.
  { destruct R2 as (_ & _ & -> & _). destruct R1 as (_ & _ & -> & _).
    by case_decide. }
  destruct (nxt_lookup _ _ _ Hq2) as (n2 & Hhd2 & Hn2).
  destruct (set_prev_returns (with_objects h2 s) q (Some nd))
    as (h3 & E3 & R3).
  { simpl. eapply relinked_is_Some; [done|]. by eapply relinked_is_Some. }
  simpl in E3, R3.
  destruct (set_next_returns (with_objects h3 s) (head s) (Some nd))
    as (h4 & E4 & R4).
  { simpl. eapply relinked_is_Some; [done|]. by rewrite Hhd2. }
  simpl in E4, R4.
  exists h4. split.
  - unfold _add_to_front.
    erewrite bind_returns; [|done].
    erewrite bind_returns; [|by apply load_returns].
    rewrite Hn0.
    erewrite bind_returns; [|done].
    erewrite bind_returns; [|done].
    erewrite bind_returns; [|by apply load_returns].
    rewrite Hn2.
    erewrite bind_returns; [|done].
    done.
  - destruct R1 as (L1 & D1 & N1 & P1), R2 as (L2 & D2 & N2 & P2),
      R3 as (L3 & D3 & N3 & P3), R4 as (L4 & D4 & N4 & P4).
    split; [|split; [|split]]; intros.
    + congruence.
    + by rewrite D4, D3, D2, D1.
    + rewrite N4. case_decide; [done|]. by rewrite N3, N2, N1.
    + rewrite P4, P3. case_decide; [done|]. by rewrite P2, P1.
Qed.

End store.

(** ** The representation invariant *)

Section invariant.
Context {Any : Type}.

Local Abbreviation node := (CacheNode.t Any).
Local Abbreviation self := (ThreadSafeCache.t Any).

Implicit Types (h : list node) (s : self) (a c x : addr) (l : list addr).

Lemma first_in l b : first l b ∈ l ++ [b].
Proof. destruct l; simpl; apply list_elem_of_here. Qed.

Lemma NoDup_bounded_length (l : list nat) (n : nat) :
  NoDup l → (∀ a, a ∈ l → (a < n)%nat) → (length l ≤ n)%nat.
Proof.
  intros Hnd Hlt. transitivity (length (seq 0 n)); [|by rewrite length_seq].
  apply submseteq_length, NoDup_submseteq; [done|].
  intros a Ha. apply elem_of_seq. specialize (Hlt a Ha). lia.
Qed.

Lemma Linked_room hd tl h l : Linked hd tl h l → (length l + 2 ≤ length h)%nat.
Proof.
  intros [Hnd Hv _ _].
  pose proof (NoDup_bounded_length _ (length h) Hnd) as H.
  simpl in H. rewrite length_app in H. simpl in H.
  assert (S (length l + 1) ≤ length h)%nat; [|lia].
  apply H. intros a Ha. apply lookup_lt_is_Some. by apply Hv.
Qed.

Lemma Linked_neq hd tl h l : Linked hd tl h l → hd ≠ tl.
Proof.
  intros [Hnd _ _ _] ->. apply NoDup_cons in Hnd as [Hin _].
  apply Hin. apply elem_of_app. right. apply list_elem_of_here.
Qed.

Lemma Linked_recency s l :
  Linked (head s) (tail s) (objects s) l → recency s = Some l.
Proof.
  intros HL. unfold recency. apply walk_chain.
  - by destruct HL.
  - destruct HL as [Hnd _ _ _]. apply NoDup_cons in Hnd as [_ Hnd].
    apply NoDup_app in Hnd as (_ & Hd & _). intros Hin.
    by apply (Hd _ Hin), list_elem_of_here.
  - apply Linked_room in HL. lia.
Qed.

Lemma Linked_recency_back s l :
  Linked (head s) (tail s) (objects s) l → recency_back s = Some (rev l).
Proof.
  intros HL. unfold recency_back. apply walk_chain.
  - by destruct HL.
  - destruct HL as [Hnd _ _ _]. apply NoDup_cons in Hnd as [Hin _].
    intros Hr. apply Hin, elem_of_app. left. by apply elem_of_rev.
  - apply Linked_room in HL. rewrite length_rev. lia.
Qed.

Lemma Linked_unlink hd tl h h' l1 x l2 :
  Linked hd tl h (l1 ++ x :: l2) →
  relinked h h'
    (λ c, if decide (c = final hd l1) then Some (first l2 tl) else nxt h c)
    (λ c, if decide (c = first l2 tl) then Some (final hd l1) else prv h c) →
  Linked hd tl h' (l1 ++ l2).
Proof.
  intros [Hnd Hv Hn Hp] (Hlen & _ & HN & HP).
  assert (NoDup (hd :: l1 ++ x :: l2) ∧ NoDup (tl :: rev l2 ++ x :: rev l1))
    as [Hnd1 Hnd2].
  { clear -Hnd. split; nodup. }
  split.
  - clear -Hnd. nodup.
  - intros a Ha. apply lookup_lt_is_Some. rewrite Hlen.
    apply lookup_lt_is_Some, Hv. clear -Ha. set_solver.
  - eapply chain_remove; [done|done|by rewrite HN, decide_True|].
    intros c Hc. by rewrite HN, decide_False.
  - rewrite rev_app_distr. rewrite rev_app_distr in Hp. simpl in Hp.
    rewrite <- app_assoc in Hp. simpl in Hp.
    eapply chain_remove; [done|done| |].
    + rewrite HP, final_rev, first_rev. by rewrite decide_True.
    + intros c Hc. rewrite final_rev in Hc. by rewrite HP, decide_False.
Qed.

(** What [_remove_node] reads at a node of the list. *)
Lemma Linked_neighbours hd tl h l1 x l2 :
  Linked hd tl h (l1 ++ x :: l2) →
  nxt h x = Some (first l2 tl) ∧ prv h x = Some (final hd l1) ∧
  is_Some (h !! final hd l1) ∧ is_Some (h !! first l2 tl).
Proof.
  intros [Hnd Hv Hn Hp]. split; [|split; [|split]].
  - apply chain_app in Hn as [_ Hn]. by apply chain_first in Hn.
  - rewrite rev_app_distr in Hp. simpl in Hp. rewrite <- app_assoc in Hp.
    apply chain_app in Hp as [_ Hp]. apply chain_first in Hp.
    by rewrite first_rev in Hp.
  - apply Hv. pose proof (final_in hd l1) as Hin. clear -Hin. set_solver.
  - apply Hv. pose proof (first_in l2 tl) as Hin. clear -Hin. set_solver.
Qed.

Lemma Linked_link_front hd tl h h' l x :
  Linked hd tl h l →
  x ∉ hd :: l ++ [tl] →
  is_Some (h !! x) →
  relinked h h'
    (λ c, if decide (c = hd) then Some x
          else if decide (c = x) then Some (first l tl) else nxt h c)
    (λ c, if decide (c = first l tl) then Some x
          else if decide (c = x) then Some hd else prv h c) →
  Linked hd tl h' (x :: l).
Proof.
  intros [Hnd Hv Hn Hp] Hx Hvx (Hlen & _ & HN & HP).
  assert (x ≠ hd) as Hxhd by (intros ->; apply Hx, list_elem_of_here).
  assert (x ≠ first l tl) as Hxq.
  { intros E. apply Hx. rewrite E. apply list_elem_of_further, first_in. }
  split.
  - clear -Hnd Hx. nodup.
  - intros a Ha. apply lookup_lt_is_Some. rewrite Hlen. apply lookup_lt_is_Some.
    assert (a = x ∨ a ∈ hd :: l ++ [tl]) as [->|Ha'] by (clear -Ha; set_solver);
      [done|by apply Hv].
  - eapply chain_cons; [| |exact Hn| | |].
    + clear -Hnd. nodup.
    + clear -Hx. set_solver.
    + rewrite HN. rewrite decide_False, decide_True by done.
      symmetry. by apply chain_first.
    + by rewrite HN, decide_True.
    + intros c ? ?. by rewrite HN, !decide_False.
  - simpl. eapply chain_snoc; [| |exact Hp| | |].
    + clear -Hnd. nodup.
    + clear -Hx. rewrite elem_of_cons, elem_of_rev. set_solver.
    + rewrite HP. by rewrite decide_False, decide_True.
    + rewrite final_rev. by rewrite HP, decide_True.
    + intros c ? Hc. rewrite final_rev in Hc. by rewrite HP, !decide_False.
Qed.

Lemma same_payload_keyof h h' a : same_payload h h' → keyof h' a = keyof h a.
Proof. intros H. by rewrite !keyof_payload, H. Qed.

Lemma same_payload_trans h1 h2 h3 :
  same_payload h1 h2 → same_payload h2 h3 → same_payload h1 h3.
Proof. intros H1 H2 c. by rewrite H2, H1. Qed.

Lemma Indexed_relabel (m : gmap string addr) h h' l l' :
  Indexed m h l → l ≡ₚ l' → (∀ a, a ∈ l → keyof h' a = keyof h a) →
  Indexed m h' l'.
Proof.
  intros [Hiff Hsz] Hp Hk. split.
  - intros k a. rewrite Hiff, <- Hp. split; intros [Ha Hka]; (split; [done|]).
    + by rewrite Hk.
    + by rewrite <- Hk.
  - by rewrite <- Hp.
Qed.

Lemma Indexed_delete (m : gmap string addr) h l1 x l2 k :
  NoDup (l1 ++ x :: l2) →
  Indexed m h (l1 ++ x :: l2) →
  m !! k = Some x →
  Indexed (base.delete k m) h (l1 ++ l2).
Proof.
  intros Hnd [Hiff Hsz] Hkx. split.
  - intros k' a. destruct (decide (k' = k)) as [->|Hne].
    + rewrite lookup_delete_eq. split; [done|]. intros [Ha Hka].
      assert (m !! k = Some a) as Hm.
      { apply Hiff. split; [|done]. clear -Ha. set_solver. }
      assert (a = x) as -> by congruence.
      clear -Hnd Ha. exfalso.
      apply NoDup_app in Hnd as (_ & Hd & Hnd). apply NoDup_cons in Hnd as [Hx _].
      apply elem_of_app in Ha as [Ha|Ha]; [|done].
      apply (Hd _ Ha), list_elem_of_here.
    + rewrite lookup_delete_ne by done. rewrite Hiff. split; intros [Ha Hka].
      * split; [|done]. assert (a ≠ x) as Hax.
        { intros ->. apply Hiff in Hkx as [_ Hkx]. congruence. }
        clear -Ha Hax. set_solver.
      * split; [|done]. clear -Ha. set_solver.
  - rewrite map_size_delete_Some by done. rewrite Hsz, !length_app. simpl. lia.
Qed.

Lemma Indexed_insert (m : gmap string addr) h l x k :
  Indexed m h l →
  m !! k = None →
  x ∉ l →
  keyof h x = Some k →
  Indexed (<[k := x]> m) h (x :: l).
Proof.
  intros [Hiff Hsz] Hk Hx Hkx. split.
  - intros k' a. destruct (decide (k' = k)) as [->|Hne].
    + rewrite lookup_insert_eq. split.
      * intros [= <-]. split; [apply list_elem_of_here|done].
      * intros [Ha Hka]. apply elem_of_cons in Ha as [->|Ha]; [done|].
        assert (m !! k = Some a) as Hm by (by apply Hiff). congruence.
    + rewrite lookup_insert_ne by done. rewrite Hiff. split; intros [Ha Hka].
      * split; [|done]. by apply list_elem_of_further.
      * split; [|done]. apply elem_of_cons in Ha as [->|Ha]; [|done]. congruence.
  - rewrite map_size_insert_None by done. simpl. by rewrite Hsz.
Qed.

(** [_remove_node] on a node of the list. *)
Lemma unlink_returns s l1 x l2 :
  Linked (head s) (tail s) (objects s) (l1 ++ x :: l2) →
  ∃ h', _remove_node x s = Returns tt (with_objects h' s) ∧
        Linked (head s) (tail s) h' (l1 ++ l2) ∧
        same_payload (objects s) h' ∧
        length h' = length (objects s).
Proof.
  intros HL.
  destruct (Linked_neighbours _ _ _ _ _ _ HL) as (Hq & Hp & Hvp & Hvq).
  destruct (_remove_node_returns s x _ _ Hq Hp Hvp Hvq) as (h' & E & R).
  exists h'. split; [done|]. split; [by eapply Linked_unlink|].
  destruct R as (? & ? & _). done.
Qed.

(** [_add_to_front] on a node that is not on the list. *)
Lemma link_front_returns s l x :
  Linked (head s) (tail s) (objects s) l →
  x ∉ head s :: l ++ [tail s] →
  is_Some (objects s !! x) →
  ∃ h', _add_to_front x s = Returns tt (with_objects h' s) ∧
        Linked (head s) (tail s) h' (x :: l) ∧
        same_payload (objects s) h' ∧
        length h' = length (objects s).
Proof.
  intros HL Hx Hvx.
  pose proof (chain_first _ _ _ _ (linked_next _ _ _ _ HL)) as Hq.
  destruct (_add_to_front_returns s x _ Hq) as (h' & E & R); [|done|].
  { apply (linked_valid _ _ _ _ HL). apply list_elem_of_further, first_in. }
  exists h'. split; [done|]. split; [by eapply Linked_link_front|].
  destruct R as (? & ? & _). done.
Qed.

Lemma Linked_not_in hd tl h l1 x l2 :
  Linked hd tl h (l1 ++ x :: l2) → x ∉ hd :: (l1 ++ l2) ++ [tl].
Proof. intros [Hnd _ _ _]. clear -Hnd. nodup. Qed.

Lemma Linked_NoDup hd tl h l : Linked hd tl h l → NoDup l.
Proof. intros [Hnd _ _ _]. clear -Hnd. nodup. Qed.

End invariant.

(** ** What each method does on a state that satisfies the invariant *)

Section method_specs.
Context {Any : Type} (PyNone : Any).

Local Abbreviation node := (CacheNode.t Any).
Local Abbreviation self := (ThreadSafeCache.t Any).

Implicit Types (h : list node) (s : self) (a c x : addr) (l : list addr)
  (k : string) (n : node) (now : Z).

Lemma Inv_split s l k x :
  Inv s l → cache s !! k = Some x →
  ∃ l1 l2, l = l1 ++ x :: l2 ∧ keyof (objects s) x = Some k.
Proof.
  intros [_ [Hiff _]] Hk. apply Hiff in Hk as [Hx Hkx].
  apply list_elem_of_split in Hx as (l1 & l2 & ->). eauto.
Qed.

Lemma Inv_lookup s l k x :
  Inv s l → cache s !! k = Some x → ∃ n, objects s !! x = Some n ∧ CacheNode.key n = k.
Proof.
  intros HI Hk. destruct (Inv_split _ _ _ _ HI Hk) as (_ & _ & _ & Hkx).
  unfold keyof in Hkx. destruct (objects s !! x) as [n|]; [|done].
  exists n. split; [done|]. by injection Hkx.
Qed.

Lemma get_absent_returns s now k :
  cache s !! k = None →
  get PyNone now k s = Returns PyNone (with_misses (misses s + 1) s).
Proof. intros Hk. unfold get, bind, gets. simpl. by rewrite Hk. Qed.

Lemma del_cache_returns s k x :
  cache s !! k = Some x →
  del_cache k s = Returns tt (with_cache (base.delete k (cache s)) s).
Proof. intros Hk. unfold del_cache. by rewrite Hk. Qed.

(** Unlinking the node of [k] and deleting [k] from the dictionary: the
    common part of an expired [get], of [delete], of an eviction and of a
    sweep. *)
Lemma Inv_drop s h' l1 x l2 k :
  Inv s (l1 ++ x :: l2) →
  cache s !! k = Some x →
  Linked (head s) (tail s) h' (l1 ++ l2) →
  same_payload (objects s) h' →
  Inv (with_cache (base.delete k (cache s)) (with_objects h' s)) (l1 ++ l2).
Proof.
  intros [HL HX] Hk HL' Hsp. split; [done|]. simpl.
  eapply Indexed_relabel with (l := l1 ++ l2); [|done|].
  - eapply Indexed_delete; [|done|done]. by eapply Linked_NoDup.
  - intros a _. by apply same_payload_keyof.
Qed.

Lemma get_expired_returns s l now k x n :
  Inv s l →
  cache s !! k = Some x →
  objects s !! x = Some n →
  _is_expired now n = true →
  ∃ l1 l2 h',
    l = l1 ++ x :: l2 ∧
    get PyNone now k s =
      Returns PyNone
        (with_misses (misses s + 1)
           (with_expired_removals (expired_removals s + 1)
              (with_cache (base.delete k (cache s)) (with_objects h' s)))) ∧
    Inv (with_cache (base.delete k (cache s)) (with_objects h' s)) (l1 ++ l2) ∧
    same_payload (objects s) h' ∧
    length h' = length (objects s).
Proof.
  intros HI Hk Hx Hexp.
  destruct (Inv_split _ _ _ _ HI Hk) as (l1 & l2 & -> & Hkx).
  destruct (unlink_returns s l1 x l2 (proj1 HI)) as (h' & E & HL' & Hsp & Hlen).
  exists l1, l2, h'. split; [done|]. split; [|split; [|done]].
  - unfold get.
    erewrite bind_returns; [|done]. simpl. rewrite Hk.
    erewrite bind_returns; [|by apply load_returns].
    rewrite Hexp.
    erewrite bind_returns; [|done].
    erewrite bind_returns; [|by eapply del_cache_returns].
    done.
  - by eapply Inv_drop.
Qed.

(** Moving the node of an indexed key to the front. *)
Lemma Inv_touch s h' l1 x l2 :
  Inv s (l1 ++ x :: l2) →
  Linked (head s) (tail s) h' (x :: l1 ++ l2) →
  (∀ a, a ∈ l1 ++ x :: l2 → keyof h' a = keyof (objects s) a) →
  Inv (with_objects h' s) (x :: l1 ++ l2).
Proof.
  intros [HL HX] HL' Hk. split; [done|]. simpl.
  eapply Indexed_relabel; [done| |done].
  symmetry. apply Permutation_middle.
Qed.

Lemma touch_returns s l1 x l2 :
  Linked (head s) (tail s) (objects s) (l1 ++ x :: l2) →
  ∃ h1 h',
    _remove_node x s = Returns tt (with_objects h1 s) ∧
    _add_to_front x (with_objects h1 s) = Returns tt (with_objects h' s) ∧
    Linked (head s) (tail s) h' (x :: l1 ++ l2) ∧
    same_payload (objects s) h' ∧
    length h' = length (objects s).
Proof.
  intros HL.
  destruct (unlink_returns s l1 x l2 HL) as (h1 & E1 & HL1 & Hsp1 & Hlen1).
  destruct (link_front_returns (with_objects h1 s) (l1 ++ l2) x)
    as (h' & E2 & HL2 & Hsp2 & Hlen2); simpl.
  - done.
  - by eapply Linked_not_in.
  - apply lookup_lt_is_Some. rewrite Hlen1. apply lookup_lt_is_Some.
    apply (linked_valid _ _ _ _ HL). clear. set_solver.
  - exists h1, h'. simpl in *. split; [done|]. split; [done|].
    split; [done|]. split; [by eapply same_payload_trans|congruence].
Qed.

Lemma same_payload_lookup h h' a n :
  same_payload h h' → h !! a = Some n →
  ∃ n', h' !! a = Some n' ∧ CacheNode.key n' = CacheNode.key n
        ∧ CacheNode.value n' = CacheNode.value n
        ∧ CacheNode.expiry n' = CacheNode.expiry n.
Proof.
  intros Hsp Ha. specialize (Hsp a). unfold payload in Hsp. rewrite Ha in Hsp.
  destruct (h' !! a) as [n'|]; [|done]. exists n'. simpl in Hsp.
  split; [done|]. by simplify_eq.
Qed.

Lemma get_live_returns s l now k x n :
  Inv s l →
  cache s !! k = Some x →
  objects s !! x = Some n →
  _is_expired now n = false →
  ∃ l1 l2 h',
    l = l1 ++ x :: l2 ∧
    get PyNone now k s =
      Returns (CacheNode.value n) (with_hits (hits s + 1) (with_objects h' s)) ∧
    Inv (with_objects h' s) (x :: l1 ++ l2) ∧
    same_payload (objects s) h' ∧
    length h' = length (objects s).
Proof.
  intros HI Hk Hx Hexp.
  destruct (Inv_split _ _ _ _ HI Hk) as (l1 & l2 & -> & Hkx).
  destruct (touch_returns s l1 x l2 (proj1 HI)) as (h1 & h' & E1 & E2 & HL' & Hsp & Hlen).
  destruct (same_payload_lookup _ _ _ _ Hsp Hx) as (n' & Hx' & _ & Hv & _).
  exists l1, l2, h'. split; [done|]. split; [|split; [|done]].
  - unfold get.
    erewrite bind_returns; [|done]. simpl. rewrite Hk.
    erewrite bind_returns; [|by apply load_returns].
    rewrite Hexp.
    erewrite bind_returns; [|done].
    erewrite bind_returns; [|done].
    erewrite bind_returns; [|done].
    erewrite bind_returns; [|by apply load_returns].
    by rewrite Hv.
  - apply Inv_touch; [done|done|]. intros a _. by apply same_payload_keyof.
Qed.

Lemma delete_absent_returns s k :
  cache s !! k = None → delete k s = Returns false s.
Proof. intros Hk. unfold delete, bind, gets. by rewrite Hk. Qed.

Lemma delete_present_returns s l k x :
  Inv s l →
  cache s !! k = Some x →
  ∃ l1 l2 h',
    l = l1 ++ x :: l2 ∧
    delete k s =
      Returns true (with_cache (base.delete k (cache s)) (with_objects h' s)) ∧
    Inv (with_cache (base.delete k (cache s)) (with_objects h' s)) (l1 ++ l2) ∧
    same_payload (objects s) h' ∧
    length h' = length (objects s).
Proof.
  intros HI Hk.
  destruct (Inv_split _ _ _ _ HI Hk) as (l1 & l2 & -> & Hkx).
  destruct (unlink_returns s l1 x l2 (proj1 HI)) as (h' & E & HL' & Hsp & Hlen).
  exists l1, l2, h'. split; [done|]. split; [|split; [|done]].
  - unfold delete.
    erewrite bind_returns; [|done]. simpl. rewrite Hk.
    erewrite bind_returns; [|done].
    erewrite bind_returns; [|by eapply del_cache_returns].
    done.
  - by eapply Inv_drop.
Qed.

Lemma clear_returns s l :
  Inv s l →
  ∃ h',
    clear s = Returns tt (with_cache ∅ (with_objects h' s)) ∧
    Inv (with_cache ∅ (with_objects h' s)) [] ∧
    same_payload (objects s) h' ∧
    length h' = length (objects s).
Proof.
  intros [HL HX].
  pose proof (Linked_neq _ _ _ _ HL) as Hne.
  assert (is_Some (objects s !! head s)) as Hvh
    by (apply (linked_valid _ _ _ _ HL); apply list_elem_of_here).
  assert (is_Some (objects s !! tail s)) as Hvt
    by (apply (linked_valid _ _ _ _ HL); clear; set_solver).
  destruct (set_next_returns (with_cache ∅ s) (head s) (Some (tail s)) Hvh)
    as (h1 & E1 & R1). simpl in E1, R1.
  destruct (set_prev_returns (with_objects h1 (with_cache ∅ s)) (tail s) (Some (head s)))
    as (h2 & E2 & R2); [by eapply relinked_is_Some|]. simpl in E2, R2.
  exists h2. split; [|split; [|split]].
  - unfold clear.
    erewrite bind_returns; [|done].
    erewrite bind_returns; [|done].
    erewrite bind_returns; [|done].
    erewrite bind_returns; [|done].
    done.
  - destruct R1 as (L1 & D1 & N1 & P1), R2 as (L2 & D2 & N2 & P2).
    split; simpl.
    + split; simpl.
      * apply NoDup_cons. split; [|apply NoDup_singleton].
        by intros ?%list_elem_of_singleton.
      * intros a Ha. apply lookup_lt_is_Some. rewrite L2, L1.
        apply lookup_lt_is_Some.
        assert (a = head s ∨ a = tail s) as [->| ->] by (clear -Ha; set_solver);
          done.
      * rewrite N2, N1. by rewrite decide_True.
      * rewrite P2. by rewrite decide_True.
    + split; [|done]. intros k a. rewrite lookup_empty. split; [done|].
      intros [Ha _]. by apply elem_of_nil in Ha.
  - destruct R1 as (L1 & D1 & N1 & P1), R2 as (L2 & D2 & N2 & P2).
    intros c. by rewrite D2, D1.
  - destruct R1 as (L1 & _), R2 as (L2 & _). congruence.
Qed.

Lemma put_invalid_raises s now key v ttl :
  key = None ∨ key = Some EmptyString →
  put now key v ttl s = Raises ValueError s.
Proof. by intros [-> | ->]. Qed.

(** *** The sum of [put] *)

Lemma exact_sum_fits now d : exact_sum now d → fits_float d = true.
Proof.
  intros (_ & Hd & _). unfold fits_float. apply bool_decide_eq_true.
  assert (2 ^ 53 < float_limit) as Hlim by (vm_compute; reflexivity).
  revert Hd Hlim. generalize (2 ^ 53) float_limit. lia.
Qed.

Lemma exact_put_fits now ttl dt : exact_put now ttl dt → put_overflows ttl dt = false.
Proof.
  unfold exact_put, put_overflows.
  destruct ttl as [t|]; [|destruct dt as [d|]; [|done]];
    intros H%exact_sum_fits; by rewrite H.
Qed.

(** The sum returns the expiry when it does not raise. *)
Lemma put_sum_returns s now ttl :
  put_overflows ttl (default_ttl s) = false →
  match ttl with
  | Some t => time_plus now t
  | None =>
      bind (gets default_ttl)
        (λ dttl, match dttl with
                 | Some d => time_plus now d
                 | None => ret 0
                 end)
  end s
  = Returns (put_expiry now ttl (default_ttl s)) s.
Proof.
  unfold put_overflows, put_expiry, time_plus, bind, gets.
  destruct ttl as [t|]; [|destruct (default_ttl s) as [d|]; [|done]];
    intros H%negb_false_iff; by rewrite H.
Qed.

(** A Put whose sum raises has assigned nothing. *)
Lemma put_overflow_raises s now k v ttl :
  k ≠ EmptyString →
  put_overflows ttl (default_ttl s) = true →
  put now (Some k) v ttl s = Raises OverflowError s.
Proof.
  intros Hne. unfold put. rewrite decide_False by done.
  unfold put_overflows, time_plus, bind, gets.
  destruct ttl as [t|]; [|destruct (default_ttl s) as [d|]; [|done]];
    intros H%negb_true_iff; by rewrite H.
Qed.

Lemma Linked_frame hd tl h h' l :
  (∀ c, is_Some (h !! c) →
        nxt h' c = nxt h c ∧ prv h' c = prv h c ∧ is_Some (h' !! c)) →
  Linked hd tl h l → Linked hd tl h' l.
Proof.
  intros Hf [Hnd Hv Hn Hp]. split; [done| | |].
  - intros a Ha. by apply Hf, Hv.
  - eapply chain_frame; [|done]. intros c Hc. apply Hf, Hv.
    clear -Hc. set_solver.
  - eapply chain_frame; [|done]. intros c Hc. apply Hf, Hv.
    clear -Hc. rewrite elem_of_cons, elem_of_rev in Hc. set_solver.
Qed.

(** Assigning [value] or [expiry] of a node leaves the list as it is. *)
Lemma set_data_returns s a n (f : node → node) :
  objects s !! a = Some n →
  CacheNode.prev (f n) = CacheNode.prev n →
  CacheNode.next (f n) = CacheNode.next n →
  let h' := <[a := f n]> (objects s) in
  setattr (Some a) f s = Returns tt (with_objects h' s) ∧
  h' !! a = Some (f n) ∧
  (∀ c, c ≠ a → h' !! c = objects s !! c) ∧
  (∀ hd tl l, Linked hd tl (objects s) l → Linked hd tl h' l) ∧
  length h' = length (objects s).
Proof.
  intros Ha Hp Hn h'. split; [by apply setattr_returns|].
  split; [|split; [|split]].
  - apply list_lookup_insert_eq. by eapply lookup_lt_Some.
  - intros c Hc. by apply list_lookup_insert_ne.
  - intros hd tl l. apply Linked_frame. intros c Hc. split; [|split].
    + by eapply view_insert_bind.
    + by eapply view_insert_bind.
    + apply lookup_lt_is_Some. unfold h'. rewrite length_insert.
      by apply lookup_lt_is_Some.
  - apply length_insert.
Qed.

Lemma put_existing_returns s l now k x v ttl :
  Inv s l →
  k ≠ EmptyString →
  cache s !! k = Some x →
  put_overflows ttl (default_ttl s) = false →
  ∃ l1 l2 h',
    l = l1 ++ x :: l2 ∧
    put now (Some k) v ttl s = Returns tt (with_objects h' s) ∧
    Inv (with_objects h' s) (x :: l1 ++ l2) ∧
    payload h' x = Some (k, v, put_expiry now ttl (default_ttl s)) ∧
    (∀ c, c ≠ x → payload h' c = payload (objects s) c) ∧
    length h' = length (objects s).
Proof.
  intros HI Hne Hk Hsum.
  destruct (Inv_lookup _ _ _ _ HI Hk) as (n & Hx & Hkn).
  destruct (Inv_split _ _ _ _ HI Hk) as (l1 & l2 & -> & Hkx).
  set (e := put_expiry now ttl (default_ttl s)).
  destruct (set_data_returns s x n (CacheNode.with_value v) Hx eq_refl eq_refl)
    as (E1 & Hx1 & Ho1 & HL1 & Hlen1).
  set (h1 := <[x := CacheNode.with_value v n]> (objects s)) in *.
  destruct (set_data_returns (with_objects h1 s) x _ (CacheNode.with_expiry e)
              Hx1 eq_refl eq_refl) as (E2 & Hx2 & Ho2 & HL2 & Hlen2).
  simpl in E2, Hx2, Ho2, HL2, Hlen2.
  set (h2 := <[x := CacheNode.with_expiry e (CacheNode.with_value v n)]> h1) in *.
  destruct (touch_returns (with_objects h2 s) l1 x l2)
    as (h3 & h' & E3 & E4 & HL' & Hsp & Hlen); [by apply HL2, HL1, HI|].
  simpl in E3, E4, HL', Hsp, Hlen.
  exists l1, l2, h'. split; [done|]. split; [|split; [|split; [|split]]].
  - unfold put. rewrite decide_False by done.
    erewrite bind_returns; [|by apply put_sum_returns].
    erewrite bind_returns; [|done]. simpl. rewrite Hk.
    erewrite bind_returns; [|done].
    erewrite bind_returns; [|done].
    erewrite bind_returns; [|done].
    done.
  - apply Inv_touch; [done|done|]. intros a _.
    rewrite (same_payload_keyof _ _ _ Hsp). unfold keyof.
    destruct (decide (a = x)) as [->|Hax].
    + rewrite Hx2, Hx. done.
    + by rewrite Ho2, Ho1.
  - rewrite Hsp. unfold payload. rewrite Hx2. simpl. by rewrite Hkn.
  - intros c Hc. rewrite Hsp. unfold payload. by rewrite Ho2, Ho1.
  - congruence.
Qed.

Lemma final_snoc_view x l : ∃ l0, x :: l = l0 ++ [final x l].
Proof.
  revert x. induction l as [|y l IH]; intros x; simpl.
  - by exists [].
  - destruct (IH y) as [l0 ->]. by exists (x :: l0).
Qed.

(** The state of [put] on a new key after the node is created, indexed
    and linked, and before the capacity check. *)
Lemma put_new_inserts s l now k v ttl :
  Inv s l →
  k ≠ EmptyString →
  cache s !! k = None →
  put_overflows ttl (default_ttl s) = false →
  let x := length (objects s) in
  ∃ h',
    let s1 := with_cache (<[k := x]> (cache s)) (with_objects h' s) in
    put now (Some k) v ttl s =
      (if decide (Z.of_nat (size (cache s1)) > max_size s)
       then _evict_lru s1 else Returns tt s1) ∧
    Inv s1 (x :: l) ∧
    payload h' x = Some (k, v, put_expiry now ttl (default_ttl s)) ∧
    (∀ c, c ≠ x → payload h' c = payload (objects s) c) ∧
    length h' = S (length (objects s)).
Proof.
  intros [HL HX] Hne Hk Hsum x.
  remember (objects s ++ [CacheNode.init k v (put_expiry now ttl (default_ttl s))]) as h0 eqn:Eh0.
  assert (∀ c, is_Some (objects s !! c) → h0 !! c = objects s !! c) as Hold.
  { intros c Hc. rewrite Eh0. apply lookup_app_l. by apply lookup_lt_is_Some. }
  assert (h0 !! x = Some (CacheNode.init k v (put_expiry now ttl (default_ttl s)))) as Hx0.
  { rewrite Eh0. unfold x. by rewrite list_lookup_middle. }
  assert (length h0 = S (length (objects s))) as Hlen0.
  { rewrite Eh0, length_app. simpl. lia. }
  assert (∀ c, c ∈ head s :: l ++ [tail s] → c ≠ x) as Hfresh.
  { intros c Hc ->. apply (linked_valid _ _ _ _ HL) in Hc.
    apply lookup_lt_is_Some in Hc. unfold x in Hc. lia. }
  assert (Linked (head s) (tail s) h0 l) as HL0.
  { eapply Linked_frame; [|done]. intros c Hc. unfold nxt, prv.
    rewrite (Hold c Hc). done. }
  assert (is_Some (h0 !! x)) as Hvx by (by rewrite Hx0).
  assert (x ∉ head s :: l ++ [tail s]) as Hnx
    by (intros Hin; by apply (Hfresh x)).
  destruct (link_front_returns
              (with_cache (<[k := x]> (cache s)) (with_objects h0 s)) l x
              HL0 Hnx Hvx)
    as (h' & E & HL' & Hsp & Hlen).
  simpl in E, HL', Hsp, Hlen.
  exists h'. split; [|split; [|split; [|split]]].
  - unfold put. rewrite decide_False by done.
    erewrite bind_returns; [|by apply put_sum_returns].
    erewrite bind_returns; [|done]. simpl. rewrite Hk.
    erewrite bind_returns; [|reflexivity]. rewrite <- Eh0.
    erewrite bind_returns; [|done].
    erewrite bind_returns; [|done].
    erewrite bind_returns; [|done].
    erewrite bind_returns; [|done]. simpl.
    by case_decide.
  - split; [done|]. simpl.
    apply Indexed_insert; [|done| |].
    + eapply Indexed_relabel; [done|done|]. intros a Ha.
      rewrite (same_payload_keyof _ _ _ Hsp). unfold keyof. rewrite Hold; [done|].
      apply (linked_valid _ _ _ _ HL). clear -Ha. set_solver.
    + intros Hin. apply (Hfresh x); [|done]. clear -Hin. set_solver.
    + rewrite (same_payload_keyof _ _ _ Hsp). unfold keyof. by rewrite Hx0.
  - rewrite Hsp. unfold payload. by rewrite Hx0.
  - intros c Hc. rewrite Hsp. unfold payload.
    destruct (decide (c < x)%nat) as [Hlt|Hge].
    + rewrite Hold; [done|]. by apply lookup_lt_is_Some.
    + rewrite !lookup_ge_None_2; [done|unfold x in *; lia|].
      rewrite Hlen0. unfold x in *. lia.
  - by rewrite Hlen.
Qed.

(** [_evict_lru] on a non-empty list removes its last node. *)
Lemma _evict_lru_returns s l0 lru :
  Inv s (l0 ++ [lru]) →
  ∃ klru h',
    keyof (objects s) lru = Some klru ∧
    cache s !! klru = Some lru ∧
    _evict_lru s =
      Returns tt
        (with_evictions (evictions s + 1)
           (with_cache (base.delete klru (cache s)) (with_objects h' s))) ∧
    Inv (with_cache (base.delete klru (cache s)) (with_objects h' s)) l0 ∧
    same_payload (objects s) h' ∧
    length h' = length (objects s).
Proof.
  intros HI. pose proof HI as [HL HX].
  assert (is_Some (objects s !! lru)) as [n Hn].
  { apply (linked_valid _ _ _ _ HL). clear. set_solver. }
  set (klru := CacheNode.key n).
  assert (keyof (objects s) lru = Some klru) as Hkl
    by (unfold keyof; by rewrite Hn).
  assert (cache s !! klru = Some lru) as Hc.
  { apply (indexed_iff _ _ _ HX). split; [|done]. clear. set_solver. }
  destruct (unlink_returns s l0 lru [] HL) as (h' & E & HL' & Hsp & Hlen).
  destruct (same_payload_lookup _ _ _ _ Hsp Hn) as (n' & Hn' & Hkn' & _).
  assert (prv (objects s) (tail s) = Some lru) as Hprv.
  { pose proof (chain_first _ _ _ _ (linked_prev _ _ _ _ HL)) as H.
    by rewrite first_rev, final_snoc in H. }
  destruct (prv_lookup _ _ _ Hprv) as (nt & Ht & Hntp).
  exists klru, h'. split; [done|]. split; [done|]. split; [|split; [|done]].
  - unfold _evict_lru.
    erewrite bind_returns; [|done]. simpl.
    rewrite decide_False.
    2:{ rewrite (indexed_size _ _ _ HX), length_app. simpl. lia. }
    erewrite bind_returns; [|done].
    erewrite bind_returns; [|by apply load_returns].
    erewrite bind_returns; [|done]. simpl.
    rewrite Hntp. rewrite decide_False.
    2:{ intros [= ->]. destruct HL as [Hnd _ _ _]. clear -Hnd. nodup. }
    erewrite bind_returns; [|done].
    erewrite bind_returns; [|by apply load_returns].
    rewrite Hkn'.
    erewrite bind_returns; [|by eapply del_cache_returns].
    done.
  - rewrite <- (app_nil_r l0). eapply Inv_drop; [done|done| |done].
    by rewrite app_nil_r in HL' |- *.
Qed.

(** *** The sweep *)

Lemma collect_expired_returns s now (items : list (string * addr)) :
  (∀ k a, (k, a) ∈ items → is_Some (objects s !! a)) →
  ∃ ks, collect_expired now items s = Returns ks s ∧ ks `sublist_of` items.*1.
Proof.
  induction items as [|[k a] items IH]; intros Hv; simpl.
  - exists []. split; [done|]. constructor.
  - destruct (Hv k a) as [n Hn]; [apply list_elem_of_here|].
    destruct IH as (ks & E & Hsub).
    { intros k' a' Hin. apply (Hv k'). by apply list_elem_of_further. }
    eexists. split.
    + erewrite bind_returns; [|by apply load_returns].
      erewrite bind_returns; [|done]. done.
    + destruct (_ && _); by constructor.
Qed.

Lemma remove_expired_returns ks : ∀ s l,
  Inv s l →
  NoDup ks →
  (∀ k, k ∈ ks → is_Some (cache s !! k)) →
  ∃ s' l',
    remove_expired ks s = Returns tt s' ∧
    Inv s' l' ∧ l' `sublist_of` l ∧ same_config s s' ∧
    hits s' = hits s ∧ misses s' = misses s ∧ evictions s' = evictions s ∧
    expired_removals s' = expired_removals s + Z.of_nat (length ks).
Proof.
  induction ks as [|k ks IH]; intros s l HI Hnd Hin; simpl.
  - exists s, l. split; [done|]. split; [done|]. split; [done|].
    split; [done|]. repeat split. lia.
  - destruct (Hin k) as [x Hk]; [apply list_elem_of_here|].
    destruct (Inv_split _ _ _ _ HI Hk) as (l1 & l2 & -> & Hkx).
    destruct (unlink_returns s l1 x l2 (proj1 HI)) as (h' & E & HL' & Hsp & Hlen).
    apply NoDup_cons in Hnd as [Hk' Hnd].
    set (s1 := with_expired_removals (expired_removals s + 1)
                 (with_cache (base.delete k (cache s)) (with_objects h' s))).
    destruct (IH s1 (l1 ++ l2)) as (s' & l' & E' & HI' & Hsub & Hcfg & Hh & Hm & He & Hr).
    + by eapply Inv_drop.
    + done.
    + intros k0 Hk0. simpl. rewrite lookup_delete_ne.
      * by apply Hin, list_elem_of_further.
      * by intros ->.
    + exists s', l'. split; [|split; [done|split; [|split; [done|]]]].
      * erewrite bind_returns; [|by unfold cache_getitem; rewrite Hk].
        erewrite bind_returns; [|done].
        erewrite bind_returns; [|by eapply del_cache_returns].
        erewrite bind_returns; [|done].
        done.
      * etransitivity; [done|]. apply sublist_app; [done|]. by constructor.
      * simpl in *. repeat split; try done. lia.
Qed.

Lemma _cleanup_expired_returns s l now :
  Inv s l →
  ∃ s' l' (n : nat),
    _cleanup_expired now s = Returns tt s' ∧
    Inv s' l' ∧ l' `sublist_of` l ∧ same_config s s' ∧
    hits s' = hits s ∧ misses s' = misses s ∧ evictions s' = evictions s ∧
    expired_removals s' = expired_removals s + Z.of_nat n.
Proof.
  intros HI.
  destruct (collect_expired_returns s now (map_to_list (cache s))) as (ks & E & Hsub).
  { intros k a Hka. apply elem_of_map_to_list in Hka.
    destruct (Inv_lookup _ _ _ _ HI Hka) as (n & -> & _). done. }
  destruct (remove_expired_returns ks s l HI) as (s' & l' & E' & H).
  - eapply sublist_NoDup; [|done]. apply NoDup_fst_map_to_list.
  - intros k Hk.
    assert (k ∈ (map_to_list (cache s)).*1) as Hk'.
    { clear -Hk Hsub. induction Hsub; set_solver. }
    apply list_elem_of_fmap in Hk' as ([k' a] & -> & Hka).
    apply elem_of_map_to_list in Hka. simpl. by rewrite Hka.
  - exists s', l', (length ks). split; [|done].
    unfold _cleanup_expired.
    erewrite bind_returns; [|done].
    erewrite bind_returns; [|done].
    done.
Qed.

(** *** [put] on a new key *)

Lemma put_new_fits s l now k v ttl :
  Inv s l →
  k ≠ EmptyString →
  cache s !! k = None →
  put_overflows ttl (default_ttl s) = false →
  ¬ (Z.of_nat (S (size (cache s))) > max_size s) →
  let x := length (objects s) in
  ∃ h',
    put now (Some k) v ttl s =
      Returns tt (with_cache (<[k := x]> (cache s)) (with_objects h' s)) ∧
    Inv (with_cache (<[k := x]> (cache s)) (with_objects h' s)) (x :: l) ∧
    payload h' x = Some (k, v, put_expiry now ttl (default_ttl s)) ∧
    (∀ c, c ≠ x → payload h' c = payload (objects s) c) ∧
    length h' = S (length (objects s)).
Proof.
  intros HI Hne Hk Hsum Hfit x.
  destruct (put_new_inserts s l now k v ttl HI Hne Hk Hsum) as (h' & E & H).
  exists h'. split; [|done]. rewrite E. simpl.
  rewrite map_size_insert_None by done. by rewrite decide_False.
Qed.

Lemma put_new_evicts s l now k v ttl :
  Inv s l →
  k ≠ EmptyString →
  cache s !! k = None →
  put_overflows ttl (default_ttl s) = false →
  Z.of_nat (S (size (cache s))) > max_size s →
  let x := length (objects s) in
  ∃ l0 lru klru h',
    x :: l = l0 ++ [lru] ∧
    keyof h' lru = Some klru ∧
    <[k := x]> (cache s) !! klru = Some lru ∧
    put now (Some k) v ttl s =
      Returns tt
        (with_evictions (evictions s + 1)
           (with_cache (base.delete klru (<[k := x]> (cache s)))
              (with_objects h' s))) ∧
    Inv (with_cache (base.delete klru (<[k := x]> (cache s))) (with_objects h' s)) l0 ∧
    payload h' x = Some (k, v, put_expiry now ttl (default_ttl s)) ∧
    (∀ c, c ≠ x → payload h' c = payload (objects s) c) ∧
    length h' = S (length (objects s)).
Proof.
  intros HI Hne Hk Hsum Hover x.
  destruct (put_new_inserts s l now k v ttl HI Hne Hk Hsum)
    as (h1 & E & HI1 & Hpx & Hpo & Hlen1).
  fold x in E, HI1, Hpx, Hpo.
  destruct (final_snoc_view x l) as [l0 El].
  rewrite El in HI1.
  destruct (_evict_lru_returns _ _ _ HI1) as (klru & h' & Hkl & Hc & E' & HI' & Hsp & Hlen).
  simpl in Hkl, Hc, E', HI', Hsp, Hlen.
  exists l0, (final x l), klru, h'. split; [done|].
  split; [by rewrite (same_payload_keyof _ _ _ Hsp)|]. split; [done|].
  split; [|split; [done|split; [|split]]].
  - rewrite E. simpl. rewrite map_size_insert_None by done.
    by rewrite decide_True.
  - by rewrite Hsp.
  - intros c Hc'. rewrite Hsp. by apply Hpo.
  - congruence.
Qed.

End method_specs.

(** ** Histories keep the invariant *)

Section history_invariant.
Context {Any : Type} (PyNone : Any).

Local Abbreviation node := (CacheNode.t Any).
Local Abbreviation self := (ThreadSafeCache.t Any).

Implicit Types (h : list node) (s : self) (l : list addr) (k : string) (now : Z).

Lemma invalid_key_dec key : {invalid_key key} + {∃ k, key = Some k ∧ k ≠ EmptyString}.
Proof.
  destruct key as [k|]; [|left; by left].
  destruct (decide (k = EmptyString)) as [->|Hne]; [left; by right|right; eauto].
Qed.

Lemma step_effect s l now (c : @call Any) :
  Inv s l →
  let s' := step PyNone s (now, c) in
  (∃ l', Inv s' l') ∧
  same_config s s' ∧
  (current_size s' ≤ current_size s ∨ current_size s' ≤ max_size s) ∧
  requests_effect c s s' ∧
  match failure PyNone s (now, c) with
  | None => True
  | Some e =>
      s' = s ∧
      ∃ key v ttl,
        c = Put key v ttl ∧
        ((e = ValueError ∧ invalid_key key)
         ∨ (e = OverflowError ∧ ¬ invalid_key key
            ∧ put_overflows ttl (default_ttl s) = true))
  end.
Proof.
  intros HI. unfold step, failure, current_size.
  destruct c as [key v ttl|k|k| | |]; cbn [fst snd].
  - (* put *)
    destruct (invalid_key_dec key) as [Hbad|(k & -> & Hne)].
    { rewrite (put_invalid_raises s now key v ttl Hbad). simpl.
      split; [eauto|]. split; [by repeat split|]. split; [left; lia|].
      split; [done|]. split; [done|]. eauto 10. }
    destruct (put_overflows ttl (default_ttl s)) eqn:Hsum.
    { rewrite (put_overflow_raises s now k v ttl Hne Hsum). simpl.
      split; [eauto|]. split; [by repeat split|]. split; [left; lia|].
      split; [done|]. split; [done|].
      exists (Some k), v, ttl. split; [done|]. right.
      split; [done|]. split; [|done]. by intros [?|[= ?]]. }
    destruct (cache s !! k) as [x|] eqn:Hk.
    { destruct (put_existing_returns s l now k x v ttl HI Hne Hk Hsum)
        as (l1 & l2 & h' & -> & E & HI' & _).
      rewrite E. simpl. split; [eauto|]. split; [by repeat split|].
      split; [left; lia|]. done. }
    destruct (decide (Z.of_nat (S (size (cache s))) > max_size s)) as [Hov|Hfit].
    + destruct (put_new_evicts s l now k v ttl HI Hne Hk Hsum Hov)
        as (l0 & lru & klru & h' & El & _ & Hc & E & HI' & _).
      rewrite E. simpl. split; [eauto|]. split; [by repeat split|].
      split; [|done]. left.
      rewrite map_size_delete_Some by done.
      rewrite map_size_insert_None by done. simpl. lia.
    + destruct (put_new_fits s l now k v ttl HI Hne Hk Hsum Hfit)
        as (h' & E & HI' & _).
      rewrite E. simpl. split; [eauto|]. split; [by repeat split|].
      split; [|done]. right.
      rewrite map_size_insert_None by done. lia.
  - (* get *)
    destruct (cache s !! k) as [x|] eqn:Hk.
    2:{ rewrite (get_absent_returns PyNone s now k Hk). simpl.
        split; [eauto|]. split; [by repeat split|]. split; [left; lia|].
        split; [right; done|done]. }
    destruct (Inv_lookup _ _ _ _ HI Hk) as (n & Hx & _).
    destruct (_is_expired now n) eqn:Hexp.
    + destruct (get_expired_returns PyNone s l now k x n HI Hk Hx Hexp)
        as (l1 & l2 & h' & -> & E & HI' & _).
      rewrite E. simpl. split; [eauto|]. split; [by repeat split|].
      split; [|split; [right; done|done]]. left.
      rewrite map_size_delete_Some by done. lia.
    + destruct (get_live_returns PyNone s l now k x n HI Hk Hx Hexp)
        as (l1 & l2 & h' & -> & E & HI' & _).
      rewrite E. simpl. split; [eauto|]. split; [by repeat split|].
      split; [left; lia|]. split; [left; done|done].
  - (* delete *)
    destruct (cache s !! k) as [x|] eqn:Hk.
    2:{ rewrite (delete_absent_returns s k Hk). simpl.
        split; [eauto|]. split; [by repeat split|]. split; [left; lia|done]. }
    destruct (delete_present_returns s l k x HI Hk)
      as (l1 & l2 & h' & -> & E & HI' & _).
    rewrite E. simpl. split; [eauto|]. split; [by repeat split|].
    split; [|done]. left. rewrite map_size_delete_Some by done. lia.
  - (* clear *)
    destruct (clear_returns s l HI) as (h' & E & HI' & _).
    rewrite E. simpl. split; [eauto|]. split; [by repeat split|].
    split; [|done]. left. rewrite map_size_empty. lia.
  - (* get_stats *)
    unfold get_stats, bind, gets, ret. simpl.
    split; [eauto|]. split; [by repeat split|]. split; [left; lia|done].
  - (* the sweep *)
    destruct (_cleanup_expired_returns s l now HI)
      as (s' & l' & n & E & HI' & Hsub & Hcfg & Hh & Hm & _).
    rewrite E. simpl. split; [eauto|]. split; [done|]. split; [|done].
    left. rewrite (indexed_size _ _ _ (proj2 HI')), (indexed_size _ _ _ (proj2 HI)).
    apply sublist_length in Hsub. lia.
Qed.

Lemma init_Inv ms dt : Inv (__init__ PyNone ms dt) [].
Proof.
  split; simpl.
  - split; simpl.
    + apply NoDup_cons. split; [|apply NoDup_singleton].
      by intros ?%list_elem_of_singleton.
    + intros a Ha.
      assert (a = 0%nat ∨ a = 1%nat) as [->| ->] by (clear -Ha; set_solver); by eexists.
    + done.
    + done.
  - split; [|done]. intros k a. rewrite lookup_empty. split; [done|].
    intros [Ha _]. by apply elem_of_nil in Ha.
Qed.

Lemma init_Good ms dt : Good ms dt (__init__ PyNone ms dt).
Proof.
  split; try done.
  - exists []. apply init_Inv.
Qed.

Lemma step_Good ms dt s c : Good ms dt s → Good ms dt (step PyNone s c).
Proof.
  intros [[l HI] Hms Hdt Hci Hb]. destruct c as [now c].
  destruct (step_effect s l now c HI) as (HI' & Hcfg & Hsz & _).
  destruct Hcfg as (Hms' & Hdt' & _ & _ & Hci' & _).
  split; [done|congruence|congruence|congruence|].
  intros H0. specialize (Hb H0). destruct Hsz; lia.
Qed.

Lemma run_cons s c cs : run PyNone s (c :: cs) = run PyNone (step PyNone s c) cs.
Proof. done. Qed.

Lemma run_snoc s cs c : run PyNone s (cs ++ [c]) = step PyNone (run PyNone s cs) c.
Proof. unfold run. by rewrite fold_left_app. Qed.

Lemma run_Good ms dt cs s : Good ms dt s → Good ms dt (run PyNone s cs).
Proof.
  revert s. induction cs as [|c cs IH]; intros s HG; [done|].
  rewrite run_cons. by apply IH, step_Good.
Qed.

Lemma engine_Good ms dt cs : Good ms dt (run PyNone (__init__ PyNone ms dt) cs).
Proof. apply run_Good, init_Good. Qed.

(** *** The index and the recency sequence hold the same nodes *)

Lemma elem_of_indexed s a : a ∈ indexed s ↔ ∃ k, cache s !! k = Some a.
Proof.
  unfold indexed. rewrite list_elem_of_fmap. split.
  - intros ([k a'] & -> & Hin). exists k. by apply elem_of_map_to_list.
  - intros [k Hk]. exists (k, a). split; [done|]. by apply elem_of_map_to_list.
Qed.

Lemma Inv_consistent s l : Inv s l → consistent s.
Proof.
  intros [HL HX]. exists l.
  split; [by apply Linked_recency|]. split; [by apply Linked_recency_back|].
  split; [by eapply Linked_NoDup|].
  split; [destruct HL as [Hnd _ _ _]; clear -Hnd; nodup|].
  split; [destruct HL as [Hnd _ _ _]; clear -Hnd; nodup|].
  split; [by rewrite (indexed_size _ _ _ HX)|].
  split.
  - unfold indexed. apply NoDup_fmap_2_strong; [|apply NoDup_map_to_list].
    intros [k1 a1] [k2 a2] H1%elem_of_map_to_list H2%elem_of_map_to_list E.
    simpl in E. subst a2.
    apply (indexed_iff _ _ _ HX) in H1 as [_ H1], H2 as [_ H2]. congruence.
  - intros a. rewrite elem_of_indexed. split.
    + intros Ha.
      destruct (linked_valid _ _ _ _ HL a) as [n Hn]; [clear -Ha; set_solver|].
      exists (CacheNode.key n). apply (indexed_iff _ _ _ HX).
      split; [done|]. unfold keyof. by rewrite Hn.
    + intros [k Hk]. by apply (indexed_iff _ _ _ HX) in Hk as [? _].
Qed.

End history_invariant.

(** ** The specification, claim by claim *)

Section claims.
Context {Any : Type} (PyNone : Any).

Local Abbreviation node := (CacheNode.t Any).
Local Abbreviation self := (ThreadSafeCache.t Any).

Implicit Types (s : self) (l : list addr) (k : string) (now : Z).

(** The engine built by [__init__ ms dt] after the history [cs]. *)
Local Abbreviation engine ms dt cs := (run PyNone (__init__ PyNone ms dt) cs).

Lemma engine_Inv ms dt cs : ∃ l, Inv (engine ms dt cs) l.
Proof. apply (good_inv _ _ _ (engine_Good PyNone ms dt cs)). Qed.

Lemma get_stats_returns s : get_stats s = Returns (stats_of s) s.
Proof. reflexivity. Qed.

Lemma count_gets_cons (c : Z * @call Any) cs :
  count_gets (c :: cs) = (if is_get c then 1 else 0) + count_gets cs.
Proof.
  unfold count_gets. rewrite filter_cons.
  destruct (is_get c); simpl; lia.
Qed.

Lemma run_requests cs : ∀ s,
  (∃ l, Inv s l) →
  hits (run PyNone s cs) + misses (run PyNone s cs)
  = hits s + misses s + count_gets cs.
Proof.
  induction cs as [|[now c] cs IH]; intros s [l HI].
  - unfold count_gets. simpl. lia.
  - rewrite run_cons.
    destruct (step_effect PyNone s l now c HI) as (HI' & _ & _ & Hreq & _).
    rewrite (IH _ HI'), count_gets_cons.
    destruct c; simpl in *; lia.
Qed.

(** C2.  After construction and after every call (Put, Get, Delete,
    Clear, and also GetStats and a sweep of the background worker), the
    walk from [head.next] along [next] to [tail] and the walk from
    [tail.prev] along [prev] to [head] pass the same nodes, none of them
    twice and none a sentinel; these nodes are exactly the nodes the
    dictionary refers to, each referred to by one key, and there are as
    many of them as the dictionary has keys. *)
Theorem index_and_recency_agree ms dt cs c :
  consistent (engine ms dt cs) ∧ consistent (step PyNone (engine ms dt cs) c).
Proof.
  split.
  - destruct (engine_Inv ms dt cs) as [l HI]. by eapply Inv_consistent.
  - rewrite <- run_snoc.
    destruct (engine_Inv ms dt (cs ++ [c])) as [l HI]. by eapply Inv_consistent.
Qed.

(** C10.  A Get adds one to exactly one of [hits] and [misses] and leaves
    the other as it was; no other call changes either.  So after any
    history the two counters add up to the number of Get calls in it, and
    that is the [total_requests] that GetStats reports. *)
Theorem requests_count_the_gets ms dt cs :
  (∀ now c, requests_effect c (engine ms dt cs)
              (step PyNone (engine ms dt cs) (now, c))) ∧
  hits (engine ms dt cs) + misses (engine ms dt cs) = count_gets cs ∧
  ∃ st, get_stats (engine ms dt cs) = Returns st (engine ms dt cs) ∧
        CacheStats.total_requests st = count_gets cs.
Proof.
  assert (hits (engine ms dt cs) + misses (engine ms dt cs) = count_gets cs) as Hsum.
  { rewrite run_requests; [simpl; lia|]. exists []. apply init_Inv. }
  split; [|split; [done|]].
  - intros now c. destruct (engine_Inv ms dt cs) as [l HI].
    by destruct (step_effect PyNone _ l now c HI) as (_ & _ & _ & Hreq & _).
  - exists (stats_of (engine ms dt cs)). split; [apply get_stats_returns|done].
Qed.

(** C7.  GetStats returns the counters as they are, [total_requests =
    hits + misses], [hit_rate = hits / total_requests] when
    [total_requests > 0] and [0] otherwise, and [current_size] the number
    of keys of the dictionary; the state it returns in is the state it
    was called in. *)
Theorem get_stats_snapshot s :
  ∃ st,
    get_stats s = Returns st s ∧
    CacheStats.hits st = hits s ∧
    CacheStats.misses st = misses s ∧
    CacheStats.total_requests st = hits s + misses s ∧
    (hits s + misses s > 0 →
     CacheStats.hit_rate st
     = Qdiv (inject_Z (hits s)) (inject_Z (hits s + misses s))) ∧
    (hits s + misses s > 0 →
     Qeq (CacheStats.hit_rate st) (Qmake (hits s) (Z.to_pos (hits s + misses s)))) ∧
    (¬ hits s + misses s > 0 → CacheStats.hit_rate st = 0%Q) ∧
    CacheStats.current_size st = Z.of_nat (size (cache s)) ∧
    CacheStats.evictions st = evictions s ∧
    CacheStats.expired_removals st = expired_removals s.
Proof.
  exists (stats_of s). split; [apply get_stats_returns|]. simpl.
  repeat split; intros.
  - by rewrite decide_True.
  - rewrite decide_True by done.
    rewrite (Qmake_Qdiv (hits s)).
    by rewrite Z2Pos.id by lia.
  - by rewrite decide_False.
Qed.

Lemma put_overflows_iff (ttl dt' : option Z) :
  put_overflows ttl dt' = true
  ↔ ∃ d, (ttl = Some d ∨ (ttl = None ∧ dt' = Some d)) ∧ 2 ^ 1024 - 2 ^ 970 ≤ Z.abs d.
Proof.
  assert (∀ d, negb (fits_float d) = true ↔ 2 ^ 1024 - 2 ^ 970 ≤ Z.abs d) as Hfit.
  { intros d. unfold fits_float. rewrite negb_true_iff, bool_decide_eq_false.
    change (2 ^ 1024 - 2 ^ 970) with float_limit.
    generalize float_limit. lia. }
  unfold put_overflows. destruct ttl as [t|]; [|destruct dt' as [d|]].
  - rewrite Hfit. split; [eauto|]. by intros (d & [[= ->]|[? _]] & ?).
  - rewrite Hfit. split; [eauto|]. by intros (d' & [?|[_ [= ->]]] & ?).
  - split; [done|]. by intros (d & [?|[_ ?]] & _).
Qed.

(** C6, amended.  Put with key [None] or the empty string raises
    [ValueError] in the state it was called in: nothing has been assigned.
    Put with another key raises [OverflowError], also in the state it was
    called in, when its [ttl], or without a [ttl] the engine's
    [default_ttl], is an int of magnitude [2^1024 - 2^970] or more, which
    no float holds.  From a state the engine can be in, no other call
    raises: a call that raises is one of these two Puts, and the state
    after it is the state before it; a Put with a non-empty key and a sum
    that fits raises nothing. *)
Theorem put_rejects_empty_key ms dt cs now :
  (∀ key v ttl s, invalid_key key → put now key v ttl s = Raises ValueError s) ∧
  (∀ k v ttl s, k ≠ EmptyString →
     put_overflows ttl (default_ttl s) = true →
     put now (Some k) v ttl s = Raises OverflowError s) ∧
  (∀ ttl dt',
     put_overflows ttl dt' = true
     ↔ ∃ d, (ttl = Some d ∨ (ttl = None ∧ dt' = Some d))
            ∧ 2 ^ 1024 - 2 ^ 970 ≤ Z.abs d) ∧
  (∀ c e, failure PyNone (engine ms dt cs) (now, c) = Some e →
          step PyNone (engine ms dt cs) (now, c) = engine ms dt cs ∧
          ∃ key v ttl,
            c = Put key v ttl ∧
            ((e = ValueError ∧ invalid_key key)
             ∨ (e = OverflowError ∧ ¬ invalid_key key
                ∧ put_overflows ttl dt = true))) ∧
  (∀ k v ttl, k ≠ EmptyString →
              put_overflows ttl dt = false →
              failure PyNone (engine ms dt cs) (now, Put (Some k) v ttl) = None).
Proof.
  pose proof (engine_Good PyNone ms dt cs) as [[l HI] _ Hdt _ _].
  split; [|split; [|split; [|split]]].
  - intros. by apply put_invalid_raises.
  - intros. by apply put_overflow_raises.
  - apply put_overflows_iff.
  - intros c e He.
    destruct (step_effect PyNone _ l now c HI) as (_ & _ & _ & _ & Hf).
    rewrite He, Hdt in Hf. done.
  - intros k v ttl Hne Hsum.
    destruct (step_effect PyNone _ l now (Put (Some k) v ttl) HI) as (_ & _ & _ & _ & Hf).
    destruct (failure _ _ _) as [e|]; [|done]. rewrite Hdt in Hf.
    destruct Hf as (_ & key & v' & ttl' & [= <- _ <-] & [[_ [?|[= ?]]]|(_ & _ & ?)]);
      congruence.
Qed.

Lemma Inv_fresh s l a :
  Inv s l → a ∈ head s :: l ++ [tail s] → a ≠ length (objects s).
Proof.
  intros [HL _] Ha ->. apply (linked_valid _ _ _ _ HL) in Ha.
  apply lookup_lt_is_Some in Ha. lia.
Qed.

(** C1.  Take an engine built with a positive [max_size], in any state
    it can be in, and a Put of a non-empty key that is not in the
    dictionary.  The Put returns; the new node [x] carries the key and is
    first in the recency sequence.  When the dictionary then has more
    than [max_size] keys, the node that was last in the recency sequence
    is removed from the sequence and its key from the dictionary, nothing
    else is removed, and [evictions] grows by one; otherwise nothing is
    removed and [evictions] is as before.  After this Put, and after
    every Put whatever its arguments, the dictionary has at most
    [max_size] keys.  The sum the Put makes for its expiry is taken to be
    exact, so that it does not raise. *)
Theorem put_new_key_evicts_lru ms dt cs now k v ttl :
  0 < ms →
  k ≠ EmptyString →
  cache (engine ms dt cs) !! k = None →
  exact_put now ttl dt →
  ∃ l s',
    recency (engine ms dt cs) = Some l ∧
    put now (Some k) v ttl (engine ms dt cs) = Returns tt s' ∧
    keyof (objects s') (length (objects (engine ms dt cs))) = Some k ∧
    (if decide (current_size (engine ms dt cs) + 1 > max_size (engine ms dt cs))
     then
       ∃ l0 lru klru,
         l = l0 ++ [lru] ∧
         keyof (objects (engine ms dt cs)) lru = Some klru ∧
         cache (engine ms dt cs) !! klru = Some lru ∧
         cache s' = base.delete klru
                      (<[k := length (objects (engine ms dt cs))]>
                         (cache (engine ms dt cs))) ∧
         cache s' !! klru = None ∧
         recency s' = Some (length (objects (engine ms dt cs)) :: l0) ∧
         (lru ∉ length (objects (engine ms dt cs)) :: l0) ∧
         current_size s' = current_size (engine ms dt cs) ∧
         evictions s' = evictions (engine ms dt cs) + 1
     else
       cache s' = <[k := length (objects (engine ms dt cs))]>
                    (cache (engine ms dt cs)) ∧
       recency s' = Some (length (objects (engine ms dt cs)) :: l) ∧
       current_size s' = current_size (engine ms dt cs) + 1 ∧
       evictions s' = evictions (engine ms dt cs)) ∧
    current_size s' ≤ max_size s' ∧
    (∀ now' key' v' ttl',
       current_size (state_of (put now' key' v' ttl' (engine ms dt cs)))
       ≤ max_size (state_of (put now' key' v' ttl' (engine ms dt cs)))).
Proof.
  intros Hms Hne Hk Hsum%exact_put_fits.
  pose proof (engine_Good PyNone ms dt cs) as [[l HI] Hmax Hdt _ Hb].
  rewrite <- Hdt in Hsum.
  assert (∀ now' key' v' ttl',
            current_size (state_of (put now' key' v' ttl' (engine ms dt cs)))
            ≤ max_size (state_of (put now' key' v' ttl' (engine ms dt cs)))) as Hall.
  { intros now' key' v' ttl'.
    pose proof (step_Good PyNone ms dt _ (now', Put key' v' ttl')
                  (engine_Good PyNone ms dt cs)) as [_ Hmax' _ _ Hb'].
    unfold step in Hmax', Hb'. simpl in Hmax', Hb'. rewrite Hmax'. apply Hb'. lia. }
  set (s := engine ms dt cs) in *.
  set (x := length (objects s)).
  exists l. unfold current_size in *.
  destruct (decide (Z.of_nat (size (cache s)) + 1 > max_size s)) as [Hov|Hfit].
  - destruct (put_new_evicts s l now k v ttl HI Hne Hk Hsum)
      as (l0' & lru & klru & h' & El & Hkl & Hc & E & HI' & Hpx & Hpo & Hlen); [lia|].
    fold x in El, Hc, E, HI', Hpx, Hpo.
    eexists. split; [by apply Linked_recency, HI|]. split; [exact E|]. simpl.
    split; [by rewrite keyof_payload, Hpx|].
    assert (l ≠ []) as Hl.
    { intros ->. pose proof (indexed_size _ _ _ (proj2 HI)) as Hsz. simpl in Hsz. lia. }
    destruct l as [|y l _] using rev_ind; [done|].
    change (x :: l ++ [y]) with ((x :: l) ++ [y]) in El.
    apply app_inj_tail in El as [<- <-].
    assert (y ≠ x) as Hyx.
    { apply (Inv_fresh _ _ _ HI). clear. set_solver. }
    assert (klru ≠ k) as Hkk.
    { intros ->. rewrite lookup_insert_eq in Hc. congruence. }
    rewrite lookup_insert_ne in Hc by done.
    split; [|split; [|done]].
    + exists l, y, klru. split; [done|].
      split; [by rewrite keyof_payload, <- (Hpo y Hyx), <- keyof_payload|].
      split; [done|]. split; [done|]. split; [by rewrite lookup_delete_eq|].
      split; [by apply (Linked_recency _ _ (proj1 HI'))|].
      split.
      * pose proof (Linked_NoDup _ _ _ _ (proj1 HI)) as Hnd.
        clear -Hnd Hyx. apply NoDup_app in Hnd as (_ & Hd & _).
        intros [?|Hin]%elem_of_cons; [done|].
        apply (Hd _ Hin), list_elem_of_here.
      * split; [|done].
        rewrite map_size_delete_Some by (by rewrite lookup_insert_ne).
        rewrite map_size_insert_None by done. simpl. lia.
    + rewrite map_size_delete_Some by (by rewrite lookup_insert_ne).
      rewrite map_size_insert_None by done. simpl.
      specialize (Hb ltac:(lia)). lia.
  - destruct (put_new_fits s l now k v ttl HI Hne Hk Hsum)
      as (h' & E & HI' & Hpx & Hpo & Hlen); [lia|].
    fold x in E, HI', Hpx, Hpo.
    eexists. split; [by apply Linked_recency, HI|]. split; [exact E|]. simpl.
    split; [by rewrite keyof_payload, Hpx|].
    split; [|split; [|done]].
    + split; [done|]. split; [by apply (Linked_recency _ _ (proj1 HI'))|].
      split; [|done]. rewrite map_size_insert_None by done. lia.
    + rewrite map_size_insert_None by done. lia.
Qed.

(** Gets of a key that is not in the dictionary only count misses. *)
Lemma run_gets_absent k (nows : list Z) : ∀ s,
  cache s !! k = None →
  cache (run PyNone s ((λ t, (t, Get k)) <$> nows)) = cache s ∧
  hits (run PyNone s ((λ t, (t, Get k)) <$> nows)) = hits s ∧
  misses (run PyNone s ((λ t, (t, Get k)) <$> nows))
  = misses s + Z.of_nat (length nows) ∧
  expired_removals (run PyNone s ((λ t, (t, Get k)) <$> nows)) = expired_removals s.
Proof.
  induction nows as [|t nows IH]; intros s Hk.
  - simpl. repeat split. lia.
  - rewrite fmap_cons, run_cons.
    assert (step PyNone s (t, Get k) = with_misses (misses s + 1) s) as ->.
    { unfold step. simpl. by rewrite (get_absent_returns PyNone s t k Hk). }
    destruct (IH (with_misses (misses s + 1) s) Hk) as (-> & -> & -> & ->).
    simpl. repeat split. lia.
Qed.

Lemma _is_expired_iff now (n : node) :
  _is_expired now n = true ↔ 0 < CacheNode.expiry n ∧ now > CacheNode.expiry n.
Proof.
  unfold _is_expired. rewrite andb_true_iff, !bool_decide_eq_true. lia.
Qed.

(** C3.  A Get in any state the engine can be in.  When the key is not
    in the dictionary, [misses] grows by one, nothing else changes and
    [None] is returned.  When the key is in the dictionary and its node
    is expired at the time of the call, that is, the [expiry] of the node
    is positive and the clock reading is past it, the node leaves the
    recency sequence and the key the dictionary, [expired_removals] and
    [misses] each grow by one, [hits] stays, and [None] is returned; any
    number of further Gets of that key then return [None] and count misses
    only, so [expired_removals] has grown by exactly one.  Otherwise the
    node becomes the first of the recency sequence, [hits] grows by one,
    [misses] and [expired_removals] stay, and the node's value is
    returned. *)
Theorem get_miss_expired_or_hit ms dt cs now k :
  match cache (engine ms dt cs) !! k with
  | None =>
      get PyNone now k (engine ms dt cs)
      = Returns PyNone (with_misses (misses (engine ms dt cs) + 1) (engine ms dt cs))
  | Some x =>
      ∃ n l1 l2 s',
        objects (engine ms dt cs) !! x = Some n ∧
        recency (engine ms dt cs) = Some (l1 ++ x :: l2) ∧
        if decide (CacheNode.expiry n > 0 ∧ now > CacheNode.expiry n) then
          get PyNone now k (engine ms dt cs) = Returns PyNone s' ∧
          cache s' = base.delete k (cache (engine ms dt cs)) ∧
          recency s' = Some (l1 ++ l2) ∧
          expired_removals s' = expired_removals (engine ms dt cs) + 1 ∧
          misses s' = misses (engine ms dt cs) + 1 ∧
          hits s' = hits (engine ms dt cs) ∧
          (∀ now', get PyNone now' k s'
                   = Returns PyNone (with_misses (misses s' + 1) s')) ∧
          (∀ nows : list Z,
             expired_removals (run PyNone s' ((λ t, (t, Get k)) <$> nows))
             = expired_removals (engine ms dt cs) + 1 ∧
             misses (run PyNone s' ((λ t, (t, Get k)) <$> nows))
             = misses (engine ms dt cs) + 1 + Z.of_nat (length nows))
        else
          get PyNone now k (engine ms dt cs) = Returns (CacheNode.value n) s' ∧
          cache s' = cache (engine ms dt cs) ∧
          recency s' = Some (x :: l1 ++ l2) ∧
          hits s' = hits (engine ms dt cs) + 1 ∧
          misses s' = misses (engine ms dt cs) ∧
          expired_removals s' = expired_removals (engine ms dt cs)
  end.
Proof.
  destruct (engine_Inv ms dt cs) as [l HI].
  set (s := engine ms dt cs) in *.
  destruct (cache s !! k) as [x|] eqn:Hk; [|by apply get_absent_returns].
  destruct (Inv_lookup _ _ _ _ HI Hk) as (n & Hx & _).
  destruct (decide (CacheNode.expiry n > 0 ∧ now > CacheNode.expiry n))
    as [Hpast|Hlive].
  - assert (_is_expired now n = true) as Hexp by (apply _is_expired_iff; lia).
    destruct (get_expired_returns PyNone s l now k x n HI Hk Hx Hexp)
      as (l1 & l2 & h' & -> & E & HI' & _).
    exists n, l1, l2. eexists. split; [done|].
    split; [by apply Linked_recency, HI|]. rewrite decide_True by done.
    split; [exact E|]. simpl. split; [done|].
    split; [by apply (Linked_recency _ _ (proj1 HI'))|].
    split; [done|]. split; [done|]. split; [done|]. split.
    + intros now'. apply get_absent_returns. simpl. apply lookup_delete_eq.
    + intros nows.
      match goal with |- context [run _ ?s' _] =>
        destruct (run_gets_absent k nows s') as (_ & _ & -> & ->) end.
      * simpl. apply lookup_delete_eq.
      * done.
  - assert (_is_expired now n = false) as Hexp.
    { apply not_true_is_false. rewrite _is_expired_iff. lia. }
    destruct (get_live_returns PyNone s l now k x n HI Hk Hx Hexp)
      as (l1 & l2 & h' & -> & E & HI' & _).
    exists n, l1, l2. eexists. split; [done|].
    split; [by apply Linked_recency, HI|]. rewrite decide_False by done.
    split; [exact E|]. simpl. split; [done|].
    split; [by apply (Linked_recency _ _ (proj1 HI'))|]. done.
Qed.

(** C4.  A Put of a non-empty key that is in the dictionary, in any
    state the engine can be in, returns; the node of the key is the same
    object, now with the new value and the expiry of this Put: the clock
    reading plus the [ttl], or plus the engine's [default_ttl] when the
    Put has no [ttl], or [0] when there is neither.  The node is first in
    the recency sequence, the other nodes keeping their order; no object
    is created, the dictionary is unchanged and so is its size, and no
    counter changes.  The sum the Put makes is taken to be exact. *)
Theorem put_existing_key_updates_in_place ms dt cs now k x v ttl :
  k ≠ EmptyString →
  cache (engine ms dt cs) !! k = Some x →
  exact_put now ttl dt →
  ∃ l1 l2 s',
    recency (engine ms dt cs) = Some (l1 ++ x :: l2) ∧
    put now (Some k) v ttl (engine ms dt cs) = Returns tt s' ∧
    payload (objects s') x
    = Some (k, v, match ttl with
                  | Some t => now + t
                  | None => match dt with
                            | Some d => now + d
                            | None => 0
                            end
                  end) ∧
    (∀ c, c ≠ x → payload (objects s') c = payload (objects (engine ms dt cs)) c) ∧
    length (objects s') = length (objects (engine ms dt cs)) ∧
    cache s' = cache (engine ms dt cs) ∧
    recency s' = Some (x :: l1 ++ l2) ∧
    current_size s' = current_size (engine ms dt cs) ∧
    evictions s' = evictions (engine ms dt cs) ∧
    expired_removals s' = expired_removals (engine ms dt cs) ∧
    hits s' = hits (engine ms dt cs) ∧
    misses s' = misses (engine ms dt cs).
Proof.
  intros Hne Hk Hsum%exact_put_fits.
  pose proof (engine_Good PyNone ms dt cs) as [[l HI] _ Hdt _ _].
  rewrite <- Hdt in Hsum.
  set (s := engine ms dt cs) in *.
  destruct (put_existing_returns s l now k x v ttl HI Hne Hk Hsum)
    as (l1 & l2 & h' & -> & E & HI' & Hpx & Hpo & Hlen).
  exists l1, l2. eexists.
  split; [by apply Linked_recency, HI|]. split; [exact E|]. simpl.
  split; [by rewrite Hpx, Hdt|]. split; [done|]. split; [done|]. split; [done|].
  split; [by apply (Linked_recency _ _ (proj1 HI'))|]. done.
Qed.

(** C8.  In any state the engine can be in, Clear returns with an empty
    dictionary and with [head.next = tail] and [tail.prev = head], so
    that the recency sequence is empty; Delete of a key in the dictionary
    returns [True] with the key out of the dictionary and its node out of
    the recency sequence, and Delete of any other key returns [False] in
    the same state.  Neither changes [hits], [misses], [evictions] or
    [expired_removals]. *)
Theorem clear_and_delete_keep_counters ms dt cs :
  (∃ s',
     clear (engine ms dt cs) = Returns tt s' ∧
     cache s' = ∅ ∧
     current_size s' = 0 ∧
     nxt (objects s') (head s') = Some (tail s') ∧
     prv (objects s') (tail s') = Some (head s') ∧
     recency s' = Some [] ∧
     hits s' = hits (engine ms dt cs) ∧
     misses s' = misses (engine ms dt cs) ∧
     evictions s' = evictions (engine ms dt cs) ∧
     expired_removals s' = expired_removals (engine ms dt cs)) ∧
  (∀ k,
     match cache (engine ms dt cs) !! k with
     | Some x =>
         ∃ l1 l2 s',
           recency (engine ms dt cs) = Some (l1 ++ x :: l2) ∧
           delete k (engine ms dt cs) = Returns true s' ∧
           cache s' = base.delete k (cache (engine ms dt cs)) ∧
           recency s' = Some (l1 ++ l2) ∧
           hits s' = hits (engine ms dt cs) ∧
           misses s' = misses (engine ms dt cs) ∧
           evictions s' = evictions (engine ms dt cs) ∧
           expired_removals s' = expired_removals (engine ms dt cs)
     | None =>
         delete k (engine ms dt cs) = Returns false (engine ms dt cs)
     end).
Proof.
  destruct (engine_Inv ms dt cs) as [l HI].
  set (s := engine ms dt cs) in *.
  split.
  - destruct (clear_returns s l HI) as (h' & E & HI' & _).
    eexists. split; [exact E|]. simpl. split; [done|].
    split; [done|].
    pose proof (linked_next _ _ _ _ (proj1 HI')) as Hn.
    pose proof (linked_prev _ _ _ _ (proj1 HI')) as Hp.
    split; [done|]. split; [done|].
    split; [by apply (Linked_recency _ _ (proj1 HI'))|]. done.
  - intros k. destruct (cache s !! k) as [x|] eqn:Hk.
    + destruct (delete_present_returns s l k x HI Hk)
        as (l1 & l2 & h' & -> & E & HI' & _).
      exists l1, l2. eexists.
      split; [by apply Linked_recency, HI|]. split; [exact E|]. simpl.
      split; [done|].
      split; [by apply (Linked_recency _ _ (proj1 HI'))|]. done.
    + by apply delete_absent_returns.
Qed.

Lemma payload_lookup (h : list node) a k v e :
  payload h a = Some (k, v, e) →
  ∃ n, h !! a = Some n ∧ CacheNode.key n = k ∧ CacheNode.value n = v
       ∧ CacheNode.expiry n = e.
Proof.
  unfold payload. destruct (h !! a) as [n|]; [|done].
  intros [= <- <- <-]. eauto.
Qed.

(** After a Put on an engine with a positive [max_size], the dictionary
    has the key, on a node that carries the value and the expiry computed
    by this Put. *)
Lemma put_stores ms dt cs now k v ttl :
  0 < ms →
  k ≠ EmptyString →
  put_overflows ttl dt = false →
  ∃ x n s',
    put now (Some k) v ttl (engine ms dt cs) = Returns tt s' ∧
    cache s' !! k = Some x ∧
    objects s' !! x = Some n ∧
    CacheNode.key n = k ∧ CacheNode.value n = v ∧
    CacheNode.expiry n = put_expiry now ttl dt.
Proof.
  intros Hms Hne Hsum.
  pose proof (engine_Good PyNone ms dt cs) as [[l HI] Hmax Hdt _ Hb].
  rewrite <- Hdt in Hsum.
  set (s := engine ms dt cs) in *. unfold current_size in Hb.
  destruct (cache s !! k) as [x|] eqn:Hk.
  { destruct (put_existing_returns s l now k x v ttl HI Hne Hk Hsum)
      as (l1 & l2 & h' & -> & E & HI' & Hpx & _).
    rewrite Hdt in Hpx.
    destruct (payload_lookup _ _ _ _ _ Hpx) as (n & Hn & H).
    exists x, n. eexists. split; [exact E|]. simpl. by rewrite Hk. }
  destruct (decide (Z.of_nat (S (size (cache s))) > max_size s)) as [Hov|Hfit].
  - destruct (put_new_evicts s l now k v ttl HI Hne Hk Hsum Hov)
      as (l0' & lru & klru & h' & El & Hkl & Hc & E & HI' & Hpx & _).
    rewrite Hdt in Hpx.
    destruct (payload_lookup _ _ _ _ _ Hpx) as (n & Hn & H).
    exists (length (objects s)), n. eexists. split; [exact E|]. simpl.
    split; [|done].
    assert (klru ≠ k) as Hkk.
    { intros ->. rewrite lookup_insert_eq in Hc. injection Hc as <-.
      assert (l ≠ []) as Hl.
      { intros ->. pose proof (indexed_size _ _ _ (proj2 HI)) as Hsz.
        simpl in Hsz. lia. }
      destruct l as [|y l _] using rev_ind; [done|].
      change (length (objects s) :: l ++ [y])
        with ((length (objects s) :: l) ++ [y]) in El.
      apply app_inj_tail in El as [_ El].
      apply (Inv_fresh _ _ y HI); [clear; set_solver|done]. }
    rewrite lookup_delete_ne by done. apply lookup_insert_eq.
  - destruct (put_new_fits s l now k v ttl HI Hne Hk Hsum Hfit)
      as (h' & E & HI' & Hpx & _).
    rewrite Hdt in Hpx.
    destruct (payload_lookup _ _ _ _ _ Hpx) as (n & Hn & H).
    exists (length (objects s)), n. eexists. split; [exact E|]. simpl.
    split; [apply lookup_insert_eq|done].
Qed.

(** C5.  Take an engine built with a positive [max_size], in any state
    it can be in, and a Put of a non-empty key made at a positive clock
    reading with a [ttl] and a [default_ttl] that are not negative, the sum
    being exact.  The Put returns, and the node it stores for the key has
    [expiry = now + ttl] for an explicit [ttl], else [now + default_ttl]
    when the engine has one, else [0], which stands for "never".  An expiry
    is set, that is, is not [0], exactly when a [ttl] applies: a [ttl] of
    [0] sets one, and that node is expired at every later clock reading,
    whereas a node with no expiry set is expired at none.  The node is
    expired at a clock reading exactly when its expiry is set and the
    reading is past it; at the reading equal to the expiry it is not
    expired. *)
Theorem expiry_resolution_and_boundary ms dt cs t_put k v ttl :
  0 < ms →
  k ≠ EmptyString →
  0 < t_put →
  (∀ d, ttl = Some d → 0 ≤ d) →
  (∀ d, dt = Some d → 0 ≤ d) →
  exact_put t_put ttl dt →
  ∃ x n s',
    put t_put (Some k) v ttl (engine ms dt cs) = Returns tt s' ∧
    cache s' !! k = Some x ∧
    objects s' !! x = Some n ∧
    (∀ d, ttl = Some d → CacheNode.expiry n = t_put + d) ∧
    (∀ d, ttl = None → dt = Some d → CacheNode.expiry n = t_put + d) ∧
    (ttl = None → dt = None → CacheNode.expiry n = 0) ∧
    (CacheNode.expiry n ≠ 0 ↔ ttl ≠ None ∨ dt ≠ None) ∧
    (CacheNode.expiry n = 0 → ∀ now, _is_expired now n = false) ∧
    (ttl = Some 0 →
     CacheNode.expiry n ≠ 0 ∧ ∀ now, now > t_put → _is_expired now n = true) ∧
    (∀ now, expired_when_set_and_past n now) ∧
    (∀ now, _is_expired now n = true
            ↔ CacheNode.expiry n ≠ 0 ∧ now > CacheNode.expiry n) ∧
    _is_expired (CacheNode.expiry n) n = false.
Proof.
  intros Hms Hne Ht Httl Hdt Hsum%exact_put_fits.
  destruct (put_stores ms dt cs t_put k v ttl Hms Hne Hsum)
    as (x & n & s' & E & Hx & Hn & _ & _ & He).
  assert (0 ≤ CacheNode.expiry n ∧
          (CacheNode.expiry n ≠ 0 ↔ ttl ≠ None ∨ dt ≠ None)) as [Hpos Hset].
  { rewrite He. unfold put_expiry.
    destruct ttl as [t|]; [|destruct dt as [d|]].
    - specialize (Httl t eq_refl). split; [lia|]. split; [by left|lia].
    - specialize (Hdt d eq_refl). split; [lia|]. split; [by right|lia].
    - split; [done|]. split; [done|]. by intros [?|?]. }
  assert (∀ now, _is_expired now n = true
                 ↔ CacheNode.expiry n ≠ 0 ∧ now > CacheNode.expiry n) as Hiff.
  { intros now. rewrite _is_expired_iff. lia. }
  exists x, n, s'. split; [done|]. split; [done|]. split; [done|].
  split; [intros d ->; by rewrite He|].
  split; [intros d -> ->; by rewrite He|].
  split; [intros -> ->; by rewrite He|].
  split; [done|].
  split.
  { intros H0 now. apply not_true_is_false. rewrite Hiff. tauto. }
  split.
  { intros ->. simpl in He. split; [lia|].
    intros now Hnow. apply Hiff. lia. }
  split; [exact Hiff|]. split; [exact Hiff|].
  apply not_true_is_false. rewrite Hiff. lia.
Qed.

(** C9, amended.  [create_cache] takes [max_size], 1000 when left out,
    and [default_ttl], [None] when left out, and builds an engine with
    these, an empty dictionary, counters at 0, and the two sentinels
    linked to each other.  It takes no [cleanup_interval]: the engine is
    built with [cleanup_interval = 60], and no call changes that, nor
    [max_size] or [default_ttl]. *)
Theorem construction_options ms dt cs :
  max_size (create_cache_kw PyNone (Some ms) dt) = ms ∧
  max_size (create_cache_kw PyNone None dt) = 1000 ∧
  default_ttl (create_cache_kw PyNone (Some ms) dt) = dt ∧
  default_ttl (create_cache_kw PyNone None None) = None ∧
  create_cache_kw PyNone (Some ms) dt = __init__ PyNone ms dt ∧
  (∀ ms' dt', cleanup_interval (create_cache_kw PyNone ms' dt') = 60) ∧
  cache (create_cache_kw PyNone (Some ms) dt) = ∅ ∧
  recency (create_cache_kw PyNone (Some ms) dt) = Some [] ∧
  stats_of (create_cache_kw PyNone (Some ms) dt)
  = {| CacheStats.hits := 0; CacheStats.misses := 0; CacheStats.hit_rate := 0%Q;
       CacheStats.total_requests := 0; CacheStats.current_size := 0;
       CacheStats.evictions := 0; CacheStats.expired_removals := 0 |} ∧
  max_size (engine ms dt cs) = ms ∧
  default_ttl (engine ms dt cs) = dt ∧
  cleanup_interval (engine ms dt cs) = 60.
Proof.
  pose proof (engine_Good PyNone ms dt cs) as [_ Hmax Hdt Hci _].
  repeat split; done.
Qed.

End claims.

(** ** The claims on concrete engines *)

Example two_keys_recency :
  recency (run PyNoneValue (__init__ PyNoneValue 2 None) two_keys_history) = Some [2; 3]%nat
  ∧ cache (run PyNoneValue (__init__ PyNoneValue 2 None) two_keys_history) !! "a" = Some 2%nat
  ∧ cache (run PyNoneValue (__init__ PyNoneValue 2 None) two_keys_history) !! "b" = Some 3%nat.
Proof. vm_compute. done. Qed.

(** [test_statistics]: [hits = 2], [misses = 1], [total_requests = 3],
    [hit_rate = 2/3]. *)
Example statistics_after_two_hits_one_miss :
  ∃ st s',
    get_stats (run PyNoneValue (create_cache PyNoneValue 10 (Some 60)) statistics_history)
    = Returns st s' ∧
    CacheStats.hits st = 2 ∧ CacheStats.misses st = 1 ∧
    CacheStats.total_requests st = 3 ∧ CacheStats.current_size st = 1 ∧
    Qeq (CacheStats.hit_rate st) (2 # 3).
Proof. do 2 eexists. split; [vm_compute; reflexivity|]. simpl. repeat split. Qed.

(** [test_lru_eviction]: [key3] has been evicted, the keys read again and
    the new key are there. *)
Example lru_eviction_evicts_key3 :
  returned (get PyNoneValue 104 "key3"
              (run PyNoneValue (create_cache PyNoneValue 10 (Some 60)) lru_eviction_history))
  = Some PyNoneValue ∧
  returned (get PyNoneValue 104 "key0"
              (run PyNoneValue (create_cache PyNoneValue 10 (Some 60)) lru_eviction_history))
  = Some (PyStr "key0") ∧
  returned (get PyNoneValue 104 "new_key"
              (run PyNoneValue (create_cache PyNoneValue 10 (Some 60)) lru_eviction_history))
  = Some (PyStr "new_value") ∧
  current_size (run PyNoneValue (create_cache PyNoneValue 10 (Some 60)) lru_eviction_history)
  = 10 ∧
  evictions (run PyNoneValue (create_cache PyNoneValue 10 (Some 60)) lru_eviction_history)
  = 1.
Proof. vm_compute. done. Qed.

(** C1 on the engine of [two_keys_history], which is full: putting ["c"]
    evicts ["b"], the least recently used. *)
Lemma put_new_key_evicts_lru_witness :
  0 < 2 ∧ "c" ≠ EmptyString ∧
  cache (run PyNoneValue (__init__ PyNoneValue 2 None) two_keys_history) !! "c" = None ∧
  exact_put 103 (Some 5) None ∧
  ∃ s',
    put 103 (Some "c") (PyStr "vc") (Some 5)
      (run PyNoneValue (__init__ PyNoneValue 2 None) two_keys_history) = Returns tt s' ∧
    recency s' = Some [4; 2]%nat ∧
    cache s' !! "b" = None ∧
    evictions s' = 1 ∧
    current_size s' ≤ max_size s'.
Proof.
  assert (0 < 2) as H1 by lia.
  assert ("c" ≠ EmptyString) as H2 by discriminate.
  assert (cache (run PyNoneValue (__init__ PyNoneValue 2 None) two_keys_history) !! "c" = None)
    as H3 by (vm_compute; reflexivity).
  assert (exact_put 103 (Some 5) None) as H4 by (unfold exact_put, exact_sum; lia).
  split; [exact H1|]. split; [exact H2|]. split; [exact H3|]. split; [exact H4|].
  destruct (put_new_key_evicts_lru PyNoneValue 2 None two_keys_history 103 "c"
              (PyStr "vc") (Some 5) H1 H2 H3 H4) as (l & s' & _ & E & _ & _ & Hb & _).
  exists s'. split; [exact E|].
  assert (Returns tt s'
          = put 103 (Some "c") (PyStr "vc") (Some 5)
              (run PyNoneValue (__init__ PyNoneValue 2 None) two_keys_history)) as E'
    by (symmetry; exact E).
  vm_compute in E'. injection E' as ->.
  split; [vm_compute; reflexivity|]. split; [vm_compute; reflexivity|].
  split; [reflexivity|]. vm_compute. discriminate.
Defined.

(** C3 on the engine of [two_keys_history]: ["b"] was put at 101 with a
    [ttl] of 5, so its node 3 has the expiry 106; a Get at 107 finds it
    expired and removes it. *)
Lemma get_miss_expired_or_hit_witness :
  ∃ s',
    get PyNoneValue 107 "b"
      (run PyNoneValue (__init__ PyNoneValue 2 None) two_keys_history)
    = Returns PyNoneValue s' ∧
    cache s' !! "b" = None ∧
    recency s' = Some [2%nat] ∧
    expired_removals s' = 1 ∧
    misses s' = 1 ∧
    hits s' = 1.
Proof.
  pose proof (get_miss_expired_or_hit PyNoneValue 2 None two_keys_history 107 "b") as H.
  assert (cache (run PyNoneValue (__init__ PyNoneValue 2 None) two_keys_history) !! "b"
          = Some 3%nat) as Hk by (vm_compute; reflexivity).
  rewrite Hk in H. destruct H as (n & l1 & l2 & s' & Hn & _ & H).
  assert (objects (run PyNoneValue (__init__ PyNoneValue 2 None) two_keys_history) !! 3%nat
          = Some (CacheNode.mk "b" (PyStr "vb") 106 (Some 2%nat) (Some 1%nat))) as Hn'
    by (vm_compute; reflexivity).
  rewrite Hn' in Hn. injection Hn as <-.
  destruct (decide (CacheNode.expiry (CacheNode.mk "b" (PyStr "vb") 106
                                        (Some 2%nat) (Some 1%nat)) > 0
                    ∧ 107 > CacheNode.expiry (CacheNode.mk "b" (PyStr "vb") 106
                                                (Some 2%nat) (Some 1%nat))))
    as [_|Hno]; [|exfalso; apply Hno; simpl; lia].
  destruct H as (E & _).
  exists s'. split; [exact E|].
  assert (Returns PyNoneValue s'
          = get PyNoneValue 107 "b"
              (run PyNoneValue (__init__ PyNoneValue 2 None) two_keys_history)) as E'
    by (symmetry; exact E).
  vm_compute in E'. injection E' as ->.
  split; [vm_compute; reflexivity|]. split; [vm_compute; reflexivity|].
  split; [reflexivity|]. split; reflexivity.
Defined.

(** C4 on the engine of [two_keys_history]: putting ["b"] again at 103 with
    a [ttl] of 7 rewrites node 3, whose expiry becomes 110, and moves it to
    the front. *)
Lemma put_existing_key_updates_in_place_witness :
  "b" ≠ EmptyString ∧
  cache (run PyNoneValue (__init__ PyNoneValue 2 None) two_keys_history) !! "b" = Some 3%nat ∧
  exact_put 103 (Some 7) None ∧
  ∃ s',
    put 103 (Some "b") (PyStr "new") (Some 7)
      (run PyNoneValue (__init__ PyNoneValue 2 None) two_keys_history) = Returns tt s' ∧
    payload (objects s') 3%nat = Some ("b", PyStr "new", 110) ∧
    recency s' = Some [3; 2]%nat ∧
    current_size s' = 2 ∧
    evictions s' = 0.
Proof.
  assert ("b" ≠ EmptyString) as H1 by discriminate.
  assert (cache (run PyNoneValue (__init__ PyNoneValue 2 None) two_keys_history) !! "b"
          = Some 3%nat) as H2 by (vm_compute; reflexivity).
  assert (exact_put 103 (Some 7) None) as H3 by (unfold exact_put, exact_sum; lia).
  split; [exact H1|]. split; [exact H2|]. split; [exact H3|].
  destruct (put_existing_key_updates_in_place PyNoneValue 2 None two_keys_history 103
              "b" 3%nat (PyStr "new") (Some 7) H1 H2 H3)
    as (l1 & l2 & s' & _ & E & Hp & _).
  exists s'. split; [exact E|]. split; [exact Hp|].
  assert (Returns tt s'
          = put 103 (Some "b") (PyStr "new") (Some 7)
              (run PyNoneValue (__init__ PyNoneValue 2 None) two_keys_history)) as E'
    by (symmetry; exact E).
  vm_compute in E'. injection E' as ->.
  split; [vm_compute; reflexivity|]. split; reflexivity.
Defined.

(** C5 on a Put with [ttl = 0] into an engine whose [default_ttl] is 60:
    the [ttl] wins, the expiry is the clock reading of the Put and not
    "never"; the node is not expired at that reading and is expired one
    tick later. *)
Lemma expiry_resolution_and_boundary_witness :
  0 < 1000 ∧ "k" ≠ EmptyString ∧ 0 < 1700000000 ∧
  (∀ d, Some 0 = Some d → 0 ≤ d) ∧
  (∀ d, Some 60 = Some d → 0 ≤ d) ∧
  exact_put 1700000000 (Some 0) (Some 60) ∧
  ∃ x n s',
    put 1700000000 (Some "k") (PyStr "v") (Some 0)
      (run PyNoneValue (__init__ PyNoneValue 1000 (Some 60)) []) = Returns tt s' ∧
    cache s' !! "k" = Some x ∧
    objects s' !! x = Some n ∧
    CacheNode.expiry n = 1700000000 ∧
    CacheNode.expiry n ≠ 0 ∧
    _is_expired 1700000000 n = false ∧
    _is_expired 1700000001 n = true.
Proof.
  assert (0 < 1000) as H1 by lia.
  assert ("k" ≠ EmptyString) as H2 by discriminate.
  assert (0 < 1700000000) as H3 by lia.
  assert (∀ d, Some 0 = Some d → 0 ≤ d) as H4 by (intros d [= <-]; lia).
  assert (∀ d, Some 60 = Some d → 0 ≤ d) as H5 by (intros d [= <-]; lia).
  assert (exact_put 1700000000 (Some 0) (Some 60)) as H6
    by (unfold exact_put, exact_sum; lia).
  split; [exact H1|]. split; [exact H2|]. split; [exact H3|].
  split; [exact H4|]. split; [exact H5|]. split; [exact H6|].
  destruct (expiry_resolution_and_boundary PyNoneValue 1000 (Some 60) [] 1700000000
              "k" (PyStr "v") (Some 0) H1 H2 H3 H4 H5 H6)
    as (x & n & s' & E & Hx & Hn & He & _ & _ & _ & _ & Hz & _ & _ & Hb).
  exists x, n, s'. split; [exact E|]. split; [exact Hx|]. split; [exact Hn|].
  split; [rewrite (He 0 eq_refl); reflexivity|].
  split; [apply Hz; reflexivity|].
  split.
  - replace 1700000000 with (CacheNode.expiry n) at 1
      by (rewrite (He 0 eq_refl); reflexivity).
    exact Hb.
  - apply Hz; [reflexivity|lia].
Defined.

(** C6 as the specification has it fails on a Put with a key that is not
    empty and a [ttl] of [10^400], an int that no float holds: the Put
    raises [OverflowError]. *)
Lemma overflowing_ttl_is_a_second_failure :
  failure PyNoneValue (run PyNoneValue (__init__ PyNoneValue 2 None) two_keys_history)
    (103, Put (Some "c") (PyStr "vc") (Some (10 ^ 400)))
  = Some OverflowError ∧
  ¬ fails_only_on_invalid_key PyNoneValue
      (run PyNoneValue (__init__ PyNoneValue 2 None) two_keys_history)
      (103, Put (Some "c") (PyStr "vc") (Some (10 ^ 400))).
Proof.
  assert (failure PyNoneValue
            (run PyNoneValue (__init__ PyNoneValue 2 None) two_keys_history)
            (103, Put (Some "c") (PyStr "vc") (Some (10 ^ 400)))
          = Some OverflowError) as Hf by (vm_compute; reflexivity).
  split; [exact Hf|].
  intros H. destruct (H OverflowError Hf) as [He _]. discriminate He.
Defined.

(** C9 as the specification has it fails: no choice of construction
    arguments gives an engine whose [cleanup_interval] is 5. *)
Lemma cleanup_interval_is_not_an_option :
  ¬ accepts_cleanup_interval PyNoneValue 5.
Proof.
  intros (ms & dt & H). vm_compute in H. discriminate H.
Defined.

(** ** The entries after each call *)

Section entry_view.
Context {Any : Type} (PyNone : Any).

Local Abbreviation node := (CacheNode.t Any).
Local Abbreviation self := (ThreadSafeCache.t Any).
Local Abbreviation entry := (string * Any * Z)%type.

Implicit Types (h : list node) (s : self) (a c x : addr) (l : list addr)
  (k : string) (n : node) (now : Z) (e : entry) (es : list entry).

(** Reading a field of an updated state. *)
Local Ltac fields :=
  cbn [objects cache head tail with_objects with_cache with_hits with_misses
       with_evictions with_expired_removals].

Lemma entries_of_app h l1 l2 :
  entries_of h (l1 ++ l2) = entries_of h l1 ++ entries_of h l2.
Proof. apply omap_app. Qed.

Lemma entries_of_cons h a l e :
  payload h a = Some e → entries_of h (a :: l) = e :: entries_of h l.
Proof. intros Ha. unfold entries_of. csimpl. by rewrite Ha. Qed.

Lemma entries_of_ext h h' l :
  (∀ a, a ∈ l → payload h' a = payload h a) → entries_of h' l = entries_of h l.
Proof.
  unfold entries_of. induction l as [|a l IH]; intros Hp; [done|].
  csimpl. rewrite (Hp a) by apply list_elem_of_here.
  rewrite IH; [done|].
  intros b Hb. by apply Hp, list_elem_of_further.
Qed.

Lemma payload_keyof h a e : payload h a = Some e → keyof h a = Some (entry_key e).
Proof. intros H. rewrite keyof_payload, H. done. Qed.

Lemma Inv_entries s l : Inv s l → entries s = entries_of (objects s) l.
Proof.
  intros [HL _]. unfold entries. by rewrite (Linked_recency _ _ HL).
Qed.

Lemma Inv_payload s l a :
  Inv s l → a ∈ l → ∃ e, payload (objects s) a = Some e ∧
                         cache s !! entry_key e = Some a.
Proof.
  intros [HL HX] Ha.
  destruct (linked_valid _ _ _ _ HL a) as [n Hn]; [clear -Ha; set_solver|].
  exists (CacheNode.key n, CacheNode.value n, CacheNode.expiry n).
  split; [unfold payload; by rewrite Hn|].
  apply (indexed_iff _ _ _ HX). split; [done|]. unfold keyof. by rewrite Hn.
Qed.

Lemma entries_of_length s l l' :
  Inv s l → l' ⊆ l → length (entries_of (objects s) l') = length l'.
Proof.
  intros HI. induction l' as [|a l' IH]; intros Hsub; [done|].
  destruct (Inv_payload s l a HI) as (e & He & _); [set_solver|].
  rewrite (entries_of_cons _ _ _ _ He). simpl. rewrite IH; [done|set_solver].
Qed.

Lemma Inv_entries_length s l : Inv s l → length (entries s) = size (cache s).
Proof.
  intros HI. rewrite (Inv_entries _ _ HI), (entries_of_length s l l HI) by done.
  symmetry. apply (indexed_size _ _ _ (proj2 HI)).
Qed.

(** The entries of [l'] are the entries of the keys whose node is in
    [l']. *)
Lemma elem_of_entries_of s l l' e :
  Inv s l → l' ⊆ l →
  e ∈ entries_of (objects s) l' ↔
  ∃ a, a ∈ l' ∧ cache s !! entry_key e = Some a ∧ payload (objects s) a = Some e.
Proof.
  intros HI Hsub. unfold entries_of. rewrite list_elem_of_omap. split.
  - intros (a & Ha & He). exists a. split; [done|]. split; [|done].
    destruct (Inv_payload s l a HI) as (e' & He' & Hc); [set_solver|].
    rewrite He in He'. by injection He' as <-.
  - intros (a & Ha & _ & He). eauto.
Qed.

Lemma Inv_keys s l k : Inv s l → k ∈ keys s ↔ is_Some (cache s !! k).
Proof.
  intros HI. unfold keys. rewrite (Inv_entries _ _ HI), list_elem_of_fmap. split.
  - intros (e & -> & He). apply (elem_of_entries_of s l l e HI) in He; [|done].
    destruct He as (a & _ & Hc & _). eauto.
  - intros [a Ha]. pose proof Ha as Ha'.
    apply (indexed_iff _ _ _ (proj2 HI)) in Ha as [Hin Hk].
    destruct (Inv_payload s l a HI Hin) as (e & He & Hc).
    exists e. split.
    + apply payload_keyof in He. rewrite Hk in He. by injection He.
    + apply (elem_of_entries_of s l l e HI); [done|]. eauto.
Qed.

Lemma without_entries_of h l k :
  (∀ a, a ∈ l → keyof h a ≠ Some k) →
  without k (entries_of h l) = entries_of h l.
Proof.
  induction l as [|a l IH]; intros Hk; [done|].
  unfold entries_of. csimpl. fold (entries_of h l).
  destruct (payload h a) as [e|] eqn:He; csimpl.
  - unfold without. rewrite filter_cons_True.
    + fold (without k (entries_of h l)). rewrite IH; [done|].
      intros b Hb. by apply Hk, list_elem_of_further.
    + intros Hek. apply (Hk a); [apply list_elem_of_here|].
      rewrite (payload_keyof _ _ _ He). by rewrite Hek.
  - apply IH. intros b Hb. by apply Hk, list_elem_of_further.
Qed.

Lemma Inv_other_keys s l1 x l2 k a :
  Inv s (l1 ++ x :: l2) → cache s !! k = Some x →
  a ∈ l1 ++ l2 → keyof (objects s) a ≠ Some k.
Proof.
  intros HI Hk Ha Hka.
  assert (cache s !! k = Some a) as Hc.
  { apply (indexed_iff _ _ _ (proj2 HI)). split; [|done]. clear -Ha. set_solver. }
  assert (a = x) as -> by congruence.
  pose proof (Linked_NoDup _ _ _ _ (proj1 HI)) as Hnd. clear -Hnd Ha. nodup.
Qed.

(** Dropping the entry of an indexed key is unlinking its node. *)
Lemma without_unlinked s l1 x l2 k :
  Inv s (l1 ++ x :: l2) → cache s !! k = Some x →
  without k (entries s) = entries_of (objects s) (l1 ++ l2).
Proof.
  intros HI Hk. rewrite (Inv_entries _ _ HI).
  destruct (Inv_lookup _ _ _ _ HI Hk) as (n & Hn & Hkn).
  rewrite !entries_of_app.
  rewrite (entries_of_cons _ x l2 (k, CacheNode.value n, CacheNode.expiry n))
    by (unfold payload; rewrite Hn; simpl; by rewrite Hkn).
  unfold without. rewrite filter_app, filter_cons_False by (simpl; tauto).
  fold (without k (entries_of (objects s) l1)) (without k (entries_of (objects s) l2)).
  rewrite !without_entries_of; [done| |].
  - intros a Ha. eapply Inv_other_keys; [done|done|]. clear -Ha. set_solver.
  - intros a Ha. eapply Inv_other_keys; [done|done|]. clear -Ha. set_solver.
Qed.

Lemma without_absent s l k :
  Inv s l → cache s !! k = None → without k (entries s) = entries s.
Proof.
  intros HI Hk. rewrite (Inv_entries _ _ HI). apply without_entries_of.
  intros a Ha Hka.
  assert (cache s !! k = Some a) as Hc
    by (apply (indexed_iff _ _ _ (proj2 HI)); done).
  congruence.
Qed.

Lemma find_entry_present s l k x n :
  Inv s l → cache s !! k = Some x → objects s !! x = Some n →
  find_entry k (entries s) = Some (k, CacheNode.value n, CacheNode.expiry n).
Proof.
  intros HI Hk Hn.
  destruct (Inv_split _ _ _ _ HI Hk) as (l1 & l2 & -> & Hkx).
  destruct (Inv_lookup _ _ _ _ HI Hk) as (n' & Hn' & Hkn).
  assert (n' = n) as -> by congruence.
  rewrite (Inv_entries _ _ HI), entries_of_app.
  rewrite (entries_of_cons _ x l2 (k, CacheNode.value n, CacheNode.expiry n))
    by (unfold payload; rewrite Hn; simpl; by rewrite Hkn).
  unfold find_entry. rewrite filter_app, filter_cons_True by done.
  assert (filter (λ e : entry, entry_key e = k) (entries_of (objects s) l1) = []) as ->;
    [|done].
  pose proof (without_entries_of (objects s) l1 k) as Hw.
  assert (∀ a, a ∈ l1 → keyof (objects s) a ≠ Some k) as Hoth.
  { intros a Ha. eapply Inv_other_keys; [done|done|]. clear -Ha. set_solver. }
  specialize (Hw Hoth). clear -Hw. unfold without in Hw.
  induction (entries_of (objects s) l1) as [|e es IH]; [done|].
  destruct (decide (entry_key e = k)) as [Hek|Hek].
  - rewrite filter_cons_False in Hw by tauto.
    pose proof (length_filter (λ e0 : entry, entry_key e0 ≠ k) es) as Hlen.
    rewrite Hw in Hlen. simpl in Hlen. lia.
  - rewrite filter_cons_True in Hw by done. rewrite filter_cons_False by done.
    apply IH. by injection Hw.
Qed.

Lemma find_entry_absent s l k :
  Inv s l → cache s !! k = None → find_entry k (entries s) = None.
Proof.
  intros HI Hk. unfold find_entry.
  destruct (filter _ _) as [|e es] eqn:E; [done|]. exfalso.
  assert (e ∈ filter (λ e : entry, entry_key e = k) (entries s)) as He
    by (rewrite E; apply list_elem_of_here).
  apply list_elem_of_filter in He as [Hek He].
  assert (k ∈ keys s) as Hin.
  { unfold keys. apply list_elem_of_fmap. eauto. }
  apply (Inv_keys s l k HI) in Hin as [a Ha]. congruence.
Qed.

Lemma get_view s l now k :
  Inv s l →
  ∃ r s',
    get PyNone now k s = Returns r s' ∧
    (∃ l', Inv s' l') ∧ same_config s s' ∧ evictions s' = evictions s ∧
    match find_entry k (entries s) with
    | None =>
        r = PyNone ∧ entries s' = entries s ∧
        hits s' = hits s ∧ misses s' = misses s + 1 ∧
        expired_removals s' = expired_removals s
    | Some e =>
        if entry_expired now e then
          r = PyNone ∧ entries s' = without k (entries s) ∧
          hits s' = hits s ∧ misses s' = misses s + 1 ∧
          expired_removals s' = expired_removals s + 1
        else
          r = entry_value e ∧ entries s' = e :: without k (entries s) ∧
          hits s' = hits s + 1 ∧ misses s' = misses s ∧
          expired_removals s' = expired_removals s
    end.
Proof.
  intros HI. destruct (cache s !! k) as [x|] eqn:Hk.
  2:{ rewrite (find_entry_absent s l k HI Hk).
      exists PyNone, (with_misses (misses s + 1) s).
      split; [by apply get_absent_returns|]. split; [by exists l|].
      by repeat split. }
  destruct (Inv_lookup _ _ _ _ HI Hk) as (n & Hx & Hkn).
  rewrite (find_entry_present s l k x n HI Hk Hx).
  change (entry_expired now (k, CacheNode.value n, CacheNode.expiry n))
    with (_is_expired now n).
  destruct (_is_expired now n) eqn:Hexp.
  - destruct (get_expired_returns PyNone s l now k x n HI Hk Hx Hexp)
      as (l1 & l2 & h' & -> & E & HI' & Hsp & Hlen).
    eexists _, _. split; [exact E|]. split; [by exists (l1 ++ l2)|].
    split; [by repeat split|]. split; [done|]. split; [done|].
    split; [|done].
    rewrite (without_unlinked s l1 x l2 k HI Hk).
    change (entries (with_misses _ (with_expired_removals _ ?t))) with (entries t).
    rewrite (Inv_entries _ _ HI'). fields.
    apply entries_of_ext. intros a _. apply Hsp.
  - destruct (get_live_returns PyNone s l now k x n HI Hk Hx Hexp)
      as (l1 & l2 & h' & -> & E & HI' & Hsp & Hlen).
    eexists _, _. split; [exact E|]. split; [by exists (x :: l1 ++ l2)|].
    split; [by repeat split|]. split; [done|]. split; [done|].
    split; [|done].
    rewrite (without_unlinked s l1 x l2 k HI Hk).
    change (entries (with_hits _ ?t)) with (entries t).
    rewrite (Inv_entries _ _ HI'). fields.
    rewrite (entries_of_cons _ x _ (k, CacheNode.value n, CacheNode.expiry n)).
    + f_equal. apply entries_of_ext. intros a _. apply Hsp.
    + rewrite Hsp. unfold payload. rewrite Hx. simpl. by rewrite Hkn.
Qed.

Lemma delete_view s l k :
  Inv s l →
  ∃ s',
    delete k s = Returns (bool_decide (k ∈ keys s)) s' ∧
    (∃ l', Inv s' l') ∧ same_config s s' ∧
    entries s' = without k (entries s) ∧
    hits s' = hits s ∧ misses s' = misses s ∧ evictions s' = evictions s ∧
    expired_removals s' = expired_removals s.
Proof.
  intros HI. destruct (cache s !! k) as [x|] eqn:Hk.
  - destruct (delete_present_returns s l k x HI Hk)
      as (l1 & l2 & h' & -> & E & HI' & Hsp & Hlen).
    eexists. split.
    { rewrite bool_decide_eq_true_2; [exact E|].
      apply (Inv_keys _ _ _ HI). by rewrite Hk. }
    split; [by exists (l1 ++ l2)|]. split; [by repeat split|].
    split; [|done].
    rewrite (without_unlinked s l1 x l2 k HI Hk), (Inv_entries _ _ HI'). fields.
    apply entries_of_ext. intros a _. apply Hsp.
  - exists s. split.
    { rewrite bool_decide_eq_false_2; [by apply delete_absent_returns|].
      rewrite (Inv_keys _ _ _ HI), Hk. by intros [? ?]. }
    split; [by exists l|]. split; [by repeat split|].
    split; [|done]. symmetry. by eapply without_absent.
Qed.

Lemma clear_view s l :
  Inv s l →
  ∃ s',
    clear s = Returns tt s' ∧
    Inv s' [] ∧ same_config s s' ∧
    entries s' = [] ∧ cache s' = ∅ ∧
    hits s' = hits s ∧ misses s' = misses s ∧ evictions s' = evictions s ∧
    expired_removals s' = expired_removals s.
Proof.
  intros HI. destruct (clear_returns s l HI) as (h' & E & HI' & _).
  eexists. split; [exact E|]. split; [done|]. split; [by repeat split|].
  split; [|done]. by rewrite (Inv_entries _ _ HI').
Qed.

Lemma put_view s l now k v ttl :
  Inv s l →
  k ≠ EmptyString →
  put_overflows ttl (default_ttl s) = false →
  ∃ s',
    put now (Some k) v ttl s = Returns tt s' ∧
    (∃ l', Inv s' l') ∧ same_config s s' ∧
    entries s'
    = put_entries (max_size s) (k, v, put_expiry now ttl (default_ttl s)) (entries s) ∧
    evictions s'
    = evictions s
      + put_evicts (max_size s) (k, v, put_expiry now ttl (default_ttl s)) (entries s) ∧
    hits s' = hits s ∧ misses s' = misses s ∧
    expired_removals s' = expired_removals s.
Proof.
  intros HI Hne Hsum. unfold put_entries, put_evicts.
  set (e := (k, v, put_expiry now ttl (default_ttl s))).
  change (entry_key e) with k. fold (keys s).
  destruct (decide (k ∈ keys s)) as [Hin|Hnin]; subst e.
  { apply (Inv_keys _ _ _ HI) in Hin as [x Hk].
    destruct (put_existing_returns s l now k x v ttl HI Hne Hk Hsum)
      as (l1 & l2 & h' & -> & E & HI' & Hpx & Hpo & Hlen).
    eexists. split; [exact E|]. split; [by exists (x :: l1 ++ l2)|].
    split; [by repeat split|]. split; [|simpl; repeat split; lia].
    rewrite (without_unlinked s l1 x l2 k HI Hk), (Inv_entries _ _ HI'). fields.
    rewrite (entries_of_cons _ x _ _ Hpx). f_equal.
    apply entries_of_ext. intros a Ha. apply Hpo. intros ->.
    by apply (Linked_not_in _ _ _ _ _ _ (proj1 HI)), list_elem_of_further,
      elem_of_app; left. }
  assert (cache s !! k = None) as Hk.
  { destruct (cache s !! k) eqn:Hk; [|done].
    exfalso. apply Hnin, (Inv_keys _ _ _ HI). by rewrite Hk. }
  rewrite (Inv_entries_length _ _ HI).
  assert (∀ a, a ∈ l → a ≠ length (objects s)) as Hfresh.
  { intros a Ha. apply (Inv_fresh _ _ _ HI). clear -Ha. set_solver. }
  destruct (decide (Z.of_nat (size (cache s)) + 1 > max_size s)) as [Hov|Hfit].
  - destruct (put_new_evicts s l now k v ttl HI Hne Hk Hsum)
      as (l0 & lru & klru & h' & El & Hkl & Hc & E & HI' & Hpx & Hpo & Hlen); [lia|].
    eexists. split; [exact E|]. split; [by exists l0|].
    split; [by repeat split|]. split; [|simpl; repeat split; lia].
    rewrite (Inv_entries (with_evictions (evictions s + 1) _) _ HI'). fields.
    assert (entries_of h' (l0 ++ [lru])
            = (k, v, put_expiry now ttl (default_ttl s)) :: entries s) as Hall.
    { rewrite <- El, (entries_of_cons _ _ _ _ Hpx), (Inv_entries _ _ HI).
      f_equal. apply entries_of_ext. intros a Ha. by apply Hpo, Hfresh. }
    assert (∃ e, payload h' lru = Some e) as [elru He].
    { rewrite keyof_payload in Hkl. destruct (payload h' lru); [eauto|done]. }
    rewrite entries_of_app, (entries_of_cons _ lru [] elru He) in Hall.
    rewrite <- Hall. change (entries_of h' []) with (@nil entry).
    by rewrite removelast_last.
  - destruct (put_new_fits s l now k v ttl HI Hne Hk Hsum)
      as (h' & E & HI' & Hpx & Hpo & Hlen); [lia|].
    eexists. split; [exact E|]. split; [by eexists|].
    split; [by repeat split|]. split; [|simpl; repeat split; lia].
    rewrite (Inv_entries _ _ HI'). fields.
    rewrite (entries_of_cons _ _ _ _ Hpx), (Inv_entries _ _ HI).
    f_equal. apply entries_of_ext. intros a Ha. by apply Hpo, Hfresh.
Qed.

Lemma filter_ext_elem {A} (P Q : A → Prop) `{!∀ u, Decision (P u)}
    `{!∀ u, Decision (Q u)} (us : list A) :
  (∀ u, u ∈ us → (P u ↔ Q u)) → filter P us = filter Q us.
Proof.
  induction us as [|u us IH]; intros Hext; [done|].
  rewrite !filter_cons.
  destruct (decide (P u)) as [HP|HP], (decide (Q u)) as [HQ|HQ].
  - f_equal. apply IH. intros y Hy. by apply Hext, list_elem_of_further.
  - exfalso. by apply HQ, (Hext u); [apply list_elem_of_here|].
  - exfalso. by apply HP, (Hext u); [apply list_elem_of_here|].
  - apply IH. intros y Hy. by apply Hext, list_elem_of_further.
Qed.

Lemma length_filter_bool {A} (f : A → bool) (us : list A) :
  (length (filter (λ u, f u = true) us) + length (filter (λ u, f u = false) us)
   = length us)%nat.
Proof.
  induction us as [|u us IH]; [done|].
  rewrite !filter_cons. destruct (f u) eqn:E.
  - rewrite decide_True, decide_False by done. simpl. lia.
  - rewrite decide_False, decide_True by done. simpl. lia.
Qed.

(** The first loop of the sweep collects the keys whose node is expired,
    and assigns nothing. *)
Lemma collect_expired_spec s now (items : list (string * addr)) :
  (∀ k a, (k, a) ∈ items → is_Some (objects s !! a)) →
  ∃ ks, collect_expired now items s = Returns ks s ∧
        ks `sublist_of` items.*1 ∧
        ∀ k, k ∈ ks ↔ ∃ a n, (k, a) ∈ items ∧ objects s !! a = Some n
                             ∧ _is_expired now n = true.
Proof.
  induction items as [|[k a] items IH]; intros Hv; simpl.
  - exists []. split; [done|]. split; [constructor|].
    intros k. split; [by intros ?%elem_of_nil|].
    by intros (a & n & ?%elem_of_nil & _).
  - destruct (Hv k a) as [n Hn]; [apply list_elem_of_here|].
    destruct IH as (ks & E & Hsub & Hks).
    { intros k' a' Hin. apply (Hv k'). by apply list_elem_of_further. }
    eexists. split.
    { erewrite bind_returns; [|by apply load_returns].
      erewrite bind_returns; [|done]. done. }
    fold (_is_expired now n). destruct (_is_expired now n) eqn:Hexp.
    + split; [by constructor|]. intros k'. rewrite elem_of_cons, Hks. split.
      * intros [->|(a' & n' & Hin & H)].
        -- exists a, n. split; [apply list_elem_of_here|done].
        -- exists a', n'. split; [by apply list_elem_of_further|done].
      * intros (a' & n' & Hin & Hn' & He).
        apply elem_of_cons in Hin as [[= -> ->]|Hin]; [by left|].
        right. eauto.
    + split; [by constructor|]. intros k'. rewrite Hks. split.
      * intros (a' & n' & Hin & H).
        exists a', n'. split; [by apply list_elem_of_further|done].
      * intros (a' & n' & Hin & Hn' & He).
        apply elem_of_cons in Hin as [[= -> ->]|Hin]; [congruence|eauto].
Qed.

(** The second loop of the sweep drops the entries of the collected
    keys. *)
Lemma remove_expired_view ks : ∀ s l,
  Inv s l →
  NoDup ks →
  (∀ k, k ∈ ks → is_Some (cache s !! k)) →
  ∃ s' l',
    remove_expired ks s = Returns tt s' ∧
    Inv s' l' ∧ same_config s s' ∧
    entries s' = filter (λ e, entry_key e ∉ ks) (entries s) ∧
    (length (entries s') + length ks = length (entries s))%nat ∧
    hits s' = hits s ∧ misses s' = misses s ∧ evictions s' = evictions s ∧
    expired_removals s' = expired_removals s + Z.of_nat (length ks).
Proof.
  induction ks as [|k ks IH]; intros s l HI Hnd Hin.
  - exists s, l. split; [done|]. split; [done|]. split; [by repeat split|].
    split.
    { induction (entries s) as [|e es IHes]; [done|].
      rewrite filter_cons_True by apply not_elem_of_nil. by f_equal. }
    simpl. repeat split; lia.
  - destruct (Hin k) as [x Hk]; [apply list_elem_of_here|].
    destruct (Inv_split _ _ _ _ HI Hk) as (l1 & l2 & -> & Hkx).
    destruct (unlink_returns s l1 x l2 (proj1 HI)) as (h' & E & HL' & Hsp & Hlen).
    apply NoDup_cons in Hnd as [Hk' Hnd].
    set (s1 := with_expired_removals (expired_removals s + 1)
                 (with_cache (base.delete k (cache s)) (with_objects h' s))).
    assert (Inv s1 (l1 ++ l2)) as HI1 by (by eapply Inv_drop).
    assert (entries s1 = without k (entries s)) as Hes1.
    { rewrite (without_unlinked s l1 x l2 k HI Hk), (Inv_entries _ _ HI1).
      apply entries_of_ext. intros a _. apply Hsp. }
    destruct (IH s1 (l1 ++ l2) HI1 Hnd)
      as (s' & l' & E' & HI' & Hcfg & Hes & Hlen' & Hh & Hm & He & Hr).
    { intros k0 Hk0. simpl. rewrite lookup_delete_ne.
      - by apply Hin, list_elem_of_further.
      - by intros ->. }
    exists s', l'. split; [|split; [done|split; [|split; [|split]]]].
    + simpl. erewrite bind_returns; [|by unfold cache_getitem; rewrite Hk].
      erewrite bind_returns; [|done].
      erewrite bind_returns; [|by eapply del_cache_returns].
      erewrite bind_returns; [|done].
      done.
    + destruct Hcfg as (? & ? & ? & ? & ? & ?). by repeat split.
    + rewrite Hes, Hes1. unfold without. rewrite list_filter_filter.
      apply list_filter_iff. intros e. rewrite elem_of_cons. tauto.
    + rewrite Hes1 in Hlen'.
      assert (length (without k (entries s)) + 1 = length (entries s))%nat; [|simpl; lia].
      rewrite <- Hes1, (Inv_entries_length _ _ HI1), (Inv_entries_length _ _ HI).
      simpl. rewrite map_size_delete_Some by done.
      pose proof (indexed_size _ _ _ (proj2 HI)) as Hsz.
      rewrite length_app in Hsz. simpl in Hsz. lia.
    + simpl in *. repeat split; try done. lia.
Qed.

Lemma sweep_view s l now :
  Inv s l →
  ∃ s',
    _cleanup_expired now s = Returns tt s' ∧
    (∃ l', Inv s' l') ∧ same_config s s' ∧
    entries s' = filter (λ e, entry_expired now e = false) (entries s) ∧
    hits s' = hits s ∧ misses s' = misses s ∧ evictions s' = evictions s ∧
    expired_removals s'
    = expired_removals s
      + Z.of_nat (length (filter (λ e, entry_expired now e = true) (entries s))) ∧
    (filter (λ e, entry_expired now e = true) (entries s) = [] → s' = s).
Proof.
  intros HI.
  destruct (collect_expired_spec s now (map_to_list (cache s)))
    as (ks & E & Hsub & Hks).
  { intros k a Hka. apply elem_of_map_to_list in Hka.
    destruct (Inv_lookup _ _ _ _ HI Hka) as (n & -> & _). done. }
  assert (∀ e, e ∈ entries s → (entry_key e ∈ ks ↔ entry_expired now e = true))
    as Hexp.
  { intros e He. rewrite (Inv_entries _ _ HI) in He.
    apply (elem_of_entries_of s l l e HI) in He as (a & _ & Hc & Hp); [|done].
    destruct (Inv_lookup _ _ _ _ HI Hc) as (n & Hn & _).
    assert (e = (entry_key e, CacheNode.value n, CacheNode.expiry n)) as Hen.
    { unfold payload in Hp. rewrite Hn in Hp. simpl in Hp. injection Hp as <-.
      done. }
    rewrite Hks. split.
    - intros (a' & n' & Hin & Hn' & Hx). apply elem_of_map_to_list in Hin.
      assert (a' = a) as -> by congruence. assert (n' = n) as -> by congruence.
      by rewrite Hen.
    - intros Hx. exists a, n. split; [by apply elem_of_map_to_list|].
      split; [done|]. by rewrite Hen in Hx. }
  destruct (remove_expired_view ks s l HI)
    as (s' & l' & E' & HI' & Hcfg & Hes & Hlen & Hh & Hm & He & Hr).
  { eapply sublist_NoDup; [|done]. apply NoDup_fst_map_to_list. }
  { intros k Hk. apply Hks in Hk as (a & n & Hin & _).
    apply elem_of_map_to_list in Hin. by rewrite Hin. }
  assert (entries s' = filter (λ e, entry_expired now e = false) (entries s)) as Hes'.
  { rewrite Hes. apply filter_ext_elem. intros e Hin. rewrite (Hexp e Hin).
    by destruct (entry_expired now e). }
  exists s'. split.
  { unfold _cleanup_expired.
    erewrite bind_returns; [|done].
    erewrite bind_returns; [|done].
    done. }
  split; [by exists l'|]. split; [done|]. split; [done|].
  split; [done|]. split; [done|]. split; [done|]. split.
  - rewrite Hr. f_equal. f_equal.
    pose proof (length_filter_bool (entry_expired now) (entries s)) as Hpart.
    rewrite <- Hes' in Hpart. lia.
  - intros Hnone. assert (ks = []) as ->.
    { pose proof (length_filter_bool (entry_expired now) (entries s)) as Hpart.
      rewrite <- Hes', Hnone in Hpart. simpl in Hpart.
      destruct ks; [done|]. simpl in Hlen. lia. }
    simpl in E'. by injection E'.
Qed.

(** *** Every call, on the entries *)

Lemma step_entries s l now (c : @call Any) :
  Inv s l →
  entries (step PyNone s (now, c))
  = model_step (max_size s) (default_ttl s) (entries s) (now, c).
Proof.
  intros HI. unfold step, model_step. cbn [fst snd].
  destruct c as [key v ttl|k|k| | |].
  - destruct key as [k|]; [|done].
    destruct (decide (k = EmptyString)) as [->|Hne]; [done|].
    destruct (put_overflows ttl (default_ttl s)) eqn:Hsum.
    { by rewrite (put_overflow_raises s now k v ttl Hne Hsum). }
    destruct (put_view s l now k v ttl HI Hne Hsum) as (s' & E & _ & _ & Hes & _).
    by rewrite E.
  - destruct (get_view s l now k HI) as (r & s' & E & _ & _ & _ & H).
    rewrite E. simpl.
    destruct (find_entry k (entries s)) as [e|]; [|by destruct H as (_ & -> & _)].
    destruct (entry_expired now e); by destruct H as (_ & -> & _).
  - destruct (delete_view s l k HI) as (s' & E & _ & _ & Hes & _).
    by rewrite E.
  - destruct (clear_view s l HI) as (s' & E & _ & _ & Hes & _).
    by rewrite E.
  - done.
  - destruct (sweep_view s l now HI) as (s' & E & _ & _ & Hes & _).
    by rewrite E.
Qed.

Lemma entries_of_keys_NoDup s l l' :
  Inv s l → NoDup l' → l' ⊆ l →
  NoDup (entry_key <$> entries_of (objects s) l').
Proof.
  intros HI. induction l' as [|a l' IH]; intros Hnd Hsub; [constructor|].
  apply NoDup_cons in Hnd as [Ha Hnd].
  destruct (Inv_payload s l a HI) as (e & He & Hc); [set_solver|].
  rewrite (entries_of_cons _ _ _ _ He), fmap_cons.
  apply NoDup_cons. split; [|apply IH; [done|set_solver]].
  intros Hin. apply list_elem_of_fmap in Hin as (e' & Hk & He').
  apply (elem_of_entries_of s l l' e' HI) in He' as (b & Hb & Hcb & _);
    [|set_solver].
  rewrite <- Hk in Hcb. congruence.
Qed.

Lemma Inv_keys_NoDup s l : Inv s l → NoDup (keys s).
Proof.
  intros HI. unfold keys. rewrite (Inv_entries _ _ HI).
  apply (entries_of_keys_NoDup s l l HI); [|done].
  apply (Linked_NoDup _ _ _ _ (proj1 HI)).
Qed.

Lemma removelast_sublist {A} (us : list A) : removelast us `sublist_of` us.
Proof.
  induction us as [|u [|u' us] IH]; simpl.
  - constructor.
  - by constructor.
  - by constructor.
Qed.

Lemma elem_of_put_entries ms e es e' :
  e' ∈ put_entries ms e es → e' = e ∨ e' ∈ es.
Proof.
  unfold put_entries. repeat case_decide.
  - rewrite elem_of_cons. unfold without. rewrite list_elem_of_filter. tauto.
  - intros Hin.
    assert (e' ∈ e :: es) as Hin'
      by (eapply elem_of_sublist; [done|apply removelast_sublist]).
    by apply elem_of_cons in Hin'.
  - by rewrite elem_of_cons.
Qed.

Lemma length_removelast {A} (us : list A) :
  length (removelast us) = pred (length us).
Proof.
  induction us as [|u [|u' us] IH]; [done|done|].
  change (removelast (u :: u' :: us)) with (u :: removelast (u' :: us)).
  simpl in *. by rewrite IH.
Qed.

Lemma length_put_entries ms e es :
  (length es ≤ Z.to_nat ms)%nat →
  (length (put_entries ms e es) ≤ Z.to_nat ms)%nat.
Proof.
  intros Hlen. unfold put_entries. repeat case_decide.
  - assert (length (without (entry_key e) es) < length es)%nat; [|simpl; lia].
    match goal with H : _ ∈ _ <$> _ |- _ =>
      apply list_elem_of_fmap in H as (e0 & Hk & Hin) end.
    unfold without. eapply (length_filter_lt _ _ e0); [done|]. by intros H'.
  - rewrite length_removelast. simpl. lia.
  - simpl. lia.
Qed.

Lemma find_entry_Some k es e :
  find_entry k es = Some e → entry_key e = k ∧ e ∈ es.
Proof.
  unfold find_entry. destruct (filter _ _) as [|e' es'] eqn:E; [done|].
  intros [= ->].
  assert (e ∈ filter (λ e0 : entry, entry_key e0 = k) es) as He
    by (rewrite E; apply list_elem_of_here).
  by apply list_elem_of_filter in He.
Qed.

Lemma length_without_lt k es e :
  e ∈ es → entry_key e = k → (length (without k es) < length es)%nat.
Proof.
  intros He Hk. unfold without. eapply (length_filter_lt _ _ e); [done|].
  by intros H'.
Qed.

(** The entries after a call are entries from before, or the entry of
    the Put. *)
Lemma elem_of_model_step ms dt es now (c : @call Any) e :
  e ∈ model_step ms dt es (now, c) →
  e ∈ es ∨ ∃ k v ttl, c = Put (Some k) v ttl ∧ k ≠ EmptyString
                      ∧ e = (k, v, put_expiry now ttl dt).
Proof.
  unfold model_step. cbn [fst snd]. destruct c as [[k|] v ttl|k|k| | |].
  - case_decide; [by left|]. destruct (put_overflows ttl dt); [by left|].
    intros [->|?]%elem_of_put_entries; [|by left].
    right. eauto 10.
  - by left.
  - destruct (find_entry k es) as [e'|] eqn:Hf; [|by left].
    apply find_entry_Some in Hf as [_ He'].
    destruct (entry_expired now e').
    + unfold without. rewrite list_elem_of_filter. tauto.
    + rewrite elem_of_cons. unfold without. rewrite list_elem_of_filter.
      intros [->|[_ ?]]; by left.
  - unfold without. rewrite list_elem_of_filter. tauto.
  - by intros ?%elem_of_nil.
  - by left.
  - rewrite list_elem_of_filter. tauto.
Qed.

Lemma length_model_step ms dt es (c : Z * @call Any) :
  (length es ≤ Z.to_nat ms)%nat →
  (length (model_step ms dt es c) ≤ Z.to_nat ms)%nat.
Proof.
  intros Hlen. destruct c as [now c]. unfold model_step. cbn [fst snd].
  destruct c as [[k|] v ttl|k|k| | |]; try done.
  - case_decide; [done|]. destruct (put_overflows ttl dt); [done|].
    by apply length_put_entries.
  - destruct (find_entry k es) as [e'|] eqn:Hf; [|done].
    apply find_entry_Some in Hf as [Hk He'].
    pose proof (length_without_lt k es e' He' Hk).
    destruct (entry_expired now e'); simpl; lia.
  - pose proof (length_filter (λ e : entry, entry_key e ≠ k) es).
    unfold without. lia.
  - simpl. lia.
  - pose proof (length_filter (λ e : entry, entry_expired now e = false) es). lia.
Qed.

(** No call lowers a counter; [evictions] moves only in a Put, and
    [expired_removals] only in a Get or a sweep. *)
Local Ltac counters :=
  repeat split; intros; try lia; try done;
  try (exfalso; match goal with H : ∀ _, _ ≠ _ |- _ => by eapply H end);
  try (exfalso; match goal with H : ∀ _ _ _, _ ≠ _ |- _ => by eapply H end).

Lemma step_counters s l now (c : @call Any) :
  Inv s l →
  hits s ≤ hits (step PyNone s (now, c)) ∧
  misses s ≤ misses (step PyNone s (now, c)) ∧
  evictions s ≤ evictions (step PyNone s (now, c)) ≤ evictions s + 1 ∧
  expired_removals s ≤ expired_removals (step PyNone s (now, c)) ∧
  ((∀ key v ttl, c ≠ Put key v ttl) →
   evictions (step PyNone s (now, c)) = evictions s) ∧
  ((∀ k, c ≠ Get k) → c ≠ Sweep →
   expired_removals (step PyNone s (now, c)) = expired_removals s).
Proof.
  intros HI. unfold step. cbn [fst snd].
  destruct c as [key v ttl|k|k| | |].
  - destruct (invalid_key_dec key) as [Hbad|(k & -> & Hne)].
    { rewrite (put_invalid_raises s now key v ttl Hbad). simpl.
      counters. }
    destruct (put_overflows ttl (default_ttl s)) eqn:Hsum.
    { rewrite (put_overflow_raises s now k v ttl Hne Hsum). simpl.
      counters. }
    destruct (put_view s l now k v ttl HI Hne Hsum)
      as (s' & E & _ & _ & _ & Hev & Hh & Hm & Hr).
    rewrite E. simpl. rewrite Hh, Hm, Hr, Hev.
    assert (0 ≤ put_evicts (max_size s) (k, v, put_expiry now ttl (default_ttl s))
                  (entries s) ≤ 1) by (unfold put_evicts; repeat case_decide; lia).
    counters.
  - destruct (get_view s l now k HI) as (r & s' & E & _ & _ & Hev & H).
    rewrite E. simpl. rewrite Hev.
    assert (hits s ≤ hits s' ∧ misses s ≤ misses s'
            ∧ expired_removals s ≤ expired_removals s') as (? & ? & ?).
    { destruct (find_entry k (entries s)) as [e|];
        [destruct (entry_expired now e)|];
        destruct H as (_ & _ & -> & -> & ->); lia. }
    counters.
  - destruct (delete_view s l k HI) as (s' & E & _ & _ & _ & Hh & Hm & Hv & Hr).
    rewrite E. simpl. rewrite Hh, Hm, Hv, Hr. counters.
  - destruct (clear_view s l HI) as (s' & E & _ & _ & _ & _ & Hh & Hm & Hv & Hr).
    rewrite E. simpl. rewrite Hh, Hm, Hv, Hr. counters.
  - simpl. counters.
  - destruct (sweep_view s l now HI) as (s' & E & _ & _ & _ & Hh & Hm & Hv & Hr & _).
    rewrite E. simpl. rewrite Hh, Hm, Hv, Hr. counters.
Qed.

Lemma step_Tidy s l (c : Z * @call Any) :
  Inv s l → Tidy (max_size s) s → Tidy (max_size s) (step PyNone s c).
Proof.
  intros HI [Hk Hlen Hh Hm He Hr]. destruct c as [now c].
  destruct (step_counters s l now c HI) as (? & ? & [? ?] & ? & _).
  split; try lia.
  - intros k. unfold keys. rewrite (step_entries s l now c HI).
    intros (e & -> & Hin)%list_elem_of_fmap.
    apply elem_of_model_step in Hin as [Hin|(k & v & ttl & _ & Hne & ->)]; [|done].
    apply Hk. unfold keys. apply list_elem_of_fmap. eauto.
  - rewrite (step_entries s l now c HI). by apply length_model_step.
Qed.

Lemma run_model ms dt (cs : list (Z * @call Any)) : ∀ s,
  Good ms dt s →
  entries (run PyNone s cs) = fold_left (model_step ms dt) cs (entries s).
Proof.
  induction cs as [|[now c] cs IH]; intros s HG; [done|].
  rewrite run_cons. cbn [fold_left].
  rewrite (IH _ (step_Good PyNone ms dt s (now, c) HG)).
  destruct HG as [[l HI] Hms Hdt _ _].
  by rewrite (step_entries s l now c HI), Hms, Hdt.
Qed.

Lemma run_Tidy ms dt (cs : list (Z * @call Any)) : ∀ s,
  Good ms dt s → Tidy ms s → Tidy ms (run PyNone s cs).
Proof.
  induction cs as [|c cs IH]; intros s HG HT; [done|].
  rewrite run_cons. apply IH; [by apply step_Good|].
  destruct HG as [[l HI] Hms _ _ _]. rewrite <- Hms. apply (step_Tidy s l c HI).
  by rewrite Hms.
Qed.

Lemma init_entries ms dt : entries (__init__ PyNone ms dt) = [].
Proof. by rewrite (Inv_entries _ _ (init_Inv PyNone ms dt)). Qed.

Lemma engine_Tidy ms dt cs : Tidy ms (run PyNone (__init__ PyNone ms dt) cs).
Proof.
  apply (run_Tidy ms dt); [apply init_Good|].
  split; try done.
  - intros k. unfold keys. rewrite init_entries. by intros ?%elem_of_nil.
  - rewrite init_entries. simpl. lia.
Qed.

End entry_view.

(** ** Further properties of the engine *)

Section coverage.
Context {Any : Type} (PyNone : Any).

Local Abbreviation node := (CacheNode.t Any).
Local Abbreviation self := (ThreadSafeCache.t Any).
Local Abbreviation entry := (string * Any * Z)%type.

Implicit Types (s : self) (l : list addr) (k : string) (now : Z)
  (e : entry) (es : list entry).

Local Abbreviation engine ms dt cs := (run PyNone (__init__ PyNone ms dt) cs).

Lemma entry_expired_mono now now' e :
  now' ≤ now → entry_expired now' e = true → entry_expired now e = true.
Proof.
  unfold entry_expired. rewrite !andb_true_iff, !bool_decide_eq_true. lia.
Qed.

Lemma put_entries_head ms e es :
  0 < ms → (length es ≤ Z.to_nat ms)%nat → ∃ rest, put_entries ms e es = e :: rest.
Proof.
  intros Hms Hlen. unfold put_entries. repeat case_decide; eauto.
  destruct es as [|e0 es]; [simpl in *; lia|].
  exists (removelast (e0 :: es)). done.
Qed.

Lemma find_entry_head e rest : find_entry (entry_key e) (e :: rest) = Some e.
Proof. unfold find_entry. by rewrite filter_cons_True. Qed.

Lemma not_elem_of_keys_without s k :
  k ∉ entry_key <$> without k (entries s).
Proof.
  intros (e & -> & He)%list_elem_of_fmap.
  unfold without in He. apply list_elem_of_filter in He as [Hne _]. done.
Qed.

(** X1.  From any state the engine can be in, a sweep at the clock reading
    [now] returns; it leaves exactly the entries that are not expired at
    [now], in their order, so no entry left is expired at [now]; the
    dictionary has the keys of the entries left and nothing else;
    [expired_removals] grows by the number of entries removed, and [hits],
    [misses] and [evictions] stay. *)
Theorem sweep_removes_the_expired ms dt cs now :
  ∃ s',
    _cleanup_expired now (engine ms dt cs) = Returns tt s' ∧
    entries s' = filter (λ e, entry_expired now e = false) (entries (engine ms dt cs)) ∧
    (∀ e, e ∈ entries s' → entry_expired now e = false) ∧
    (∀ k, k ∈ keys s' ↔ is_Some (cache s' !! k)) ∧
    current_size s' = Z.of_nat (length (entries s')) ∧
    expired_removals s'
    = expired_removals (engine ms dt cs)
      + Z.of_nat (length (filter (λ e, entry_expired now e = true)
                            (entries (engine ms dt cs)))) ∧
    hits s' = hits (engine ms dt cs) ∧
    misses s' = misses (engine ms dt cs) ∧
    evictions s' = evictions (engine ms dt cs).
Proof.
  destruct (engine_Inv PyNone ms dt cs) as [l HI].
  destruct (sweep_view (engine ms dt cs) l now HI)
    as (s' & E & [l' HI'] & _ & Hes & Hh & Hm & Hv & Hr & _).
  exists s'. split; [done|]. split; [done|]. split.
  { intros e. rewrite Hes, list_elem_of_filter. tauto. }
  split; [intros k; by apply (Inv_keys _ l')|].
  split; [unfold current_size; by rewrite (Inv_entries_length _ _ HI')|done].
Qed.

(** X2.  When no entry is expired at [now], and so also when there is no
    entry at all, a sweep returns in the state it was called in: nothing
    is removed and no counter moves. *)
Theorem sweep_without_expired_changes_nothing ms dt cs now :
  filter (λ e, entry_expired now e = true) (entries (engine ms dt cs)) = [] →
  _cleanup_expired now (engine ms dt cs) = Returns tt (engine ms dt cs).
Proof.
  intros Hnone. destruct (engine_Inv PyNone ms dt cs) as [l HI].
  destruct (sweep_view (engine ms dt cs) l now HI)
    as (s' & E & _ & _ & _ & _ & _ & _ & _ & Hsame).
  by rewrite E, (Hsame Hnone).
Qed.

(** X3.  A sweep made right after a sweep, at the same clock reading or
    an earlier one, returns in the state the first sweep left. *)
Theorem second_sweep_changes_nothing ms dt cs now now' :
  now' ≤ now →
  ∃ s',
    _cleanup_expired now (engine ms dt cs) = Returns tt s' ∧
    _cleanup_expired now' s' = Returns tt s'.
Proof.
  intros Hle. destruct (engine_Inv PyNone ms dt cs) as [l HI].
  destruct (sweep_view (engine ms dt cs) l now HI)
    as (s' & E & [l' HI'] & _ & Hes & _).
  exists s'. split; [done|].
  destruct (sweep_view s' l' now' HI')
    as (s'' & E' & _ & _ & _ & _ & _ & _ & _ & Hsame).
  rewrite E'. f_equal. apply Hsame.
  destruct (filter _ (entries s')) as [|e es] eqn:Hf; [done|]. exfalso.
  assert (e ∈ filter (λ e, entry_expired now' e = true) (entries s')) as He
    by (rewrite Hf; apply list_elem_of_here).
  apply list_elem_of_filter in He as [Hexp He].
  rewrite Hes in He. apply list_elem_of_filter in He as [Hlive _].
  apply (entry_expired_mono now now' e Hle) in Hexp. congruence.
Qed.

(** X4.  On an engine with a positive [max_size], in any state it can be
    in: after a Put of a non-empty key whose sum is exact, a Get of that key
    returns the value put, unless the expiry this Put computed is positive
    and the clock reading of the Get is past it; then the Get returns
    [None].  The first counts one hit, the second one miss and one expired
    removal. *)
Theorem get_after_put ms dt cs now k v ttl now' :
  0 < ms →
  k ≠ EmptyString →
  exact_put now ttl dt →
  ∃ s1 r s2,
    put now (Some k) v ttl (engine ms dt cs) = Returns tt s1 ∧
    get PyNone now' k s1 = Returns r s2 ∧
    if entry_expired now' (k, v, put_expiry now ttl dt) then
      r = PyNone ∧ (k ∉ keys s2) ∧
      hits s2 = hits (engine ms dt cs) ∧
      misses s2 = misses (engine ms dt cs) + 1 ∧
      expired_removals s2 = expired_removals (engine ms dt cs) + 1
    else
      r = v ∧
      hd_error (entries s2) = Some (k, v, put_expiry now ttl dt) ∧
      hits s2 = hits (engine ms dt cs) + 1 ∧
      misses s2 = misses (engine ms dt cs) ∧
      expired_removals s2 = expired_removals (engine ms dt cs).
Proof.
  intros Hms Hne Hsum%exact_put_fits.
  pose proof (engine_Good PyNone ms dt cs) as [[l HI] Hmax Hdt _ _].
  pose proof (engine_Tidy PyNone ms dt cs) as [_ Hlen _ _ _ _].
  rewrite <- Hdt in Hsum.
  destruct (put_view (engine ms dt cs) l now k v ttl HI Hne Hsum)
    as (s1 & E1 & [l1 HI1] & _ & Hes1 & _ & Hh1 & Hm1 & Hr1).
  rewrite Hmax, Hdt in Hes1.
  destruct (put_entries_head ms (k, v, put_expiry now ttl dt) _ Hms Hlen)
    as [rest Hrest].
  rewrite Hrest in Hes1.
  destruct (get_view PyNone s1 l1 now' k HI1) as (r & s2 & E2 & _ & _ & _ & H).
  rewrite Hes1 in H.
  change k with (entry_key (k, v, put_expiry now ttl dt)) in H at 1.
  rewrite find_entry_head in H.
  exists s1, r, s2. split; [done|]. split; [done|].
  destruct (entry_expired now' (k, v, put_expiry now ttl dt)).
  - destruct H as (-> & Hes2 & -> & -> & ->). split; [done|].
    split; [|by rewrite Hh1, Hm1, Hr1].
    unfold keys. rewrite Hes2. intros (e & Hk & He)%list_elem_of_fmap.
    unfold without in He. apply list_elem_of_filter in He as [Hne' _].
    by apply Hne'.
  - destruct H as (-> & Hes2 & -> & -> & ->). split; [done|].
    split; [by rewrite Hes2|]. by rewrite Hh1, Hm1, Hr1.
Qed.

(** X5.  In any state the engine can be in, Delete returns whether the
    key was among the entries and leaves the other entries in their
    order; after it the key is gone: a second Delete returns [False] in the
    same state, and a Get returns [None] and counts a miss. *)
Theorem delete_then_absent ms dt cs k :
  ∃ s1,
    delete k (engine ms dt cs)
    = Returns (bool_decide (k ∈ keys (engine ms dt cs))) s1 ∧
    entries s1 = without k (entries (engine ms dt cs)) ∧
    (k ∉ keys s1) ∧
    delete k s1 = Returns false s1 ∧
    ∀ now, get PyNone now k s1 = Returns PyNone (with_misses (misses s1 + 1) s1).
Proof.
  destruct (engine_Inv PyNone ms dt cs) as [l HI].
  destruct (delete_view (engine ms dt cs) l k HI)
    as (s1 & E & [l1 HI1] & _ & Hes & _).
  assert (k ∉ keys s1) as Hk.
  { unfold keys. rewrite Hes. apply not_elem_of_keys_without. }
  assert (cache s1 !! k = None) as Hc.
  { destruct (cache s1 !! k) eqn:Hc; [|done]. exfalso.
    apply Hk, (Inv_keys _ _ _ HI1). by rewrite Hc. }
  exists s1. split; [done|]. split; [done|]. split; [done|].
  split; [by apply delete_absent_returns|].
  intros now. by apply get_absent_returns.
Qed.

(** X6.  In any state the engine can be in, after Clear there is no
    entry: every Get returns [None] and counts a miss, and every Delete
    returns [False] in the same state. *)
Theorem clear_then_nothing_is_found ms dt cs :
  ∃ s1,
    clear (engine ms dt cs) = Returns tt s1 ∧
    entries s1 = [] ∧
    (∀ now k, get PyNone now k s1
              = Returns PyNone (with_misses (misses s1 + 1) s1)) ∧
    (∀ k, delete k s1 = Returns false s1).
Proof.
  destruct (engine_Inv PyNone ms dt cs) as [l HI].
  destruct (clear_view (engine ms dt cs) l HI)
    as (s1 & E & HI1 & _ & Hes & Hc & _).
  exists s1. split; [done|]. split; [done|]. split.
  - intros now k. apply get_absent_returns. by rewrite Hc, lookup_empty.
  - intros k. apply delete_absent_returns. by rewrite Hc, lookup_empty.
Qed.

(** X7.  An engine built with [max_size] zero or negative never holds an
    entry: in every state it can be in the dictionary is empty and every
    Get returns [None] and counts a miss; a Put of a non-empty key whose
    sum is exact returns, counts one eviction (of the node it has just
    linked) and leaves the engine empty. *)
Theorem no_capacity_holds_nothing ms dt cs :
  ms ≤ 0 →
  entries (engine ms dt cs) = [] ∧
  cache (engine ms dt cs) = ∅ ∧
  (∀ now k, get PyNone now k (engine ms dt cs)
            = Returns PyNone
                (with_misses (misses (engine ms dt cs) + 1) (engine ms dt cs))) ∧
  (∀ now k v ttl, k ≠ EmptyString → exact_put now ttl dt →
     ∃ s', put now (Some k) v ttl (engine ms dt cs) = Returns tt s' ∧
           entries s' = [] ∧ cache s' = ∅ ∧
           evictions s' = evictions (engine ms dt cs) + 1).
Proof.
  intros Hms.
  assert (∀ cs', entries (engine ms dt cs') = [] ∧ cache (engine ms dt cs') = ∅)
    as Hempty.
  { intros cs'. destruct (engine_Inv PyNone ms dt cs') as [l HI].
    pose proof (engine_Tidy PyNone ms dt cs') as [_ Hlen _ _ _ _].
    assert (length (entries (engine ms dt cs')) = 0%nat) as H0 by lia.
    split; [by destruct (entries _)|].
    apply map_size_empty_inv. by rewrite <- (Inv_entries_length _ _ HI). }
  destruct (Hempty cs) as [Hes Hc].
  split; [done|]. split; [done|]. split.
  - intros now k. apply get_absent_returns. by rewrite Hc, lookup_empty.
  - intros now k v ttl Hne Hsum%exact_put_fits.
    pose proof (engine_Good PyNone ms dt cs) as [[l HI] Hmax Hdt _ _].
    rewrite <- Hdt in Hsum.
    destruct (put_view (engine ms dt cs) l now k v ttl HI Hne Hsum)
      as (s' & E & _ & _ & _ & Hev & _).
    exists s'. split; [done|].
    destruct (Hempty (cs ++ [(now, Put (Some k) v ttl)])) as [Hes' Hc'].
    rewrite run_snoc in Hes', Hc'. unfold step in Hes', Hc'.
    cbn [fst snd] in Hes', Hc'. rewrite E in Hes', Hc'.
    split; [done|]. split; [done|].
    rewrite Hev, Hes, Hmax. unfold put_evicts.
    repeat case_decide; try done; try (simpl in *; lia).
    exfalso. match goal with H : _ ∈ _ <$> [] |- _ => by apply elem_of_nil in H end.
Qed.

(** X8.  In every state the engine can be in, GetStats reports counters
    that are not negative, a [hit_rate] between 0 and 1, and a
    [current_size] that is the number of entries and is at most
    [max_size] when that is not negative. *)
Theorem stats_are_within_bounds ms dt cs :
  ∃ st,
    get_stats (engine ms dt cs) = Returns st (engine ms dt cs) ∧
    0 ≤ CacheStats.hits st ∧
    0 ≤ CacheStats.misses st ∧
    0 ≤ CacheStats.evictions st ∧
    0 ≤ CacheStats.expired_removals st ∧
    Qle 0 (CacheStats.hit_rate st) ∧
    Qle (CacheStats.hit_rate st) 1 ∧
    CacheStats.current_size st = Z.of_nat (length (entries (engine ms dt cs))) ∧
    (0 ≤ ms → CacheStats.current_size st ≤ ms).
Proof.
  pose proof (engine_Good PyNone ms dt cs) as [[l HI] _ _ _ Hb].
  pose proof (engine_Tidy PyNone ms dt cs) as [_ _ Hh Hm He Hr].
  exists (stats_of (engine ms dt cs)). split; [apply get_stats_returns|].
  set (s := engine ms dt cs) in *. simpl.
  split; [done|]. split; [done|]. split; [done|]. split; [done|].
  assert (Qle 0 (if decide (hits s + misses s > 0)
                 then Qdiv (inject_Z (hits s)) (inject_Z (hits s + misses s))
                 else 0%Q)
          ∧ Qle (if decide (hits s + misses s > 0)
                 then Qdiv (inject_Z (hits s)) (inject_Z (hits s + misses s))
                 else 0%Q) 1) as [H0 H1].
  { case_decide as Hpos; [|split; [apply Qle_refl|done]].
    assert (Qeq (Qdiv (inject_Z (hits s)) (inject_Z (hits s + misses s)))
                (Qmake (hits s) (Z.to_pos (hits s + misses s)))) as ->.
    { rewrite (Qmake_Qdiv (hits s)). by rewrite Z2Pos.id by lia. }
    unfold Qle. simpl. rewrite Z2Pos.id by lia. lia. }
  split; [done|]. split; [done|].
  split; [by rewrite (Inv_entries_length _ _ HI)|].
  exact Hb.
Qed.

(** X10.  In every state the engine can be in, the keys of the entries
    are distinct and none is the empty string; they are exactly the keys of
    the dictionary, each on the node whose [key] field it is, and there are
    as many entries as the dictionary has keys. *)
Theorem keys_are_distinct_and_not_empty ms dt cs :
  NoDup (keys (engine ms dt cs)) ∧
  (∀ k, k ∈ keys (engine ms dt cs) → k ≠ EmptyString) ∧
  (∀ k, k ∈ keys (engine ms dt cs) ↔ is_Some (cache (engine ms dt cs) !! k)) ∧
  (∀ k x, cache (engine ms dt cs) !! k = Some x →
          keyof (objects (engine ms dt cs)) x = Some k) ∧
  length (entries (engine ms dt cs)) = size (cache (engine ms dt cs)).
Proof.
  destruct (engine_Inv PyNone ms dt cs) as [l HI].
  pose proof (engine_Tidy PyNone ms dt cs) as [Hk _ _ _ _ _].
  split; [by eapply Inv_keys_NoDup|]. split; [done|].
  split; [intros k; by eapply Inv_keys|].
  split; [|by eapply Inv_entries_length].
  intros k x Hc. by apply (indexed_iff _ _ _ (proj2 HI)) in Hc as [_ ?].
Qed.

(** X11.  On an engine with [max_size] at least 2, in any state it can be
    in: the most recently used entry is still there after a Put of any
    other non-empty key whose sum is exact, right behind the entry of that
    Put. *)
Theorem most_recent_entry_survives_a_put ms dt cs now k v ttl e rest :
  2 ≤ ms →
  k ≠ EmptyString →
  entries (engine ms dt cs) = e :: rest →
  entry_key e ≠ k →
  exact_put now ttl dt →
  ∃ s' rest',
    put now (Some k) v ttl (engine ms dt cs) = Returns tt s' ∧
    entries s' = (k, v, put_expiry now ttl dt) :: e :: rest'.
Proof.
  intros Hms Hne Hes Hek Hsum%exact_put_fits.
  pose proof (engine_Good PyNone ms dt cs) as [[l HI] Hmax Hdt _ _].
  pose proof (engine_Tidy PyNone ms dt cs) as [_ Hlen _ _ _ _].
  rewrite <- Hdt in Hsum.
  destruct (put_view (engine ms dt cs) l now k v ttl HI Hne Hsum)
    as (s' & E & _ & _ & Hes' & _).
  exists s'. rewrite Hes', Hmax, Hdt, Hes. rewrite Hes in Hlen.
  unfold put_entries. simpl entry_key. repeat case_decide.
  - exists (without k rest). split; [done|]. f_equal. unfold without.
    by rewrite filter_cons_True.
  - destruct rest as [|e1 rest]; [simpl in *; lia|].
    exists (removelast (e1 :: rest)). done.
  - by exists rest.
Qed.

(** X12.  The entries of the engine after any history whose Puts make
    exact sums are what the list model gives: starting from no entry, a
    Put brings its entry to the
    front and drops the last entry when the key is new and there would be
    more than [max_size]; a Get of an entry that is not expired brings it
    to the front, a Get of an expired entry removes it; Delete removes the
    entry of the key; Clear removes all; a sweep removes the expired ones;
    a rejected Put, a Get of an absent key and GetStats change nothing. *)
Theorem entries_follow_the_list_model ms dt cs :
  Forall (exact_call dt) cs →
  entries (engine ms dt cs) = fold_left (model_step ms dt) cs [].
Proof.
  intros _. rewrite (run_model PyNone ms dt cs _ (init_Good PyNone ms dt)).
  by rewrite init_entries.
Qed.

(** X13.  From any state the engine can be in, no call lowers [hits],
    [misses], [evictions] or [expired_removals]; [evictions] grows by at
    most one in a call and only in a Put; [expired_removals] changes only
    in a Get or a sweep. *)
Theorem counters_only_grow ms dt cs now (c : @call Any) :
  hits (engine ms dt cs) ≤ hits (step PyNone (engine ms dt cs) (now, c)) ∧
  misses (engine ms dt cs) ≤ misses (step PyNone (engine ms dt cs) (now, c)) ∧
  evictions (engine ms dt cs)
  ≤ evictions (step PyNone (engine ms dt cs) (now, c))
  ≤ evictions (engine ms dt cs) + 1 ∧
  expired_removals (engine ms dt cs)
  ≤ expired_removals (step PyNone (engine ms dt cs) (now, c)) ∧
  ((∀ key v ttl, c ≠ Put key v ttl) →
   evictions (step PyNone (engine ms dt cs) (now, c))
   = evictions (engine ms dt cs)) ∧
  ((∀ k, c ≠ Get k) → c ≠ Sweep →
   expired_removals (step PyNone (engine ms dt cs) (now, c))
   = expired_removals (engine ms dt cs)).
Proof.
  destruct (engine_Inv PyNone ms dt cs) as [l HI].
  exact (step_counters PyNone _ l now c HI).
Qed.

(** A new entry put on the first [m] entries of [R]. *)
Lemma put_entries_take (m : nat) e (R : list entry) :
  (0 < m)%nat →
  entry_key e ∉ entry_key <$> take m R →
  put_entries (Z.of_nat m) e (take m R) = take m (e :: R) ∧
  put_evicts (Z.of_nat m) e (take m R)
  = (if decide (m ≤ length R)%nat then 1 else 0).
Proof.
  intros Hm Hk. unfold put_entries, put_evicts.
  destruct (decide (entry_key e ∈ entry_key <$> take m R)) as [|_]; [done|].
  rewrite length_take.
  destruct m as [|m]; [lia|]. simpl take at 3.
  destruct (decide (Z.of_nat (S m `min` length R) + 1 > Z.of_nat (S m)))
    as [Hfull|Hroom].
  - rewrite decide_True by lia. split; [|done].
    assert (length (take (S m) R) = S m) as Hlen by (rewrite length_take; lia).
    destruct (take (S m) R) as [|e0 es] eqn:Et; [done|].
    change (removelast (e :: e0 :: es)) with (e :: removelast (e0 :: es)).
    f_equal. rewrite removelast_firstn_len, Hlen. simpl pred.
    rewrite <- Et. rewrite take_take. f_equal. lia.
  - rewrite decide_False by lia. split; [|done].
    f_equal. rewrite !take_ge by lia. done.
Qed.

(** X9.  Puts of distinct non-empty keys, with exact sums, into a new
    engine with a positive [max_size]: the entries are those of the last
    [max_size] Puts, the
    latest first; every Put beyond [max_size] has evicted one entry, the
    oldest there was, and the size is the number of Puts or [max_size],
    whichever is less. *)
Theorem puts_of_distinct_keys ms dt (ps : list (Z * string * Any * option Z)) :
  0 < ms →
  NoDup ((λ p, p.1.1.2) <$> ps) →
  (∀ p, p ∈ ps → p.1.1.2 ≠ EmptyString) →
  (∀ p, p ∈ ps → exact_put p.1.1.1 p.2 dt) →
  entries (engine ms dt (put_call <$> ps))
  = take (Z.to_nat ms) (rev (put_entry dt <$> ps)) ∧
  evictions (engine ms dt (put_call <$> ps))
  = Z.max 0 (Z.of_nat (length ps) - ms) ∧
  current_size (engine ms dt (put_call <$> ps))
  = Z.min (Z.of_nat (length ps)) ms.
Proof.
  intros Hms Hnd Hne Hex.
  assert (entries (engine ms dt (put_call <$> ps))
          = take (Z.to_nat ms) (rev (put_entry dt <$> ps)) ∧
          evictions (engine ms dt (put_call <$> ps))
          = Z.max 0 (Z.of_nat (length ps) - ms)) as [Hes Hev].
  { induction ps as [|p ps IH] using rev_ind.
    - split; [|simpl; lia]. simpl. rewrite init_entries. by destruct (Z.to_nat ms).
    - rewrite fmap_app in Hnd. apply NoDup_app in Hnd as (Hnd & Hfresh & _).
      destruct IH as [IHes IHev];
        [done|intros q Hq; apply Hne; set_solver
        |intros q Hq; apply Hex; set_solver|].
      rewrite !fmap_app.
      change (put_call <$> [p]) with [put_call p].
      change (put_entry dt <$> [p]) with [put_entry dt p]. rewrite run_snoc.
      pose proof (engine_Good PyNone ms dt (put_call <$> ps)) as [[l HI] Hmax Hdt _ _].
      destruct p as [[[now k] v] ttl].
      assert (k ≠ EmptyString) as Hk by (apply (Hne (now, k, v, ttl)); set_solver).
      assert (put_overflows ttl (default_ttl (engine ms dt (put_call <$> ps))) = false)
        as Hsum.
      { rewrite Hdt. apply (exact_put_fits now).
        apply (Hex (now, k, v, ttl)). set_solver. }
      destruct (put_view (engine ms dt (put_call <$> ps)) l now k v ttl HI Hk Hsum)
        as (s' & E & _ & _ & Hes' & Hev' & _).
      change (step PyNone ?s0 (put_call (now, k, v, ttl)))
        with (state_of (put now (Some k) v ttl s0)).
      rewrite E. simpl state_of.
      rewrite Hes', Hev', Hmax, Hdt, IHes, IHev.
      rewrite rev_app_distr. simpl rev at 3. simpl app.
      change (put_entry dt (now, k, v, ttl)) with (k, v, put_expiry now ttl dt).
      set (R := rev (put_entry dt <$> ps)).
      assert (length R = length ps) as HR
        by (unfold R; by rewrite length_rev, length_fmap).
      destruct (put_entries_take (Z.to_nat ms) (k, v, put_expiry now ttl dt) R)
        as [Hpe Hpv]; [lia| |].
      { intros (e & Hke & He)%list_elem_of_fmap. simpl in Hke.
        apply (subseteq_take (Z.to_nat ms) R) in He. unfold R in He.
        apply elem_of_rev, list_elem_of_fmap in He as (q & -> & Hq).
        change (k = q.1.1.2) in Hke.
        apply (Hfresh k); [rewrite Hke; apply list_elem_of_fmap; eauto|].
        apply list_elem_of_here. }
      rewrite Z2Nat.id in Hpe, Hpv by lia. rewrite Hpe, Hpv.
      split; [done|]. rewrite HR, length_app.
      change (length [(now, k, v, ttl)]) with 1%nat.
      destruct (decide (Z.to_nat ms ≤ length ps)%nat); lia. }
  split; [done|]. split; [done|].
  destruct (engine_Inv PyNone ms dt (put_call <$> ps)) as [l HI].
  unfold current_size. rewrite <- (Inv_entries_length _ _ HI), Hes.
  rewrite length_take, length_rev, length_fmap. lia.
Qed.

Lemma without_not_in k es : k ∉ entry_key <$> es → without k es = es.
Proof.
  unfold without. induction es as [|e es IH]; intros Hk; [done|].
  rewrite fmap_cons, not_elem_of_cons in Hk. destruct Hk as [Hne Hk].
  rewrite filter_cons_True by done. by rewrite IH.
Qed.

Lemma find_entry_without k es : find_entry k (without k es) = None.
Proof.
  unfold find_entry, without.
  destruct (filter _ (filter _ es)) as [|e es'] eqn:E; [done|]. exfalso.
  assert (e ∈ filter (λ e0 : entry, entry_key e0 = k)
                (filter (λ e0 : entry, entry_key e0 ≠ k) es)) as He
    by (rewrite E; apply list_elem_of_here).
  apply list_elem_of_filter in He as [Hk He].
  apply list_elem_of_filter in He as [Hne _]. done.
Qed.

Lemma not_elem_of_removelast k es :
  k ∉ entry_key <$> es → k ∉ entry_key <$> removelast es.
Proof.
  intros Hk (e & -> & He)%list_elem_of_fmap. apply Hk, list_elem_of_fmap.
  exists e. split; [done|].
  eapply elem_of_sublist; [done|apply removelast_sublist].
Qed.

(** X14.  On an engine with a positive [max_size], in any state it can be
    in: a Put, with an exact sum, of a non-empty key that is not in the
    engine, followed by a
    Delete of that key, which returns [True], leaves the entries as they
    were before the Put when there was room for one more; when the engine
    was full it leaves them without the least recently used one, and one
    eviction has been counted. *)
Theorem put_then_delete_of_a_new_key ms dt cs now k v ttl :
  0 < ms →
  k ≠ EmptyString →
  k ∉ keys (engine ms dt cs) →
  exact_put now ttl dt →
  ∃ s1 s2,
    put now (Some k) v ttl (engine ms dt cs) = Returns tt s1 ∧
    delete k s1 = Returns true s2 ∧
    if decide (Z.of_nat (length (entries (engine ms dt cs))) + 1 > ms) then
      entries s2 = removelast (entries (engine ms dt cs)) ∧
      evictions s2 = evictions (engine ms dt cs) + 1
    else
      entries s2 = entries (engine ms dt cs) ∧
      evictions s2 = evictions (engine ms dt cs).
Proof.
  intros Hms Hne Hnew Hsum%exact_put_fits.
  pose proof (engine_Good PyNone ms dt cs) as [[l HI] Hmax Hdt _ _].
  rewrite <- Hdt in Hsum.
  destruct (put_view (engine ms dt cs) l now k v ttl HI Hne Hsum)
    as (s1 & E1 & [l1 HI1] & _ & Hes1 & Hev1 & _).
  rewrite Hmax, Hdt in Hes1, Hev1.
  destruct (delete_view s1 l1 k HI1) as (s2 & E2 & _ & _ & Hes2 & _ & _ & Hev2 & _).
  unfold put_entries, put_evicts in Hes1, Hev1.
  change (entry_key (k, v, put_expiry now ttl dt)) with k in Hes1, Hev1.
  fold (keys (engine ms dt cs)) in Hes1, Hev1.
  destruct (decide (k ∈ keys (engine ms dt cs))) as [|_]; [done|].
  assert (k ∈ keys s1) as Hin.
  { unfold keys. rewrite Hes1.
    destruct (decide (_ > ms)); [|apply list_elem_of_here].
    destruct (entries (engine ms dt cs)); [simpl in *; lia|apply list_elem_of_here]. }
  rewrite bool_decide_eq_true_2 in E2 by done.
  exists s1, s2. split; [done|]. split; [done|].
  rewrite Hes2, Hev2, Hes1, Hev1. unfold without.
  destruct (decide (_ > ms)) as [Hov|Hfit].
  - destruct (entries (engine ms dt cs)) as [|e0 es] eqn:Ees; [simpl in *; lia|].
    change (removelast ((k, v, put_expiry now ttl dt) :: e0 :: es))
      with ((k, v, put_expiry now ttl dt) :: removelast (e0 :: es)).
    rewrite filter_cons_False by (intros Hk; by apply Hk).
    split; [|done]. apply without_not_in. apply not_elem_of_removelast.
    unfold keys in Hnew. by rewrite Ees in Hnew.
  - rewrite filter_cons_False by (intros Hk; by apply Hk).
    split; [|lia]. by apply without_not_in.
Qed.

(** X15.  In any state the engine can be in: the first Get of a key whose
    entry is expired returns [None], removes the entry and counts one miss
    and one expired removal; a Get of that key made after it, at any clock
    reading, returns [None] and counts a miss only. *)
Theorem expired_entry_is_removed_once ms dt cs now now' k e :
  find_entry k (entries (engine ms dt cs)) = Some e →
  entry_expired now e = true →
  ∃ s1 s2,
    get PyNone now k (engine ms dt cs) = Returns PyNone s1 ∧
    get PyNone now' k s1 = Returns PyNone s2 ∧
    entries s1 = without k (entries (engine ms dt cs)) ∧
    expired_removals s1 = expired_removals (engine ms dt cs) + 1 ∧
    misses s1 = misses (engine ms dt cs) + 1 ∧
    entries s2 = entries s1 ∧
    expired_removals s2 = expired_removals s1 ∧
    misses s2 = misses s1 + 1 ∧
    hits s2 = hits (engine ms dt cs).
Proof.
  intros Hfind Hexp. destruct (engine_Inv PyNone ms dt cs) as [l HI].
  destruct (get_view PyNone (engine ms dt cs) l now k HI)
    as (r1 & s1 & E1 & [l1 HI1] & _ & _ & H1).
  rewrite Hfind, Hexp in H1. destruct H1 as (-> & Hes1 & Hh1 & Hm1 & Hr1).
  destruct (get_view PyNone s1 l1 now' k HI1) as (r2 & s2 & E2 & _ & _ & _ & H2).
  rewrite Hes1, find_entry_without in H2.
  destruct H2 as (-> & Hes2 & Hh2 & Hm2 & Hr2).
  exists s1, s2. rewrite Hes2, Hh2, Hh1. by repeat split.
Qed.

Lemma _evict_lru_empty s : Inv s [] → _evict_lru s = Returns tt s.
Proof.
  intros HI. pose proof (Inv_entries_length _ _ HI) as Hlen.
  rewrite (Inv_entries _ _ HI) in Hlen.
  unfold _evict_lru, bind, gets. simpl. by rewrite decide_True.
Qed.

(** X16.  [_evict_lru], called in any state the engine can be in, returns:
    with no entry it leaves the state as it is; otherwise it removes the
    last entry, which is the least recently used, and nothing else, and
    counts one eviction.  The other counters stay. *)
Theorem evict_lru_removes_the_last_entry ms dt cs :
  ∃ s',
    _evict_lru (engine ms dt cs) = Returns tt s' ∧
    entries s' = removelast (entries (engine ms dt cs)) ∧
    evictions s'
    = evictions (engine ms dt cs)
      + (match entries (engine ms dt cs) with [] => 0 | _ => 1 end) ∧
    (entries (engine ms dt cs) = [] → s' = engine ms dt cs) ∧
    hits s' = hits (engine ms dt cs) ∧
    misses s' = misses (engine ms dt cs) ∧
    expired_removals s' = expired_removals (engine ms dt cs).
Proof.
  destruct (engine_Inv PyNone ms dt cs) as [l HI].
  destruct l as [|lru l0 _] using rev_ind.
  - exists (engine ms dt cs). rewrite (Inv_entries _ _ HI).
    split; [by apply _evict_lru_empty|]. repeat split. simpl. lia.
  - destruct (_evict_lru_returns _ _ _ HI)
      as (klru & h' & Hkl & Hc & E & HI' & Hsp & Hlen).
    destruct (Inv_payload _ _ lru HI) as (elru & He & _);
      [apply elem_of_app; right; apply list_elem_of_here|].
    assert (entries (engine ms dt cs)
            = entries_of (objects (engine ms dt cs)) l0 ++ [elru]) as Hes.
    { rewrite (Inv_entries _ _ HI), entries_of_app.
      by rewrite (entries_of_cons _ lru [] elru He). }
    eexists. split; [exact E|].
    rewrite (Inv_entries (with_evictions (evictions (engine ms dt cs) + 1) _) _ HI').
    cbn [objects cache head tail with_objects with_cache with_evictions
         hits misses evictions expired_removals].
    rewrite Hes, removelast_last.
    split; [apply entries_of_ext; intros a _; apply Hsp|].
    split; [by destruct (entries_of _ l0)|].
    split; [|done]. by destruct (entries_of _ l0).
Qed.

End coverage.

(** ** The further properties on concrete engines *)

(** X2 on the engine of [two_keys_history] at 105: ["b"] expires at 106,
    so nothing is expired yet. *)
Lemma sweep_without_expired_changes_nothing_witness :
  filter (λ e, entry_expired 105 e = true)
    (entries (run PyNoneValue (__init__ PyNoneValue 2 None) two_keys_history)) = [] ∧
  _cleanup_expired 105 (run PyNoneValue (__init__ PyNoneValue 2 None) two_keys_history)
  = Returns tt (run PyNoneValue (__init__ PyNoneValue 2 None) two_keys_history).
Proof.
  assert (filter (λ e, entry_expired 105 e = true)
            (entries (run PyNoneValue (__init__ PyNoneValue 2 None) two_keys_history))
          = []) as H by (vm_compute; reflexivity).
  split; [exact H|].
  exact (sweep_without_expired_changes_nothing PyNoneValue 2 None two_keys_history 105 H).
Defined.

(** X3 on the engine of [two_keys_history]: a sweep at 110, which removes
    ["b"], and a second one at 107. *)
Lemma second_sweep_changes_nothing_witness :
  107 ≤ 110 ∧
  ∃ s',
    _cleanup_expired 110 (run PyNoneValue (__init__ PyNoneValue 2 None) two_keys_history)
    = Returns tt s' ∧
    _cleanup_expired 107 s' = Returns tt s'.
Proof.
  assert (107 ≤ 110) as H by lia.
  split; [exact H|].
  exact (second_sweep_changes_nothing PyNoneValue 2 None two_keys_history 110 107 H).
Defined.

(** X4 on the engine of [two_keys_history]: ["c"] is put at 103 with a
    [ttl] of 5 and read at 110, when it is expired. *)
Lemma get_after_put_witness :
  0 < 2 ∧ "c" ≠ EmptyString ∧ exact_put 103 (Some 5) None ∧
  ∃ s1 r s2,
    put 103 (Some "c") (PyStr "vc") (Some 5)
      (run PyNoneValue (__init__ PyNoneValue 2 None) two_keys_history) = Returns tt s1 ∧
    get PyNoneValue 110 "c" s1 = Returns r s2 ∧
    r = PyNoneValue ∧ ("c" ∉ keys s2) ∧
    expired_removals s2
    = expired_removals (run PyNoneValue (__init__ PyNoneValue 2 None) two_keys_history) + 1.
Proof.
  assert (0 < 2) as H1 by lia.
  assert ("c" ≠ EmptyString) as H2 by discriminate.
  assert (exact_put 103 (Some 5) None) as H3 by (unfold exact_put, exact_sum; lia).
  split; [exact H1|]. split; [exact H2|]. split; [exact H3|].
  destruct (get_after_put PyNoneValue 2 None two_keys_history 103 "c" (PyStr "vc")
              (Some 5) 110 H1 H2 H3) as (s1 & r & s2 & E1 & E2 & Hr & Hk & _ & _ & Hx).
  exists s1, r, s2. split; [exact E1|]. split; [exact E2|].
  split; [exact Hr|]. split; [exact Hk|exact Hx].
Defined.

(** X7 on an engine built with [max_size = 0], after one Put: it is empty,
    and empty again after another Put, which counts an eviction. *)
Lemma no_capacity_holds_nothing_witness :
  0 ≤ 0 ∧
  entries (run PyNoneValue (__init__ PyNoneValue 0 None)
             [(100, Put (Some "a") (PyStr "va") None)]) = [] ∧
  cache (run PyNoneValue (__init__ PyNoneValue 0 None)
           [(100, Put (Some "a") (PyStr "va") None)]) = ∅ ∧
  "b" ≠ EmptyString ∧ exact_put 101 (Some 5) None ∧
  ∃ s',
    put 101 (Some "b") (PyStr "vb") (Some 5)
      (run PyNoneValue (__init__ PyNoneValue 0 None)
         [(100, Put (Some "a") (PyStr "va") None)]) = Returns tt s' ∧
    entries s' = [] ∧
    evictions s'
    = evictions (run PyNoneValue (__init__ PyNoneValue 0 None)
                   [(100, Put (Some "a") (PyStr "va") None)]) + 1.
Proof.
  assert (0 ≤ 0) as H by lia.
  assert ("b" ≠ EmptyString) as H2 by discriminate.
  assert (exact_put 101 (Some 5) None) as H3 by (unfold exact_put, exact_sum; lia).
  split; [exact H|].
  destruct (no_capacity_holds_nothing PyNoneValue 0 None
              [(100, Put (Some "a") (PyStr "va") None)] H) as (Hes & Hc & _ & Hput).
  split; [exact Hes|]. split; [exact Hc|]. split; [exact H2|]. split; [exact H3|].
  destruct (Hput 101 "b" (PyStr "vb") (Some 5) H2 H3) as (s' & E & Hes' & _ & Hev).
  exists s'. split; [exact E|]. split; [exact Hes'|exact Hev].
Defined.

(** X9 on [eviction_puts] and an engine of capacity 3 with a [default_ttl]
    of 60: two evictions, and three entries left. *)
Lemma puts_of_distinct_keys_witness :
  0 < 3 ∧
  NoDup ((λ p : Z * string * PyValue * option Z, p.1.1.2) <$> eviction_puts) ∧
  (∀ p, p ∈ eviction_puts → p.1.1.2 ≠ EmptyString) ∧
  (∀ p, p ∈ eviction_puts → exact_put p.1.1.1 p.2 (Some 60)) ∧
  entries (run PyNoneValue (__init__ PyNoneValue 3 (Some 60)) (put_call <$> eviction_puts))
  = [("key4", PyStr "value4", 164); ("key3", PyStr "value3", 163);
     ("key2", PyStr "value2", 162)] ∧
  evictions (run PyNoneValue (__init__ PyNoneValue 3 (Some 60)) (put_call <$> eviction_puts))
  = 2 ∧
  current_size
    (run PyNoneValue (__init__ PyNoneValue 3 (Some 60)) (put_call <$> eviction_puts))
  = 3.
Proof.
  assert (0 < 3) as H1 by lia.
  assert (NoDup ((λ p : Z * string * PyValue * option Z, p.1.1.2) <$> eviction_puts))
    as H2 by (apply (bool_decide_unpack _); vm_compute; exact I).
  assert (∀ p, p ∈ eviction_puts → p.1.1.2 ≠ EmptyString) as H3
    by (apply Forall_forall; repeat constructor; discriminate).
  assert (∀ p, p ∈ eviction_puts → exact_put p.1.1.1 p.2 (Some 60)) as H4
    by (apply Forall_forall; repeat constructor;
        unfold exact_put, exact_sum; simpl; lia).
  split; [exact H1|]. split; [exact H2|]. split; [exact H3|]. split; [exact H4|].
  exact (puts_of_distinct_keys PyNoneValue 3 (Some 60) eviction_puts H1 H2 H3 H4).
Defined.

(** X11 on the engine of [two_keys_history], which is full: ["a"], touched
    last, is there after the Put of ["c"]. *)
Lemma most_recent_entry_survives_a_put_witness :
  2 ≤ 2 ∧ "c" ≠ EmptyString ∧
  entries (run PyNoneValue (__init__ PyNoneValue 2 None) two_keys_history)
  = [("a", PyStr "va", 0); ("b", PyStr "vb", 106)] ∧
  entry_key ("a", PyStr "va", 0) ≠ "c" ∧
  exact_put 103 (Some 5) None ∧
  ∃ s' rest',
    put 103 (Some "c") (PyStr "vc") (Some 5)
      (run PyNoneValue (__init__ PyNoneValue 2 None) two_keys_history) = Returns tt s' ∧
    entries s' = ("c", PyStr "vc", 108) :: ("a", PyStr "va", 0) :: rest'.
Proof.
  assert (2 ≤ 2) as H1 by lia.
  assert ("c" ≠ EmptyString) as H2 by discriminate.
  assert (entries (run PyNoneValue (__init__ PyNoneValue 2 None) two_keys_history)
          = [("a", PyStr "va", 0); ("b", PyStr "vb", 106)]) as H3
    by (vm_compute; reflexivity).
  assert (entry_key ("a", PyStr "va", 0) ≠ "c") as H4 by discriminate.
  assert (exact_put 103 (Some 5) None) as H5 by (unfold exact_put, exact_sum; lia).
  split; [exact H1|]. split; [exact H2|]. split; [exact H3|]. split; [exact H4|].
  split; [exact H5|].
  exact (most_recent_entry_survives_a_put PyNoneValue 2 None two_keys_history 103 "c"
           (PyStr "vc") (Some 5) _ _ H1 H2 H3 H4 H5).
Defined.

(** X12 on [two_keys_history] and an engine of capacity 2. *)
Lemma entries_follow_the_list_model_witness :
  Forall (exact_call None) two_keys_history ∧
  entries (run PyNoneValue (__init__ PyNoneValue 2 None) two_keys_history)
  = fold_left (model_step 2 None) two_keys_history [] ∧
  fold_left (model_step 2 None) two_keys_history []
  = [("a", PyStr "va", 0); ("b", PyStr "vb", 106)].
Proof.
  assert (Forall (exact_call None) two_keys_history) as H
    by (repeat constructor; unfold exact_call, exact_put, exact_sum; simpl; lia).
  split; [exact H|]. split; [|vm_compute; reflexivity].
  exact (entries_follow_the_list_model PyNoneValue 2 None two_keys_history H).
Defined.

(** X14 on the engine of [two_keys_history], which is full: after the Put
    and the Delete of ["c"], ["b"] is gone. *)
Lemma put_then_delete_of_a_new_key_witness :
  0 < 2 ∧ "c" ≠ EmptyString ∧
  ("c" ∉ keys (run PyNoneValue (__init__ PyNoneValue 2 None) two_keys_history)) ∧
  exact_put 103 (Some 5) None ∧
  ∃ s1 s2,
    put 103 (Some "c") (PyStr "vc") (Some 5)
      (run PyNoneValue (__init__ PyNoneValue 2 None) two_keys_history) = Returns tt s1 ∧
    delete "c" s1 = Returns true s2.
Proof.
  assert (0 < 2) as H1 by lia.
  assert ("c" ≠ EmptyString) as H2 by discriminate.
  assert ("c" ∉ keys (run PyNoneValue (__init__ PyNoneValue 2 None) two_keys_history))
    as H3 by (apply (bool_decide_unpack _); vm_compute; exact I).
  assert (exact_put 103 (Some 5) None) as H4 by (unfold exact_put, exact_sum; lia).
  split; [exact H1|]. split; [exact H2|]. split; [exact H3|]. split; [exact H4|].
  destruct (put_then_delete_of_a_new_key PyNoneValue 2 None two_keys_history 103 "c"
              (PyStr "vc") (Some 5) H1 H2 H3 H4) as (s1 & s2 & E1 & E2 & _).
  exists s1, s2. split; [exact E1|exact E2].
Defined.

(** X15 on the engine of [two_keys_history]: ["b"] expires at 106 and is
    read at 107 and at 108. *)
Lemma expired_entry_is_removed_once_witness :
  find_entry "b" (entries (run PyNoneValue (__init__ PyNoneValue 2 None) two_keys_history))
  = Some ("b", PyStr "vb", 106) ∧
  entry_expired 107 ("b", PyStr "vb", 106) = true ∧
  ∃ s1 s2,
    get PyNoneValue 107 "b"
      (run PyNoneValue (__init__ PyNoneValue 2 None) two_keys_history)
    = Returns PyNoneValue s1 ∧
    get PyNoneValue 108 "b" s1 = Returns PyNoneValue s2 ∧
    expired_removals s2
    = expired_removals (run PyNoneValue (__init__ PyNoneValue 2 None) two_keys_history) + 1.
Proof.
  assert (find_entry "b"
            (entries (run PyNoneValue (__init__ PyNoneValue 2 None) two_keys_history))
          = Some ("b", PyStr "vb", 106)) as H1 by (vm_compute; reflexivity).
  assert (entry_expired 107 ("b", PyStr "vb", 106) = true) as H2 by reflexivity.
  split; [exact H1|]. split; [exact H2|].
  destruct (expired_entry_is_removed_once PyNoneValue 2 None two_keys_history 107 108
              "b" _ H1 H2)
    as (s1 & s2 & E1 & E2 & _ & Hr1 & _ & _ & Hr2 & _).
  exists s1, s2. split; [exact E1|]. split; [exact E2|].
  rewrite Hr2. exact Hr1.
Defined.
